(** * PAI-RAG: ingestion pipeline, task-status ledger and configuration reload

    A shallow embedding of
      - [pai_rag/core/rag_service.py]                 (module [Service]),
      - [pai_rag/data/rag_dataloader.py]              (module [DataLoader]),
      - [pai_rag/modules/index/my_vector_store_index.py] (module [Index]),
      - [pai_rag/app/api/query.py]                    (module [Api]),
    followed by the properties established about them.  The modules
    [Ledger], [ServiceVocabulary], [IndexVocabulary], [LoaderVocabulary]
    and [EvalData] hold what the further properties of the service, the
    index and the loader are stated with.

    Python [str] values are modelled as lists of characters ([list ascii],
    code points below 256); dictionaries as finite maps; exceptions as values
    of an error monad; objects that are mutated through several references
    (node metadata) live in an explicit store. *)

From Stdlib Require Import Strings.Ascii Strings.String ZArith Lia.
From Stdlib Require Import Numbers.DecimalString.
From stdpp Require Import gmap strings list fin_maps.

(* ===================================================================== *)
(** * Python strings *)
(* ===================================================================== *)

Module Py.

Definition str := list ascii.

(** String literals: [lit "abc"] is the Python string ['abc']. *)
Definition lit (s : string) : str := list_ascii_of_string s.
Arguments lit s%_string.

Definition TAB : ascii := ascii_of_nat 9.
Definition LF : ascii := ascii_of_nat 10.
Definition CR : ascii := ascii_of_nat 13.
Definition SP : ascii := ascii_of_nat 32.
Definition COLON : ascii := ascii_of_nat 58.

Definition ch_eqb (a b : ascii) : bool := bool_decide (a = b).

(** [str.isspace] on one code point below 256: the ASCII whitespace table
  (TAB, LF, VT, FF, CR, FS, GS, RS, US, space), NEL and NBSP. *)
Definition isspace (c : ascii) : bool :=
let n := nat_of_ascii c in
((9 <=? n) && (n <=? 13)) || ((28 <=? n) && (n <=? 32))
|| (n =? 133) || (n =? 160).

(** [s.replace(old, new)] for a one-character [old] and [new]. *)
Definition replace (old new : ascii) (s : str) : str :=
map (fun c => if ch_eqb c old then new else c) s.

Fixpoint lstrip (s : str) : str :=
match s with
| [] => []
| c :: s' => if isspace c then lstrip s' else s
end.

Definition rstrip (s : str) : str := rev (lstrip (rev s)).

(** [s.strip()] *)
Definition strip (s : str) : str := rstrip (lstrip s).

(** [s.split(sep)] for a one-character separator: never empty. *)
Fixpoint split (sep : ascii) (s : str) : list str :=
match s with
| [] => [[]]
| c :: s' =>
    if ch_eqb c sep then [] :: split sep s'
    else match split sep s' with
         | [] => [[c]]
         | p :: ps => (c :: p) :: ps
         end
end.

(** [line.startswith(p)] *)
Fixpoint startswith (line p : str) : bool :=
match p, line with
| [], _ => true
| _ :: _, [] => false
| a :: p', b :: line' => ch_eqb a b && startswith line' p'
end.

(** Reading a file opened in text mode with the default [newline=None]:
  ['\r\n'] and a lone ['\r'] are both handed to the program as ['\n']. *)
Fixpoint universal_newlines (s : str) : str :=
match s with
| [] => []
| c :: s' =>
    if ch_eqb c CR then
      LF :: match s' with
            | [] => []
            | d :: s'' =>
                if ch_eqb d LF then universal_newlines s''
                else universal_newlines s'
            end
    else c :: universal_newlines s'
end.

(** Lines of a text, each keeping its terminating ['\n'] (the last one
  may lack it), as [readlines] returns them. *)
Fixpoint keepends (s : str) : list str :=
match s with
| [] => []
| c :: s' =>
    if ch_eqb c LF then [c] :: keepends s'
    else match keepends s' with
         | [] => [[c]]
         | l :: ls => (c :: l) :: ls
         end
end.

(** [open(path).readlines()] on a file holding [content]. *)
Definition readlines (content : str) : list str :=
keepends (universal_newlines content).

(** [str(n)] for a non-negative integer. *)
Definition str_of_nat (n : nat) : str :=
list_ascii_of_string (NilZero.string_of_uint (Nat.to_uint n)).

(** [os.path.splitext(p)[1]] (POSIX): the extension starts at the last dot
  of the last path component, leading dots of that component apart. *)
Fixpoint basename_acc (acc s : str) : str :=
match s with
| [] => rev acc
| c :: s' => if ch_eqb c "/" then basename_acc [] s' else basename_acc (c :: acc) s'
end.

Definition basename (s : str) : str := basename_acc [] s.

Fixpoint drop_dots (s : str) : str :=
match s with
| [] => []
| c :: s' => if ch_eqb c "." then drop_dots s' else s
end.

(** The suffix of [s] starting at its last dot, if it has a dot. *)
Fixpoint from_last_dot (s : str) : option str :=
match s with
| [] => None
| c :: s' =>
    match from_last_dot s' with
    | Some e => Some e
    | None => if ch_eqb c "." then Some s else None
    end
end.

Definition splitext_ext (p : str) : str :=
default [] (from_last_dot (drop_dots (basename p))).

End Py.

Import Py.

(* ===================================================================== *)
(** * Exceptions and results *)
(* ===================================================================== *)

Module Exn.

(** The exception classes the embedded code raises or catches.  Every one
  of them derives from Python's [Exception], so [except Exception]
  catches all of them; [OtherError] stands for any exception raised by
  a collaborator. *)
Inductive exc_class : Type :=
| UserInputError
| ServiceError
| IndexError
| OtherError.

(** An exception value: [exc_msg] is [str(ex)], [exc_cause] is
  [str(ex.__cause__)] when a cause is chained ([None] otherwise). *)
Record exc : Type := Exc {
exc_cls : exc_class;
exc_msg : str;
exc_cause : option str;
}.

(** [str(ex.__cause__)]: the text ['None'] when no cause is chained. *)
Definition str_cause (ex : exc) : str :=
default (lit "None") (exc_cause ex).

Inductive result (A : Type) : Type :=
| Ok (a : A)
| Raise (e : exc).
Arguments Ok {A} a.
Arguments Raise {A} e.

Definition is_ok {A} (r : result A) : bool :=
match r with Ok _ => true | Raise _ => false end.

(** The exceptions that derive from [BaseException] but not from
  [Exception]: [except Exception] does not catch them.  The embedded
  code meets them where it awaits ([asyncio.CancelledError] when the
  task is cancelled, [KeyboardInterrupt] and [SystemExit] when the
  process is stopped). *)
Inductive base_exception : Type :=
| CancelledError
| KeyboardInterrupt
| SystemExit.

(** How an awaited call ends: as a call that is not awaited can end, or
  by one of the exceptions no [except Exception] catches. *)
Inductive awaited (A : Type) : Type :=
| Returned (r : result A)
| Interrupted (b : base_exception).
Arguments Returned {A} r.
Arguments Interrupted {A} b.

End Exn.

Import Exn.

(* ===================================================================== *)
(** * The service façade: [rag_service.py] *)
(* ===================================================================== *)

Module Service.

(** What [RagService] asks of [RagConfiguration] and [RagApplication],
  whose code is outside the embedded files.  An instance fixes how the
  outside world answers during one operation. *)
Class Collaborators : Type := {
Config : Type;
Dict : Type;
Mtime : Type;
Patch : Type;
RagQuery : Type;
LlmQuery : Type;
RetrievalQuery : Type;
Response : Type;
Dict_eq_dec :: EqDecision Dict;
Mtime_eq_dec :: EqDecision Mtime;
(** [cfg.get_value().to_dict()] *)
to_dict : Config -> Dict;
(** [cfg.get_config_mtime()] *)
get_config_mtime : Config -> result Mtime;
(** [RagConfiguration.from_file(config_file)] *)
from_file : str -> result Config;
(** [RagConfiguration.from_snapshot()] *)
from_snapshot : result Config;
(** truth value of a patch in [if new_config:] *)
truthy : Patch -> bool;
(** [snapshot.update(new_config)] *)
update : Config -> Patch -> result Config;
(** [cfg.persist()] *)
persist : Config -> result unit;
(** [self.rag = RagApplication(); self.rag.initialize(value)] *)
rag_initialize : Config -> result unit;
(** [self.rag.reload(config_snapshot)] *)
rag_reload : Config -> result unit;
(** [self.rag.aload_knowledge(input_files, filter_pattern, faiss_path,
    enable_qa_extraction)] *)
rag_aload_knowledge :
  list str -> option str -> option str -> bool -> awaited unit;
(** [self.rag.aquery(query)] and the other awaited queries *)
rag_aquery : RagQuery -> awaited Response;
rag_aquery_llm : LlmQuery -> awaited Response;
rag_aquery_retrieval : RetrievalQuery -> awaited Response;
rag_aquery_agent : LlmQuery -> awaited Response;
}.

Section ServiceState.
Context `{C : Collaborators}.

(** Calls on collaborators and on the task-status file, in the order the
service performs them. *)
Inductive Call : Type :=
| CallFromFile
| CallRagInitialize
| CallGetConfigMtime
| CallFromSnapshot
| CallUpdate
| CallRagReload (snapshot : Config)
| CallPersist (snapshot : Config)
| CallAloadKnowledge
| CallAquery
| CallAqueryLlm
| CallAqueryRetrieval
| CallAqueryAgent
| FileAppend (data : str)
| FileExists
| FileTruncate
| FileReadlines.

(** The fields of [RagService], the content of [TASK_STATUS_FILE]
([None] when the file does not exist) and the calls made so far. *)
Record State : Type := MkState {
rag_configuration : Config;
config_dict_value : Dict;
config_modified_time : Mtime;
task_status_file : option str;
calls : list Call;
}.

Definition M (A : Type) : Type := State -> result A * State.

Definition ret {A} (a : A) : M A := fun s => (Ok a, s).

Definition raise {A} (e : exc) : M A := fun s => (Raise e, s).

Definition bind {A B} (m : M A) (k : A -> M B) : M B :=
fun s =>
match m s with
| (Ok a, s') => k a s'
| (Raise e, s') => (Raise e, s')
end.

(** [try: m  except Exception as ex: h ex] around code that does not
await: every value of [exc] is of a class derived from [Exception],
so the handler gets whatever [m] raises. *)
Definition try_except {A} (m : M A) (h : exc -> M A) : M A :=
fun s =>
match m s with
| (Ok a, s') => (Ok a, s')
| (Raise e, s') => h e s'
end.

#[export] Instance M_ret : MRet M := @ret.
#[export] Instance M_bind : MBind M := fun A B k m => bind m k.

Definition get : M State := fun s => (Ok s, s).

Definition logged (c : Call) (s : State) : State :=
MkState (rag_configuration s) (config_dict_value s)
      (config_modified_time s) (task_status_file s) (calls s ++ [c]).

(** A call on a collaborator: recorded, then its answer. *)
Definition call {A} (c : Call) (r : result A) : M A :=
fun s => (r, logged c s).

(** The coroutines of the service: a coroutine can also be left, at an
[await], by an exception that is no [Exception]. *)
Definition AM (A : Type) : Type := State -> awaited A * State.

(** Code of a coroutine that does not await. *)
Definition lift {A} (m : M A) : AM A :=
fun s => let '(r, s') := m s in (Returned r, s').

Definition abind {A B} (m : AM A) (k : A -> AM B) : AM B :=
fun s =>
match m s with
| (Returned (Ok a), s') => k a s'
| (Returned (Raise e), s') => (Returned (Raise e), s')
| (Interrupted b, s') => (Interrupted b, s')
end.

Definition athen {A B} (m : AM A) (k : AM B) : AM B :=
abind m (fun _ => k).

(** [await] of a collaborator: recorded, then how the awaited call
ends. *)
Definition await {A} (c : Call) (a : awaited A) : AM A :=
fun s => (a, logged c s).

(** [try: m  except Exception as ex: h ex] around code that awaits: the
handler gets what [m] raises of [Exception]; an interruption passes
through it. *)
Definition try_except_await {A} (m : AM A) (h : exc -> AM A) : AM A :=
fun s =>
match m s with
| (Returned (Ok a), s') => (Returned (Ok a), s')
| (Returned (Raise e), s') => h e s'
| (Interrupted b, s') => (Interrupted b, s')
end.

Definition set_config_dict_value (d : Dict) : M unit :=
fun s => (Ok tt, MkState (rag_configuration s) d
                       (config_modified_time s) (task_status_file s) (calls s)).

Definition set_rag_configuration (c : Config) : M unit :=
fun s => (Ok tt, MkState c (config_dict_value s)
                       (config_modified_time s) (task_status_file s) (calls s)).

Definition set_config_modified_time (t : Mtime) : M unit :=
fun s => (Ok tt, MkState (rag_configuration s) (config_dict_value s)
                       t (task_status_file s) (calls s)).

(** [with open(TASK_STATUS_FILE, "a") as f: f.write(data)]: creates the
file when it is absent. *)
Definition file_append (data : str) : M unit :=
fun s => (Ok tt, MkState (rag_configuration s) (config_dict_value s)
                       (config_modified_time s)
                       (Some (default [] (task_status_file s) ++ data))
                       (calls s ++ [FileAppend data])).

End ServiceState.

Section Operations.
Context `{C : Collaborators}.

(** [RagService.initialize]: builds the service's fields; an existing
status file is truncated, an absent one stays absent. *)
Definition initialize (config_file : str) (status_file : option str)
: result State * list Call :=
match from_file config_file with
| Raise e => (Raise e, [CallFromFile])
| Ok cfg =>
  match get_config_mtime cfg with
  | Raise e => (Raise e, [CallFromFile; CallGetConfigMtime])
  | Ok mtime =>
      let cs := [CallFromFile; CallGetConfigMtime; CallPersist cfg] in
      match persist cfg with
      | Raise e => (Raise e, cs)
      | Ok _ =>
          match rag_initialize cfg with
          | Raise e => (Raise e, cs ++ [CallRagInitialize])
          | Ok _ =>
              let cs' :=
                cs ++ [CallRagInitialize; FileExists]
                   ++ match status_file with
                      | Some _ => [FileTruncate]
                      | None => []
                      end in
              (Ok (MkState cfg (to_dict cfg) mtime
                           (match status_file with
                            | Some _ => Some []
                            | None => None
                            end) cs'), cs')
          end
      end
  end
end.

(** [RagService.reload] *)
Definition reload (new_config : option Patch) : M unit :=
try_except
(rag_snapshot ← call CallFromSnapshot from_snapshot;
 rag_snapshot ←
   match new_config with
   | Some p =>
       if truthy p then call CallUpdate (update rag_snapshot p)
       else ret rag_snapshot
   | None => ret rag_snapshot
   end;
 let new_dict_value := to_dict rag_snapshot in
 s ← get;
 if decide (config_dict_value s <> new_dict_value) then
   call (CallRagReload rag_snapshot) (rag_reload rag_snapshot) ;;
   set_config_dict_value new_dict_value ;;
   set_rag_configuration rag_snapshot ;;
   call (CallPersist rag_snapshot) (persist rag_snapshot)
 else ret tt)
(fun ex =>
   raise (Exc UserInputError
              (lit "Update RAG configuration failed: " ++ exc_msg ex) None)).

(** [RagService.check_updates] *)
Definition check_updates : M unit :=
s ← get;
new_modified_time ←
call CallGetConfigMtime (get_config_mtime (rag_configuration s));
if decide (config_modified_time s <> new_modified_time) then
reload None ;;
set_config_modified_time new_modified_time
else ret tt.

(** [RagService.get_config] *)
Definition get_config : M Dict :=
try_except check_updates
(fun ex =>
   raise (Exc ServiceError
              (lit "Get RAG configuration failed: " ++ exc_msg ex) None)) ;;
s ← get;
ret (config_dict_value s).

(** The three kinds of line written to the status file. *)
Definition processing_line (task_id : str) : str :=
task_id ++ [TAB] ++ lit "processing" ++ [LF].

Definition completed_line (task_id : str) : str :=
task_id ++ [TAB] ++ lit "completed" ++ [LF].

Definition failed_line (task_id detail : str) : str :=
task_id ++ [TAB] ++ lit "failed" ++ [TAB] ++ detail ++ [LF].

(** [f"{ex}: {str(ex.__cause__)}".replace("\t", " ").replace("\n", " ")] *)
Definition failure_detail (ex : exc) : str :=
replace LF SP (replace TAB SP (exc_msg ex ++ lit ": " ++ str_cause ex)).

(** [RagService.add_knowledge_async] *)
Definition add_knowledge_async
(task_id : str) (input_files : list str)
(filter_pattern faiss_path : option str)
(enable_qa_extraction : bool) : AM unit :=
athen (lift check_updates)
(athen (lift (file_append (processing_line task_id)))
   (try_except_await
      (athen
         (await CallAloadKnowledge
            (rag_aload_knowledge input_files filter_pattern faiss_path
                                 enable_qa_extraction))
         (lift (file_append (completed_line task_id))))
      (fun ex =>
         lift
           (file_append (failed_line task_id (failure_detail ex)) ;;
            raise (Exc UserInputError
                       (lit "Upload knowledge failed: " ++ exc_msg ex)
                       None))))).

(** What [get_task_status] hands back: the bare status string on the
early return, the pair [(status, detail)] otherwise. *)
Inductive status_reply : Type :=
| StatusOnly (status : str)
| StatusDetail (status : str) (detail : option str).

(** The loop [for line in lines[::-1]] of [get_task_status], on the
lines already reversed. *)
Fixpoint scan_lines (task_id : str) (lines : list str)
: result (str * option str) :=
match lines with
| [] => Ok (lit "unknown", None)
| line :: rest =>
  if startswith line task_id then
    let parts := split TAB (strip line) in
    match parts !! 1 with
    | None => Raise (Exc IndexError (lit "list index out of range") None)
    | Some status =>
        Ok (status, if length parts =? 3 then parts !! 2 else None)
    end
  else scan_lines task_id rest
end.

(** The lookup of [get_task_status] on the status file: the bare status
on the early return when the file is absent, the pair otherwise. *)
Definition latest_status (file : option str) (task_id : str)
: result status_reply :=
match file with
| None => Ok (StatusOnly (lit "unknown"))
| Some content =>
  match scan_lines task_id (rev (readlines content)) with
  | Ok (status, detail) => Ok (StatusDetail status detail)
  | Raise e => Raise e
  end
end.

(** [RagService.get_task_status] *)
Definition get_task_status (task_id : str) : M status_reply :=
check_updates ;;
call FileExists (Ok tt) ;;
s ← get;
match task_status_file s with
| None => ret (StatusOnly (lit "unknown"))
| Some content =>
  call FileReadlines (latest_status (Some content) task_id)
end.

(** The query entry points share one shape:
[try: self.check_updates(); return await self.rag.q(query)
 except Exception as ex: raise UserInputError(...)]. *)
Definition guarded_query {A} (c : Call) (answer : awaited A) : AM A :=
try_except_await
(athen (lift check_updates) (await c answer))
(fun ex =>
   lift (raise (Exc UserInputError
                    (lit "Query RAG failed: " ++ exc_msg ex) None))).

(** [RagService.aquery] *)
Definition aquery (query : RagQuery) : AM Response :=
guarded_query CallAquery (rag_aquery query).

(** [RagService.aquery_llm] *)
Definition aquery_llm (query : LlmQuery) : AM Response :=
guarded_query CallAqueryLlm (rag_aquery_llm query).

(** [RagService.aquery_retrieval] *)
Definition aquery_retrieval (query : RetrievalQuery) : AM Response :=
guarded_query CallAqueryRetrieval (rag_aquery_retrieval query).

(** [RagService.aquery_agent] *)
Definition aquery_agent (query : LlmQuery) : AM Response :=
guarded_query CallAqueryAgent (rag_aquery_agent query).

(** ** Vocabulary for the properties of the ledger *)

(** The data written to the status file by a sequence of calls. *)
Fixpoint file_appends (cs : list Call) : list str :=
match cs with
| [] => []
| FileAppend data :: cs' => data :: file_appends cs'
| _ :: cs' => file_appends cs'
end.


(** The first thing operation [op] does, in whatever state it starts,
is to read the configuration's modification time: the first step of
the freshness check. *)
Definition check_first {R} (op : State -> R * State) : Prop :=
∀ s, ∃ rest, calls (op s).2 = calls s ++ CallGetConfigMtime :: rest.

(** The calls of the freshness check: reading the modification time and
what a reload calls. *)
Definition is_check_call (c : Call) : bool :=
match c with
| CallGetConfigMtime | CallFromSnapshot | CallUpdate
| CallRagReload _ | CallPersist _ => true
| _ => false
end.

(** The errors the query entry points and the configuration read make
of an exception. *)
Definition query_failed (e : exc) : exc :=
Exc UserInputError (lit "Query RAG failed: " ++ exc_msg e) None.

Definition get_config_failed (e : exc) : exc :=
Exc ServiceError (lit "Get RAG configuration failed: " ++ exc_msg e) None.

(** The state once the modification time [t] has been recorded. *)
Definition seen (t : Mtime) (s : State) : State :=
MkState (rag_configuration s) (config_dict_value s) t
      (task_status_file s) (calls s).

(** The cached dictionary is the active snapshot's. *)
Definition consistent (s : State) : Prop :=
config_dict_value s = to_dict (rag_configuration s).

(** A task identifier in the shape the upload endpoint produces
([uuid.uuid4().hex]): not empty, no whitespace. *)
Definition is_token (task_id : str) : bool :=
match task_id with
| [] => false
| _ => forallb (fun c => negb (isspace c)) task_id
end.


End Operations.

End Service.

(* ===================================================================== *)
(** * Batched asynchronous insertion: [my_vector_store_index.py] *)
(* ===================================================================== *)

Module Index.

(** [llama_index.core.utils.iter_batch]: slices of [size] items taken off
  the front of the sequence until a slice comes back empty.  The fuel
  bounds the number of slices; [iter_batch] gives enough of it. *)
Fixpoint iter_batch_fuel {A} (fuel : nat) (l : list A) (size : nat)
: list (list A) :=
match fuel with
| 0 => []
| S fuel' =>
    match take size l with
    | [] => []
    | b => b :: iter_batch_fuel fuel' (drop size l) size
    end
end.

Definition iter_batch {A} (l : list A) (size : nat) : list (list A) :=
iter_batch_fuel (S (length l)) l size.

(** The batch size of [_async_add_nodes_to_index] and the width of the
  semaphore of [_postprocess_all_batch]. *)
Definition BATCH_SIZE : nat := 100.
Definition SEMAPHORE_WIDTH : nat := 10.

(** Number of items of a list that satisfy a test. *)
Fixpoint count {A} (p : A -> bool) (l : list A) : nat :=
match l with
| [] => 0
| x :: l' => (if p x then 1 else 0) + count p l'
end.

Section WithNode.
Context {Node : Type}.

(** The vector store and the embedding step behind the index. *)
Class Backend : Type := {
(** [self._get_node_with_embedding(nodes_batch, show_progress)] *)
get_node_with_embedding : list Node -> result (list Node);
(** [self._vector_store.stores_text] *)
stores_text : bool;
(** [self._store_nodes_override] *)
store_nodes_override : bool;
}.

(** What the index does to the outside, in the order it happens.
Batches are named by their position in the batch list.
[EvRegistered k] is the registration loop of batch [k] run to its
end; [EvRegistrationRaised k n] is that loop left by an exception
once [n] nodes of the batch were registered. *)
Inductive Event : Type :=
| EvEmbed (k : nat)
| EvAsyncAdd (k : nat) (batch : list Node)
| EvAdded (k : nat)
| EvAddFailed (k : nat)
| EvRegistered (k : nat)
| EvRegistrationRaised (k : nat) (registered : nat)
| EvAddIndexStruct
| EvInsertNodes (nodes : list Node)
| EvPersist
| EvBm25AddDocs (nodes : list Node)
| EvWriteIndexMetadata.

(** Kinds of events: the [async_add] call for batch [k], its normal
return, any [async_add] call, any end of one, anything done by a
batch coroutine, and the keyword-index synchronisation. *)
Definition is_async_add (k : nat) (e : Event) : bool :=
match e with EvAsyncAdd j _ => bool_decide (j = k) | _ => false end.

Definition is_added (k : nat) (e : Event) : bool :=
match e with EvAdded j => bool_decide (j = k) | _ => false end.

Definition is_issue (e : Event) : bool :=
match e with EvAsyncAdd _ _ => true | _ => false end.

Definition is_finish (e : Event) : bool :=
match e with EvAdded _ | EvAddFailed _ => true | _ => false end.

Definition is_insertion (e : Event) : bool :=
match e with
| EvAsyncAdd _ _ | EvAdded _ | EvAddFailed _ | EvRegistered _
| EvRegistrationRaised _ _ => true
| _ => false
end.

(** The batches handed to [async_add] for position [k], in the order of
the calls. *)
Fixpoint added_batches (k : nat) (ev : list Event) : list (list Node) :=
match ev with
| [] => []
| EvAsyncAdd j b :: ev' =>
  if bool_decide (j = k) then b :: added_batches k ev'
  else added_batches k ev'
| _ :: ev' => added_batches k ev'
end.

Definition is_keyword_sync (e : Event) : bool :=
match e with
| EvBm25AddDocs _ | EvWriteIndexMetadata => true
| _ => false
end.

Definition is_persist (e : Event) : bool :=
match e with EvPersist => true | _ => false end.

(** The coroutine [_process_one_batch] of one batch: waiting for the
semaphore, inside [async with semaphore] awaiting [async_add],
left normally, left by an exception of [async_add], or left by an
exception of the registration loop after [async_add] returned. *)
Inductive task : Type :=
| Waiting
| InFlight
| Done
| Failed (e : exc)
| Broken (e : exc).

(** The state of one [asyncio.gather] over the batch coroutines:
the semaphore's counter, one [task] per batch, the events so far. *)
Record gstate : Type := MkG {
sem : nat;
tasks : list task;
trace : list Event;
}.

Context `{B : Backend}.

(** The loop [for nodes_batch in iter_batch(nodes, 100)]: batch [k] is
embedded before batch [k+1] is taken; an exception ends the loop. *)
Fixpoint embed_batches (k : nat) (bs : list (list Node))
: list Event * result (list (list Node)) :=
match bs with
| [] => ([], Ok [])
| b :: bs' =>
  match get_node_with_embedding b with
  | Raise e => ([EvEmbed k], Raise e)
  | Ok b' =>
      let '(ev, r) := embed_batches (S k) bs' in
      (EvEmbed k :: ev,
       match r with
       | Ok l => Ok (b' :: l)
       | Raise e => Raise e
       end)
  end
end.

(** What a batch coroutine does once [async_add] has returned, before it
leaves [async with]: register the nodes when the store keeps no
text. *)
Definition after_add (k : nat) : list Event :=
if negb stores_text || store_nodes_override
then [EvAdded k; EvRegistered k]
else [EvAdded k].

(** One scheduling step of the event loop during [asyncio.gather].  A
coroutine takes the semaphore and calls [async_add]; it resumes when
[async_add] has returned and then runs the registration loop without
awaiting, to its end or until the loop raises; or it resumes with the
exception of [async_add]. *)
Inductive gstep (batches : list (list Node)) : gstate -> gstate -> Prop :=
| step_acquire s k b :
tasks s !! k = Some Waiting ->
batches !! k = Some b ->
0 < sem s ->
gstep batches s
      (MkG (sem s - 1) (<[k := InFlight]> (tasks s))
           (trace s ++ [EvAsyncAdd k b]))
| step_return s k :
tasks s !! k = Some InFlight ->
gstep batches s
      (MkG (sem s + 1) (<[k := Done]> (tasks s))
           (trace s ++ after_add k))
| step_raise s k e :
tasks s !! k = Some InFlight ->
gstep batches s
      (MkG (sem s + 1) (<[k := Failed e]> (tasks s))
           (trace s ++ [EvAddFailed k]))
| step_registration_raises s k b n e :
tasks s !! k = Some InFlight ->
batches !! k = Some b ->
negb stores_text || store_nodes_override = true ->
n < length b ->
gstep batches s
      (MkG (sem s + 1) (<[k := Broken e]> (tasks s))
           (trace s ++ [EvAdded k; EvRegistrationRaised k n])).

(** [asyncio_semaphore = asyncio.Semaphore(10)] and one coroutine per
batch, none started yet. *)
Definition ginit (batches : list (list Node)) : gstate :=
MkG SEMAPHORE_WIDTH (replicate (length batches) Waiting) [].

Definition greach (batches : list (list Node)) : gstate -> Prop :=
rtc (gstep batches) (ginit batches).

(** Number of batches inside [async with semaphore]. *)
Definition is_in_flight (t : task) : bool :=
match t with InFlight => true | _ => false end.

Definition in_flight (s : gstate) : nat := count is_in_flight (tasks s).

Definition is_started (t : task) : bool :=
match t with Waiting => false | _ => true end.

Definition all_done (s : gstate) : Prop :=
Forall (fun t => t = Done) (tasks s).

(** How many [async_add] calls, and how many normal returns, the trace
must hold for a batch whose coroutine is in a given state. *)
Definition expected_adds (t : option task) : nat :=
match t with
| Some Waiting | None => 0
| Some _ => 1
end.

Definition expected_added (t : option task) : nat :=
match t with
| Some Done | Some (Broken _) => 1
| _ => 0
end.

(** What holds of every state of a gather over [batches]. *)
Record gather_inv (batches : list (list Node)) (s : gstate) : Prop := {
inv_length : length (tasks s) = length batches;
inv_sem : sem s + in_flight s = SEMAPHORE_WIDTH;
inv_outstanding :
count is_issue (trace s) = count is_finish (trace s) + in_flight s;
inv_issued : count is_issue (trace s) = count is_started (tasks s);
inv_kind : Forall (fun e => is_insertion e = true) (trace s);
inv_adds :
forall k, count (is_async_add k) (trace s) = expected_adds (tasks s !! k);
inv_added :
forall k, count (is_added k) (trace s) = expected_added (tasks s !! k);
}.

(** [insert_nodes_async] (through [_insert_async] and
[_async_add_nodes_to_index]): the events of one call and how it
ends.  [gather] returns once every coroutine is done, and raises as
soon as one of them has failed.  Storing the index structure in the
index store at the end is taken to return. *)
Inductive insert_nodes_async (nodes : list Node)
: list Event -> result unit -> Prop :=
| insert_nothing :
nodes = [] ->
insert_nodes_async nodes [EvAddIndexStruct] (Ok tt)
| insert_embedding_raises ev e :
nodes <> [] ->
embed_batches 0 (iter_batch nodes BATCH_SIZE) = (ev, Raise e) ->
insert_nodes_async nodes ev (Raise e)
| insert_joined ev batches s :
nodes <> [] ->
embed_batches 0 (iter_batch nodes BATCH_SIZE) = (ev, Ok batches) ->
greach batches s ->
all_done s ->
insert_nodes_async nodes (ev ++ trace s ++ [EvAddIndexStruct]) (Ok tt)
| insert_batch_raises ev batches s k e :
nodes <> [] ->
embed_batches 0 (iter_batch nodes BATCH_SIZE) = (ev, Ok batches) ->
greach batches s ->
tasks s !! k = Some (Failed e) ->
insert_nodes_async nodes (ev ++ trace s) (Raise e)
| insert_registration_raises ev batches s k e :
nodes <> [] ->
embed_batches 0 (iter_batch nodes BATCH_SIZE) = (ev, Ok batches) ->
greach batches s ->
tasks s !! k = Some (Broken e) ->
insert_nodes_async nodes (ev ++ trace s) (Raise e).

End WithNode.

Arguments Backend Node : clear implicits.
Arguments Event Node : clear implicits.
Arguments gstate Node : clear implicits.

End Index.

(* ===================================================================== *)
(** * Building nodes and loading them: [rag_dataloader.py] *)
(* ===================================================================== *)

Module DataLoader.

Definition DOC_TYPES_DO_NOT_NEED_CHUNKING : list str :=
[lit ".csv"; lit ".xlsx"; lit ".xls"; lit ".htm"; lit ".html"].

(** A metadata mapping ([Dict[str, Any]] with string values). *)
Abbreviation dict := (gmap str str).

(** Metadata mappings are Python objects reached through references: the
  store holds them, a [loc] names one. *)
Definition loc : Type := nat.
Abbreviation store := (list dict).

Definition deref (st : store) (l : loc) : dict := default ∅ (st !! l).

(** A document as the reader returns it. *)
Record Document : Type := MkDocument {
doc_text : str;
doc_metadata : dict;
}.

Record TextNode : Type := MkTextNode {
id_ : str;
text : str;
metadata : loc;
excluded_embed_metadata_keys : list str;
excluded_llm_metadata_keys : list str;
}.

(** A node as a node parser hands it over: identifier, text and a
  metadata mapping of its own. *)
Record ParsedNode : Type := MkParsedNode {
parsed_id : str;
parsed_text : str;
parsed_metadata : dict;
}.

(** The [file_path] argument: [str | List[str]]. *)
Inductive PathArg : Type :=
| PathList (files : list str)
| PathStr (path : str).

(** The value under ["qa_extraction_result"] of one entry of an
  extractor's answer, in the mapping's iteration order; [None] when the
  entry has no such key. *)
Definition qa_entry : Type := option (list (str * str)).

Class Collaborators : Type := {
(** [os.path.isfile], [os.path.isdir], [pathlib.Path(d).rglob(pattern)] *)
isfile : str -> bool;
isdir : str -> bool;
rglob : str -> str -> list str;
(** [self.datareader_factory.get_reader(input_files).load_data()] *)
load_data : list str -> result (list Document);
(** the digest behind [node_id_hash] *)
id_digest : nat -> str -> dict -> str;
(** [MarkdownNodeParser(id_func=node_id_hash).get_nodes_from_documents([doc])] *)
md_get_nodes : Document -> result (list ParsedNode);
(** [self.node_parser.get_nodes_from_documents([doc])] *)
default_get_nodes : Document -> result (list ParsedNode);
(** [extractor.extract(nodes)] of the two extractors, which see the
    nodes and the metadata they refer to *)
html_extract : store -> list TextNode -> result (list qa_entry);
txt_extract : store -> list TextNode -> result (list qa_entry);
(** whether [TextNode(metadata=m)] keeps a copy of the mapping [m]
    (field validation builds a new mapping) or the object [m] itself *)
metadata_copied_on_construction : bool;
(** [self.bm25_index] is set *)
bm25_index : bool;
(** [self.index.vector_index.insert_nodes(nodes)], the blocking insert *)
insert_nodes : list TextNode -> result unit;
(** [storage_context.persist(persist_dir=...)] *)
storage_persist : result unit;
(** [self.bm25_index.add_docs(nodes)] *)
bm25_add_docs : list TextNode -> result unit;
}.

Section Loader.
Context `{C : Collaborators}.

(** Modelled from the spec: [node_id_hash] of
[pai_rag.modules.nodeparser.node_parser], whose code is not among the
embedded files.  The specification derives the identifier
deterministically from the source document and its ordinal position:
a fixed function of the two. *)
Definition node_id_hash (i : nat) (doc : Document) : str :=
id_digest i (doc_text doc) (doc_metadata doc).

(** [RagDataLoader._extract_file_type] *)
Definition _extract_file_type (metadata : dict) : str :=
splitext_ext (default (lit "dummy.txt") (metadata !! lit "file_name")).

(** [filter_pattern or "*"] *)
Definition pattern_or_star (filter_pattern : option str) : str :=
match filter_pattern with
| None | Some [] => lit "*"
| Some p => p
end.

(** The first statement of [_get_nodes]: resolving [file_path]. *)
Definition input_files (file_path : PathArg) (filter_pattern : option str)
: list str :=
match file_path with
| PathList fs => List.filter isfile fs
| PathStr p =>
  if isdir p
  then List.filter isfile (rglob p (pattern_or_star filter_pattern))
  else [p]
end.

(** [TextNode(id_=i, text=t, metadata=m)] where [m] is the mapping at
[l]: the node refers to a fresh copy of it or to [l] itself. *)
Definition new_TextNode (st : store) (i t : str) (l : loc)
: store * TextNode :=
if metadata_copied_on_construction
then (st ++ [deref st l], MkTextNode i t (length st) [] [])
else (st, MkTextNode i t l [] []).

(** The nodes a parser returns enter the store with their own
mappings. *)
Fixpoint adopt (st : store) (ps : list ParsedNode)
: store * list TextNode :=
match ps with
| [] => (st, [])
| p :: ps' =>
  let '(st', ns) := adopt (st ++ [parsed_metadata p]) ps' in
  (st', MkTextNode (parsed_id p) (parsed_text p) (length st) [] [] :: ns)
end.

(** [if doc_key not in doc_cnt_map: doc_cnt_map[doc_key] = 0] followed
by [doc_cnt_map[doc_key] += 1] *)
Definition count_doc (doc_cnt_map : gmap str nat) (doc_key : str)
: gmap str nat :=
let m :=
match doc_cnt_map !! doc_key with
| None => <[doc_key := 0]> doc_cnt_map
| Some _ => doc_cnt_map
end in
<[doc_key := default 0 (m !! doc_key) + 1]> m.

(** The loop [for doc in docs] of [_get_nodes].  Each document comes
with the location of its metadata mapping; nothing writes to a
mapping during this loop, so the document's metadata is read from
the document itself. *)
Fixpoint chunk_docs (docs : list (Document * loc))
(doc_cnt_map : gmap str nat) (st : store) (nodes : list TextNode)
: result (store * list TextNode) :=
match docs with
| [] => Ok (st, nodes)
| (doc, l) :: docs' =>
  let doc_type := _extract_file_type (doc_metadata doc) in
  if bool_decide (doc_type ∈ DOC_TYPES_DO_NOT_NEED_CHUNKING) then
    let doc_key := default (lit "dummy") (doc_metadata doc !! lit "file_path") in
    let doc_cnt_map := count_doc doc_cnt_map doc_key in
    let node_id := node_id_hash (default 0 (doc_cnt_map !! doc_key)) doc in
    let '(st', node) := new_TextNode st node_id (doc_text doc) l in
    chunk_docs docs' doc_cnt_map st' (nodes ++ [node])
  else
    match
      (if bool_decide (doc_type = lit ".md")
       then md_get_nodes doc else default_get_nodes doc)
    with
    | Raise e => Raise e
    | Ok ps =>
        let '(st', ns) := adopt st ps in
        chunk_docs docs' doc_cnt_map st' (nodes ++ ns)
    end
end.

(** The documents of the reader enter the store, one mapping each. *)
Definition with_locations (docs : list Document) : list (Document * loc) :=
imap (fun i doc => (doc, i)) docs.

(** ** Vocabulary for the properties of the chunking loop *)

(** The document's file type is one of the types that are not chunked. *)
Definition needs_no_chunking (doc : Document) : bool :=
bool_decide (_extract_file_type (doc_metadata doc)
             ∈ DOC_TYPES_DO_NOT_NEED_CHUNKING).

(** [f"{doc.metadata.get('file_path', 'dummy')}"]: the source a document
is counted under. *)
Definition doc_key (doc : Document) : str :=
default (lit "dummy") (doc_metadata doc !! lit "file_path").

(** The per-source ordinal position of [doc] when it follows the
documents [before]: one more than the number of unchunked documents
of the same source among them. *)
Definition ordinal (before : list Document) (doc : Document) : nat :=
S (Index.count
   (fun d => needs_no_chunking d && bool_decide (doc_key d = doc_key doc))
   before).

(** The counters once the documents [docs] have gone through the
loop. *)
Definition counts_after (doc_cnt_map : gmap str nat) (docs : list Document)
: gmap str nat :=
fold_left
(fun m doc => if needs_no_chunking doc then count_doc m (doc_key doc) else m)
docs doc_cnt_map.

(** The node-building loop of [_get_nodes] on the documents [docs] as
the reader returned them. *)
Definition build (docs : list Document) : result (store * list TextNode) :=
chunk_docs (with_locations docs) ∅ (map doc_metadata docs) [].

(** The same loop stopped after the first [n] documents. *)
Definition build_first (n : nat) (docs : list Document)
: result (store * list TextNode) :=
chunk_docs (take n (with_locations docs)) ∅ (map doc_metadata docs) [].

(** [metadata["answer"] = a] on the mapping at [l] *)
Definition set_answer (st : store) (l : loc) (a : str) : store :=
<[l := <[lit "answer" := a]> (deref st l)]> st.

(** The loop [for q, a in qa_extraction_result.items()] for one node. *)
Fixpoint qa_items (node : TextNode) (items : list (str * str))
(q_cnt : nat) (st : store) (qa_nodes : list TextNode)
: store * list TextNode :=
match items with
| [] => (st, qa_nodes)
| (q, a) :: items' =>
  let st1 := set_answer st (metadata node) a in
  let '(st2, qa) :=
    new_TextNode st1 (id_ node ++ lit "_" ++ str_of_nat q_cnt) q
                 (metadata node) in
  qa_items node items' (S q_cnt) st2 (qa_nodes ++ [qa])
end.

(** The loop [for i, node in enumerate(nodes)] for one extractor;
[metadata_list[i]] raises when the answer is too short. *)
Fixpoint qa_nodes_of (metadata_list : list qa_entry) (i : nat)
(nodes : list TextNode) (st : store) (qa_nodes : list TextNode)
: result (store * list TextNode) :=
match nodes with
| [] => Ok (st, qa_nodes)
| node :: rest =>
  match metadata_list !! i with
  | None => Raise (Exc IndexError (lit "list index out of range") None)
  | Some entry =>
      let '(st', qa_nodes') :=
        qa_items node (default [] entry) 0 st qa_nodes in
      qa_nodes_of metadata_list (S i) rest st' qa_nodes'
  end
end.

(** [self.extractors = [html_extractor, txt_extractor]] *)
Definition extractors
: list (store -> list TextNode -> result (list qa_entry)) :=
[html_extract; txt_extract].

(** The loop [for extractor in self.extractors]. *)
Fixpoint run_extractors
(es : list (store -> list TextNode -> result (list qa_entry)))
(nodes : list TextNode) (st : store) (qa_nodes : list TextNode)
: result (store * list TextNode) :=
match es with
| [] => Ok (st, qa_nodes)
| extract :: es' =>
  match extract st nodes with
  | Raise e => Raise e
  | Ok metadata_list =>
      match qa_nodes_of metadata_list 0 nodes st qa_nodes with
      | Raise e => Raise e
      | Ok (st', qa_nodes') => run_extractors es' nodes st' qa_nodes'
      end
  end
end.

(** The loop [for node in qa_nodes] appending to the exclusion lists. *)
Definition exclude_qa_keys (node : TextNode) : TextNode :=
MkTextNode (id_ node) (text node) (metadata node)
         (excluded_embed_metadata_keys node ++ [lit "answer"])
         (excluded_llm_metadata_keys node ++ [lit "question"]).

(** [RagDataLoader._get_nodes]: [Ok None] is the bare [return] on an
empty file list; otherwise the nodes and the store they refer
to. *)
Definition _get_nodes (file_path : PathArg) (filter_pattern : option str)
(enable_qa_extraction : bool)
: result (option (list TextNode * store)) :=
let files := input_files file_path filter_pattern in
if bool_decide (length files = 0) then Ok None
else
match load_data files with
| Raise e => Raise e
| Ok docs =>
    match build docs with
    | Raise e => Raise e
    | Ok (st, nodes) =>
        if enable_qa_extraction then
          match run_extractors extractors nodes st [] with
          | Raise e => Raise e
          | Ok (st', qa_nodes) =>
              Ok (Some (nodes ++ map exclude_qa_keys qa_nodes, st'))
          end
        else Ok (Some (nodes, st))
    end
end.

(** [not nodes] on what [_get_nodes] returned. *)
Definition no_nodes (r : option (list TextNode * store)) : bool :=
match r with
| None | Some ([], _) => true
| Some (_ :: _, _) => false
end.

Definition nodes_of (r : option (list TextNode * store)) : list TextNode :=
match r with
| None => []
| Some (nodes, _) => nodes
end.

Abbreviation Event := (Index.Event TextNode).

(** What [load] and [aload] do once the nodes are in the vector index:
persist the storage context, then update the keyword index and
rewrite [index.metadata] when a keyword index is configured. *)
Definition persist_and_sync (nodes : list TextNode)
: list Event * result unit :=
match storage_persist with
| Raise e => ([Index.EvPersist], Raise e)
| Ok _ =>
  if bm25_index then
    match bm25_add_docs nodes with
    | Raise e => ([Index.EvPersist; Index.EvBm25AddDocs nodes], Raise e)
    | Ok _ =>
        ([Index.EvPersist; Index.EvBm25AddDocs nodes;
          Index.EvWriteIndexMetadata], Ok tt)
    end
  else ([Index.EvPersist], Ok tt)
end.

(** [RagDataLoader.load] *)
Definition load (file_path : PathArg) (filter_pattern : option str)
(enable_qa_extraction : bool) : list Event * result unit :=
match _get_nodes file_path filter_pattern enable_qa_extraction with
| Raise e => ([], Raise e)
| Ok r =>
  if no_nodes r then ([], Ok tt)
  else
    match insert_nodes (nodes_of r) with
    | Raise e => ([Index.EvInsertNodes (nodes_of r)], Raise e)
    | Ok _ =>
        let '(ev, out) := persist_and_sync (nodes_of r) in
        (Index.EvInsertNodes (nodes_of r) :: ev, out)
    end
end.

Context `{B : Index.Backend TextNode}.

(** [RagDataLoader.aload]: the events of one call and how it ends. *)
Inductive aload (file_path : PathArg) (filter_pattern : option str)
(enable_qa_extraction : bool) : list Event -> result unit -> Prop :=
| aload_get_nodes_raises e :
_get_nodes file_path filter_pattern enable_qa_extraction = Raise e ->
aload file_path filter_pattern enable_qa_extraction [] (Raise e)
| aload_nothing r :
_get_nodes file_path filter_pattern enable_qa_extraction = Ok r ->
no_nodes r = true ->
aload file_path filter_pattern enable_qa_extraction [] (Ok tt)
| aload_insert_raises r ev e :
_get_nodes file_path filter_pattern enable_qa_extraction = Ok r ->
no_nodes r = false ->
Index.insert_nodes_async (nodes_of r) ev (Raise e) ->
aload file_path filter_pattern enable_qa_extraction ev (Raise e)
| aload_inserted r ev ev' out :
_get_nodes file_path filter_pattern enable_qa_extraction = Ok r ->
no_nodes r = false ->
Index.insert_nodes_async (nodes_of r) ev (Ok tt) ->
persist_and_sync (nodes_of r) = (ev', out) ->
aload file_path filter_pattern enable_qa_extraction (ev ++ ev') out.

End Loader.

End DataLoader.

(* ===================================================================== *)
(** * Concrete worlds used in the examples *)
(* ===================================================================== *)

Module Scenario.

(** A world for the service in which configuration snapshots are numbers
  (a snapshot's dictionary is the number itself), the configuration
  file's modification time reads as [mtime], the persisted snapshot as
  [snapshot], [aload_knowledge] ends as [ingest] and every query as
  [answer]. *)
Definition awaiting_world (mtime : result nat) (snapshot : result nat)
  (ingest : awaited unit) (answer : awaited str) : Service.Collaborators :=
{| Service.Config := nat;
   Service.Dict := nat;
   Service.Mtime := nat;
   Service.Patch := nat;
   Service.RagQuery := unit;
   Service.LlmQuery := unit;
   Service.RetrievalQuery := unit;
   Service.Response := str;
   Service.to_dict := fun c => c;
   Service.get_config_mtime := fun _ => mtime;
   Service.from_file := fun _ => Ok 0;
   Service.from_snapshot := snapshot;
   Service.truthy := fun p => negb (p =? 0);
   Service.update := fun c p => Ok (c + p);
   Service.persist := fun _ => Ok tt;
   Service.rag_initialize := fun _ => Ok tt;
   Service.rag_reload := fun _ => Ok tt;
   Service.rag_aload_knowledge := fun _ _ _ _ => ingest;
   Service.rag_aquery := fun _ => answer;
   Service.rag_aquery_llm := fun _ => answer;
   Service.rag_aquery_retrieval := fun _ => answer;
   Service.rag_aquery_agent := fun _ => answer |}.

(** The same world when no awaited call is interrupted and every query
  is answered. *)
Definition service_world (mtime : result nat) (snapshot : result nat)
  (ingest : result unit) : Service.Collaborators :=
awaiting_world mtime snapshot (Returned ingest)
               (Returned (Ok (lit "response"))).

Definition task1 : str := lit "7f3a".

(** The configuration file cannot be read. *)
Definition unreadable : exc :=
Exc OtherError (lit "config file is gone") None.



(** The configuration file is as last seen (modification time [1]). *)
Definition working_world : Service.Collaborators :=
service_world (Ok 1) (Ok 0) (Ok tt).



(** The configuration file was rewritten with the same content. *)
Definition rewritten_world : Service.Collaborators :=
service_world (Ok 2) (Ok 0) (Ok tt).

(** Reading the configuration's modification time fails. *)
Definition broken_world : Service.Collaborators :=
service_world (Raise unreadable) (Ok 0) (Ok tt).


(** The configuration file was rewritten and the persisted snapshot
  cannot be read. *)
Definition stale_snapshot : exc :=
Exc OtherError (lit "snapshot is gone") None.

Definition stale_world : Service.Collaborators :=
service_world (Ok 2) (Raise stale_snapshot) (Ok tt).

(** The service as [initialize] leaves it in these worlds when there is
  no status file: snapshot [0], modification time [1], no call
  recorded yet. *)
Definition fresh (w : Service.Collaborators)
  (cfg : @Service.Config w) (t : @Service.Mtime w) : @Service.State w :=
@Service.MkState w cfg (@Service.to_dict w cfg) t None [].

(** The same service once task [7f3a] has completed. *)
Definition served (w : Service.Collaborators)
  (cfg : @Service.Config w) (t : @Service.Mtime w) : @Service.State w :=
@Service.MkState w cfg (@Service.to_dict w cfg) t
                 (Some (Service.completed_line task1)) [].

Definition fresh_working := fresh working_world 0 1.
Definition fresh_rewritten := fresh rewritten_world 0 1.
Definition served_working := served working_world 0 1.
Definition served_broken := served broken_world 0 1.
Definition served_stale := served stale_world 0 1.

(** ** Worlds for the loader *)

(** The answer of the text extractor: the same two pairs for every
  node. *)
Definition two_pairs (st : list (gmap str str))
  (nodes : list DataLoader.TextNode) : result (list DataLoader.qa_entry) :=
Ok (map (fun _ => Some [(lit "Q1", lit "A1"); (lit "Q2", lit "A2")]) nodes).

Definition no_pairs (st : list (gmap str str))
  (nodes : list DataLoader.TextNode) : result (list DataLoader.qa_entry) :=
Ok (map (fun _ => None) nodes).

(** Every path is a file; the reader returns one document per file, named
  after it; the default parser makes one node of a document; only the
  text extractor finds question/answer pairs.  [copied] says whether a
  node keeps a copy of the metadata mapping it is built with. *)
Definition loader_world (copied : bool) : DataLoader.Collaborators :=
{| DataLoader.isfile := fun _ => true;
   DataLoader.isdir := fun _ => false;
   DataLoader.rglob := fun _ _ => [];
   DataLoader.load_data := fun files =>
     Ok (map (fun f =>
                DataLoader.MkDocument (lit "text of " ++ f)
                  (<[lit "file_name" := f]> (<[lit "file_path" := f]> ∅)))
             files);
   DataLoader.id_digest := fun i _ m =>
     default (lit "dummy") (m !! lit "file_path") ++ lit "#" ++ str_of_nat i;
   DataLoader.md_get_nodes := fun doc =>
     Ok [DataLoader.MkParsedNode (lit "md") (DataLoader.doc_text doc)
                                 (DataLoader.doc_metadata doc)];
   DataLoader.default_get_nodes := fun doc =>
     Ok [DataLoader.MkParsedNode (lit "n0") (DataLoader.doc_text doc)
                                 (DataLoader.doc_metadata doc)];
   DataLoader.html_extract := no_pairs;
   DataLoader.txt_extract := two_pairs;
   DataLoader.metadata_copied_on_construction := copied;
   DataLoader.bm25_index := true;
   DataLoader.insert_nodes := fun _ => Ok tt;
   DataLoader.storage_persist := Ok tt;
   DataLoader.bm25_add_docs := fun _ => Ok tt |}.

(** A vector store that keeps the text; embedding leaves the batch as it
  is. *)
Definition backend : Index.Backend DataLoader.TextNode :=
{| Index.get_node_with_embedding := fun batch => Ok batch;
   Index.stores_text := true;
   Index.store_nodes_override := false |}.

(** One text file, with question/answer extraction. *)
Definition one_text_file (copied : bool)
: result (option (list DataLoader.TextNode * list (gmap str str))) :=
DataLoader._get_nodes (C := loader_world copied)
  (DataLoader.PathStr (lit "a.txt")) None true.

(** The answer found in the metadata of the [i]-th node of a result. *)
Definition answer_of
  (r : result (option (list DataLoader.TextNode * list (gmap str str))))
  (i : nat) : option str :=
match r with
| Ok (Some (nodes, st)) =>
    match nodes !! i with
    | Some node =>
        DataLoader.deref st (DataLoader.metadata node) !! lit "answer"
    | None => None
    end
| _ => None
end.

Definition id_text_of
  (r : result (option (list DataLoader.TextNode * list (gmap str str))))
  (i : nat) : option (str * str) :=
match r with
| Ok (Some (nodes, st)) =>
    match nodes !! i with
    | Some node => Some (DataLoader.id_ node, DataLoader.text node)
    | None => None
    end
| _ => None
end.

(** Twenty-five spreadsheet files. *)
Definition sheets : DataLoader.PathArg :=
DataLoader.PathList (replicate 25 (lit "t.csv")).

Definition sheet_result
: option (list DataLoader.TextNode * list (gmap str str)) :=
match DataLoader._get_nodes (C := loader_world true) sheets None false with
| Ok r => r
| Raise _ => None
end.

(** The events of an insert whose nodes make one batch, when that batch
  is inserted at once; the keyword-index synchronisation that follows the
  persisting; the gather over that batch while its [async_add] is
  awaited. *)
Definition one_batch_insertion (nodes : list DataLoader.TextNode)
: list (Index.Event DataLoader.TextNode) :=
[Index.EvEmbed 0; Index.EvAsyncAdd 0 nodes; Index.EvAdded 0;
 Index.EvAddIndexStruct].

Definition keyword_sync (nodes : list DataLoader.TextNode)
: list (Index.Event DataLoader.TextNode) :=
[Index.EvBm25AddDocs nodes; Index.EvWriteIndexMetadata].

Definition one_batch_in_flight (nodes : list DataLoader.TextNode)
: Index.gstate DataLoader.TextNode :=
Index.MkG 9 [Index.InFlight] [Index.EvAsyncAdd 0 nodes].

(** A spreadsheet document, and two reader outputs that hold it: after a
  text document, and first. *)
Definition sheet : DataLoader.Document :=
DataLoader.MkDocument (lit "rows")
  (<[lit "file_name" := lit "t.csv"]> (<[lit "file_path" := lit "t.csv"]> ∅)).

Definition note : DataLoader.Document :=
DataLoader.MkDocument (lit "words")
  (<[lit "file_name" := lit "n.txt"]> (<[lit "file_path" := lit "n.txt"]> ∅)).

Definition nodes_built (docs : list DataLoader.Document)
: list DataLoader.TextNode :=
match DataLoader.build (C := loader_world true) docs with
| Ok (_, nodes) => nodes
| Raise _ => []
end.

Definition store_built (docs : list DataLoader.Document)
: list (gmap str str) :=
match DataLoader.build (C := loader_world true) docs with
| Ok (st, _) => st
| Raise _ => []
end.

End Scenario.

(* ===================================================================== *)
(** * The status ledger as a sequence of records *)
(* ===================================================================== *)

Module Ledger.

Import Service.

(** What a status line says about its task. *)
Inductive outcome : Type :=
| Processing
| Completed
| FailedWith (detail : str).

(** The line [add_knowledge_async] writes for an outcome. *)
Definition line_of (task_id : str) (o : outcome) : str :=
match o with
| Processing => processing_line task_id
| Completed => completed_line task_id
| FailedWith detail => failed_line task_id detail
end.

(** The status file after the records [es] were appended to an empty
  file, oldest first. *)
Definition content (es : list (str * outcome)) : str :=
concat (map (fun e => line_of e.1 e.2) es).

(** What the lookup answers from a record. *)
Definition reply_of (o : outcome) : status_reply :=
match o with
| Processing => StatusDetail (lit "processing") None
| Completed => StatusDetail (lit "completed") None
| FailedWith detail => StatusDetail (lit "failed") (Some (rstrip detail))
end.

(** A detail as the sanitizer leaves it, with no carriage return and with
  something else than whitespace in it. *)
Definition clean_detail (detail : str) : Prop :=
(TAB ∉ detail) ∧ (LF ∉ detail) ∧ (CR ∉ detail) ∧ rstrip detail ≠ [].

(** A record whose identifier is a token of [n] characters. *)
Definition well_formed (n : nat) (e : str * outcome) : Prop :=
is_token e.1 = true
∧ length e.1 = n
∧ match e.2 with
  | FailedWith detail => clean_detail detail
  | _ => True
  end.

(** The answer of the lookup from what its loop found. *)
Definition to_reply (r : result (str * option str)) : result status_reply :=
match r with
| Ok (status, detail) => Ok (StatusDetail status detail)
| Raise e => Raise e
end.

(** The records of task [task_id], oldest first. *)
Definition records_of (task_id : str) (es : list (str * outcome))
: list (str * outcome) :=
List.filter (fun e => bool_decide (e.1 = task_id)) es.

End Ledger.

(* ===================================================================== *)
(** * The HTTP handlers that use the service: [app/api/query.py] *)
(* ===================================================================== *)

Module Api.

Import Service.

(** [status, detail = value]: unpacking into two targets.  A pair unpacks
  into its components; a string unpacks into its characters and raises
  [ValueError] (an [Exception] outside the classes the service tells
  apart) unless it has exactly two of them. *)
Definition unpack_two (value : status_reply) : result (str * option str) :=
match value with
| StatusDetail status detail => Ok (status, detail)
| StatusOnly status =>
    match status with
    | [a; b] => Ok ([a], Some [b])
    | [] | [_] =>
        Raise (Exc OtherError
                 (lit "not enough values to unpack (expected 2, got "
                    ++ str_of_nat (length status) ++ lit ")") None)
    | _ =>
        Raise (Exc OtherError (lit "too many values to unpack (expected 2)") None)
    end
end.

(** The body of the answer of [GET /get_upload_state]. *)
Record upload_state : Type := MkUploadState {
us_task_id : str;
us_status : str;
us_detail : option str;
}.

(** [task_status]: the handler of [GET /get_upload_state]. *)
Definition task_status `{C : Collaborators} (task_id : str) : M upload_state :=
fun s =>
  match get_task_status task_id s with
  | (Raise e, s') => (Raise e, s')
  | (Ok value, s') =>
      match unpack_two value with
      | Raise e => (Raise e, s')
      | Ok (status, detail) => (Ok (MkUploadState task_id status detail), s')
      end
  end.

(** [event_generator_async]: every token of the response stream is sent
  followed by the delimiter ["\0"]. *)
Definition NUL : ascii := ascii_of_nat 0.

Definition event_generator (tokens : list str) : list str :=
map (fun token => token ++ [NUL]) tokens.

(** What the client receives: the chunks one after the other. *)
Definition received (chunks : list str) : str := concat chunks.

End Api.

(* ===================================================================== *)
(** * Vocabulary for further properties of the service *)
(* ===================================================================== *)

Module ServiceVocabulary.

Import Service.

(** Calls that reach the application or rewrite the persisted snapshot. *)
Definition is_downstream `{C : Collaborators} (c : Call) : bool :=
match c with
| CallRagReload _ | CallPersist _ => true
| _ => false
end.

(** The text [s] begins with the text [p]. *)
Definition begins_with (p s : str) : Prop := ∃ rest, s = p ++ rest.

Section Reload.
Context `{C : Collaborators}.

(** The snapshot a reload compares with the cached dictionary: the
persisted one, patched when a patch is given and true. *)
Definition incoming (new_config : option Patch) : result Config :=
match from_snapshot with
| Raise e => Raise e
| Ok snap =>
  match new_config with
  | Some p => if truthy p then update snap p else Ok snap
  | None => Ok snap
  end
end.

(** The calls made to obtain it. *)
Definition incoming_calls (new_config : option Patch) : list Call :=
CallFromSnapshot ::
match from_snapshot, new_config with
| Ok _, Some p => if truthy p then [CallUpdate] else []
| _, _ => []
end.

(** The error a reload raises when something in it raised [e]. *)
Definition reload_error (e : exc) : exc :=
Exc UserInputError (lit "Update RAG configuration failed: " ++ exc_msg e) None.

(** State [s] after the further calls [cs]; and after the switch to the
snapshot [snap]. *)
Definition after_calls (s : State) (cs : list Call) : State :=
MkState (rag_configuration s) (config_dict_value s)
      (config_modified_time s) (task_status_file s) (calls s ++ cs).

Definition switched_to (snap : Config) (s : State) (cs : list Call) : State :=
MkState snap (to_dict snap)
      (config_modified_time s) (task_status_file s) (calls s ++ cs).

End Reload.

End ServiceVocabulary.

Module Scenario2.

Import Scenario.

(** The persisted snapshot [5] differs from the active snapshot [0]. *)
Definition changed_world : Service.Collaborators :=
service_world (Ok 2) (Ok 5) (Ok tt).

Definition fresh_changed := fresh changed_world 0 1.

(** The persisted snapshot cannot be read. *)
Definition lost_snapshot : exc :=
Exc OtherError (lit "snapshot is gone") None.

Definition lost_world : Service.Collaborators :=
service_world (Ok 2) (Raise lost_snapshot) (Ok tt).

Definition fresh_lost := fresh lost_world 0 1.

(** A ledger of three tasks with identifiers of four characters. *)
Definition three_tasks : list (str * Ledger.outcome) :=
[(lit "7f3a", Ledger.Processing);
 (lit "0b11", Ledger.Processing);
 (lit "7f3a", Ledger.FailedWith (lit "bad file: None"));
 (lit "0b11", Ledger.Completed);
 (lit "c2d9", Ledger.Processing)].

End Scenario2.

(* ===================================================================== *)
(** * Vocabulary for further properties of the index *)
(* ===================================================================== *)

Module IndexVocabulary.

Import Index.

Section Kinds.
Context {Node : Type}.

Definition is_embed (e : Event Node) : bool :=
match e with EvEmbed _ => true | _ => false end.

Definition is_registered (k : nat) (e : Event Node) : bool :=
match e with EvRegistered j => bool_decide (j = k) | _ => false end.

Definition is_index_struct (e : Event Node) : bool :=
match e with EvAddIndexStruct => true | _ => false end.

Definition is_add_failed (k : nat) (e : Event Node) : bool :=
match e with EvAddFailed j => bool_decide (j = k) | _ => false end.

Definition is_failure (e : Event Node) : bool :=
match e with EvAddFailed _ => true | _ => false end.

Definition is_registration_raised (k : nat) (e : Event Node) : bool :=
match e with
| EvRegistrationRaised j _ => bool_decide (j = k)
| _ => false
end.

Definition is_registration_failure (e : Event Node) : bool :=
match e with EvRegistrationRaised _ _ => true | _ => false end.

Definition is_waiting (t : task) : bool :=
match t with Waiting => true | _ => false end.

(** How often the registration loop of a batch has run to its end, and
how often it was left by an exception, for a coroutine in a given
state. *)
Definition expected_registered (t : option task) : nat :=
match t with
| Some Done => 1
| _ => 0
end.

Definition expected_broken (t : option task) : nat :=
match t with
| Some (Broken _) => 1
| _ => 0
end.

(** How many failed [async_add] calls the trace must hold for a batch
whose coroutine is in a given state. *)
Definition expected_failed (t : option task) : nat :=
match t with
| Some (Failed _) => 1
| _ => 0
end.

(** The events between the start of a gather and its state [s] count as
many steps as there are calls issued and calls ended. *)
Definition steps_taken (s : gstate Node) : nat :=
count is_issue (trace s) + count is_finish (trace s).

(** The embedding events of the batches [k], [k+1], ..., [k+m-1]. *)
Definition embeddings (k m : nat) : list (Event Node) :=
map EvEmbed (seq k m).

(** Whether the nodes of a completed batch are registered in the index
structure and the document store. *)
Definition registers `{B : Backend Node} : bool :=
negb stores_text || store_nodes_override.

End Kinds.

End IndexVocabulary.

(* ===================================================================== *)
(** * Vocabulary for further properties of the loader *)
(* ===================================================================== *)

Module LoaderVocabulary.

Import DataLoader.

(** An extractor's answer for [nodes] that has an entry for every node
  and no question/answer pair in any of them. *)
Definition finds_nothing
  (extract : store -> list TextNode -> result (list qa_entry))
  (st : store) (nodes : list TextNode) : Prop :=
exists metadata_list,
  extract st nodes = Ok metadata_list
  /\ length nodes <= length metadata_list
  /\ Forall (fun entry => default [] entry = []) metadata_list.

(** [f"{node.id_}_{q_cnt}"] *)
Definition qa_id (node : TextNode) (q_cnt : nat) : str :=
id_ node ++ lit "_" ++ str_of_nat q_cnt.

(** A node as the constructor leaves it: nothing excluded. *)
Definition excludes_nothing (node : TextNode) : Prop :=
excluded_embed_metadata_keys node = []
/\ excluded_llm_metadata_keys node = [].

(** A question/answer node as [_get_nodes] returns it. *)
Definition excludes_qa_keys (node : TextNode) : Prop :=
excluded_embed_metadata_keys node = [lit "answer"]
/\ excluded_llm_metadata_keys node = [lit "question"].

(** The events of a load or an insert in the order they can happen once
  the nodes are in the vector index. *)
Definition after_insertion (nodes : list TextNode)
: list (Index.Event TextNode) :=
[Index.EvPersist; Index.EvBm25AddDocs nodes; Index.EvWriteIndexMetadata].

(** The exception of [metadata_list[i]] beyond the end of the list. *)
Definition index_error : exc :=
Exc IndexError (lit "list index out of range") None.

(** [s] ends with [e]. *)
Definition ends_with (s e : str) : Prop := exists stem, s = stem ++ e.

End LoaderVocabulary.

(* ===================================================================== *)
(** * Loading an evaluation dataset *)
(* ===================================================================== *)

Module EvalData.

Import DataLoader.

(** One entry of the corpus that [load_related_corpus] returns:
  [node[0]] to [node[3]]. *)
Record row : Type := MkRow {
row_id : str;
row_text : str;
row_title : str;
row_path : str;
}.

(** [{"title": node[2], "file_path": node[3], "file_name": node[3]}] *)
Definition node_metadata (r : row) : dict :=
<[lit "file_name" := row_path r]>
  (<[lit "file_path" := row_path r]> (<[lit "title" := row_title r]> ∅)).

(** The loop [for node in miracl_nodes]: every node is built with a
  mapping of its own, so one mapping per node is reachable. *)
Definition eval_nodes (rows : list row) : list TextNode :=
imap (fun i r => MkTextNode (row_id r) (row_text r) i [] []) rows.

Definition eval_store (rows : list row) : store := map node_metadata rows.

(** How a call ends: by the [ValueError] of the last line, or as the
  steps shared with [aload] end. *)
Inductive outcome : Type :=
| ValueError (msg : str)
| Ended (r : result unit).

Definition MIRACL : str := lit "miracl".

Section Eval.
Context `{C : Collaborators} `{B : Index.Backend TextNode}.

(** [RagDataLoader.aload_eval_data]; [corpus] is what
[MiraclOpenDataSet().load_related_corpus()] gives. *)
Inductive aload_eval_data (name : str) (corpus : result (list row))
: list (Index.Event TextNode) -> outcome -> Prop :=
| eval_not_supported :
name <> MIRACL ->
aload_eval_data name corpus []
  (ValueError (lit "Not supported eval dataset name with " ++ name))
| eval_corpus_raises e :
name = MIRACL ->
corpus = Raise e ->
aload_eval_data name corpus [] (Ended (Raise e))
| eval_insert_raises rows ev e :
name = MIRACL ->
corpus = Ok rows ->
Index.insert_nodes_async (eval_nodes rows) ev (Raise e) ->
aload_eval_data name corpus ev (Ended (Raise e))
| eval_inserted rows ev ev' out :
name = MIRACL ->
corpus = Ok rows ->
Index.insert_nodes_async (eval_nodes rows) ev (Ok tt) ->
persist_and_sync (eval_nodes rows) = (ev', out) ->
aload_eval_data name corpus (ev ++ ev') (Ended out).

End Eval.

End EvalData.

(* ===================================================================== *)
(** * Further worlds for the examples *)
(* ===================================================================== *)

Module Scenario3.

Import Scenario.

(** A vector store that keeps no text, so that the nodes of a batch are
  registered in the index structure and the document store. *)
Definition docstore_backend : Index.Backend DataLoader.TextNode :=
{| Index.get_node_with_embedding := fun batch => Ok batch;
   Index.stores_text := false;
   Index.store_nodes_override := false |}.

(** An embedding model that cannot be reached. *)
Definition embedding_failure : exc :=
Exc OtherError (lit "embedding service unavailable") None.

Definition unembeddable_backend : Index.Backend DataLoader.TextNode :=
{| Index.get_node_with_embedding := fun batch => Raise embedding_failure;
   Index.stores_text := true;
   Index.store_nodes_override := false |}.

(** The gather over one batch once its [async_add] has returned, with
  and without registration. *)
Definition one_batch_done (nodes : list DataLoader.TextNode)
: Index.gstate DataLoader.TextNode :=
Index.MkG 10 [Index.Done] [Index.EvAsyncAdd 0 nodes; Index.EvAdded 0].

Definition one_batch_registered (nodes : list DataLoader.TextNode)
: Index.gstate DataLoader.TextNode :=
Index.MkG 10 [Index.Done]
          [Index.EvAsyncAdd 0 nodes; Index.EvAdded 0; Index.EvRegistered 0].

(** The world of the loader examples with other extractors. *)
Definition extracting_world
  (html txt : list (gmap str str) -> list DataLoader.TextNode
              -> result (list DataLoader.qa_entry))
: DataLoader.Collaborators :=
{| DataLoader.isfile := fun _ => true;
   DataLoader.isdir := fun _ => false;
   DataLoader.rglob := fun _ _ => [];
   DataLoader.load_data := fun files =>
     Ok (map (fun f =>
                DataLoader.MkDocument (lit "text of " ++ f)
                  (<[lit "file_name" := f]> (<[lit "file_path" := f]> ∅)))
             files);
   DataLoader.id_digest := fun i _ m =>
     default (lit "dummy") (m !! lit "file_path") ++ lit "#" ++ str_of_nat i;
   DataLoader.md_get_nodes := fun doc =>
     Ok [DataLoader.MkParsedNode (lit "md") (DataLoader.doc_text doc)
                                 (DataLoader.doc_metadata doc)];
   DataLoader.default_get_nodes := fun doc =>
     Ok [DataLoader.MkParsedNode (lit "n0") (DataLoader.doc_text doc)
                                 (DataLoader.doc_metadata doc)];
   DataLoader.html_extract := html;
   DataLoader.txt_extract := txt;
   DataLoader.metadata_copied_on_construction := true;
   DataLoader.bm25_index := true;
   DataLoader.insert_nodes := fun _ => Ok tt;
   DataLoader.storage_persist := Ok tt;
   DataLoader.bm25_add_docs := fun _ => Ok tt |}.

(** An extractor whose answer is empty whatever the nodes. *)
Definition no_entries (st : list (gmap str str))
  (nodes : list DataLoader.TextNode) : result (list DataLoader.qa_entry) :=
Ok [].

Definition quiet_world : DataLoader.Collaborators :=
extracting_world no_pairs no_pairs.

Definition short_world : DataLoader.Collaborators :=
extracting_world no_entries two_pairs.

Definition doubling_world : DataLoader.Collaborators :=
extracting_world two_pairs two_pairs.

Definition text_file : DataLoader.PathArg := DataLoader.PathStr (lit "a.txt").

(** The document the reader of these worlds returns for [a.txt]. *)
Definition text_doc : DataLoader.Document :=
DataLoader.MkDocument (lit "text of a.txt")
  (<[lit "file_name" := lit "a.txt"]> (<[lit "file_path" := lit "a.txt"]> ∅)).

(** What the node-building loop of a world makes of some documents. *)
Definition nodes_built_in (w : DataLoader.Collaborators)
  (docs : list DataLoader.Document) : list DataLoader.TextNode :=
match DataLoader.build (C := w) docs with
| Ok (_, nodes) => nodes
| Raise _ => []
end.

Definition store_built_in (w : DataLoader.Collaborators)
  (docs : list DataLoader.Document) : list (gmap str str) :=
match DataLoader.build (C := w) docs with
| Ok (st, _) => st
| Raise _ => []
end.

(** A node with one metadata mapping, and two pairs found for it. *)
Definition parent : DataLoader.TextNode :=
DataLoader.MkTextNode (lit "n0") (lit "text") 0 [] [].

Definition parent_store : list (gmap str str) :=
[<[lit "file_name" := lit "a.txt"]> ∅].

Definition two_items : list (str * str) :=
[(lit "Q1", lit "A1"); (lit "Q2", lit "A2")].

Definition two_items_each : list DataLoader.qa_entry := [Some two_items].

(** What the extractors of a world add for the node [parent]. *)
Definition qa_nodes_in (w : DataLoader.Collaborators)
: list DataLoader.TextNode :=
match DataLoader.run_extractors (C := w) (DataLoader.extractors (C := w))
        [parent] parent_store [] with
| Ok (_, qa_nodes) => qa_nodes
| Raise _ => []
end.

Definition qa_store_in (w : DataLoader.Collaborators)
: list (gmap str str) :=
match DataLoader.run_extractors (C := w) (DataLoader.extractors (C := w))
        [parent] parent_store [] with
| Ok (st, _) => st
| Raise _ => []
end.

(** The nodes and the store of a result of [_get_nodes]. *)
Definition all_nodes
  (r : result (option (list DataLoader.TextNode * list (gmap str str))))
: list DataLoader.TextNode :=
match r with
| Ok (Some (nodes, _)) => nodes
| _ => []
end.

Definition final_store
  (r : result (option (list DataLoader.TextNode * list (gmap str str))))
: list (gmap str str) :=
match r with
| Ok (Some (_, st)) => st
| _ => []
end.

Definition has_nodes
  (r : result (option (list DataLoader.TextNode * list (gmap str str))))
: bool :=
match r with
| Ok (Some _) => true
| _ => false
end.

(** A corpus of two passages. *)
Definition two_rows : list EvalData.row :=
[EvalData.MkRow (lit "p1") (lit "first passage") (lit "T1") (lit "doc1");
 EvalData.MkRow (lit "p2") (lit "second passage") (lit "T2") (lit "doc2")].

End Scenario3.

(* ===================================================================== *)
(** * Facts about the string primitives *)
(* ===================================================================== *)

Module PyFacts.




(** ** Universal newlines *)

Lemma universal_newlines_id (s : str) :
  CR ∉ s → universal_newlines s = s.
Proof.
  induction s as [|c s IH]; [done|].
  intros Hnot. apply not_elem_of_cons in Hnot as [Hc Hs].
  simpl. unfold ch_eqb. case_bool_decide; [congruence|].
  by rewrite IH.
Qed.

Lemma universal_newlines_other (c : ascii) (s : str) :
  c ≠ CR → universal_newlines (c :: s) = c :: universal_newlines s.
Proof. intros H. simpl. unfold ch_eqb. by rewrite bool_decide_eq_false_2. Qed.

Lemma universal_newlines_crlf (s : str) :
  universal_newlines (CR :: LF :: s) = LF :: universal_newlines s.
Proof. reflexivity. Qed.

Lemma universal_newlines_cr (d : ascii) (s : str) :
  d ≠ LF →
  universal_newlines (CR :: d :: s) = LF :: universal_newlines (d :: s).
Proof.
  intros H. change (universal_newlines (CR :: d :: s))
    with (LF :: if ch_eqb d LF then universal_newlines s
                else universal_newlines (d :: s)).
  unfold ch_eqb. by rewrite bool_decide_eq_false_2.
Qed.

Lemma universal_newlines_app (a b : str) :
  last a ≠ Some CR →
  universal_newlines (a ++ b) = universal_newlines a ++ universal_newlines b.
Proof.
  remember (length a) as n eqn:Hn. revert a Hn.
  induction n as [n IH] using lt_wf_ind. intros a Hn Hlast.
  destruct a as [|c a]; [done|].
  destruct (decide (c = CR)) as [->|Hc].
  - destruct a as [|d a]; [done|].
    rewrite last_cons_cons in Hlast.
    destruct (decide (d = LF)) as [->|Hd].
    + rewrite <- !app_comm_cons, !universal_newlines_crlf.
      rewrite <- app_comm_cons. f_equal.
      apply (IH (length a)); [simpl in Hn; lia|done|].
      destruct a; [done|]. by rewrite last_cons_cons in Hlast.
    + rewrite <- !app_comm_cons, !universal_newlines_cr by done.
      rewrite <- app_comm_cons. f_equal. rewrite app_comm_cons.
      apply (IH (length (d :: a))); [simpl in *; lia|done|done].
  - rewrite <- app_comm_cons, !universal_newlines_other by done.
    rewrite <- app_comm_cons. f_equal.
    apply (IH (length a)); [simpl in Hn; lia|done|].
    destruct a; [done|]. by rewrite last_cons_cons in Hlast.
Qed.

(** ** Lines *)

Lemma keepends_app_newline (a b : str) :
  keepends (a ++ LF :: b) = keepends (a ++ [LF]) ++ keepends b.
Proof.
  induction a as [|c a IH]; simpl.
  - done.
  - unfold ch_eqb in *. case_bool_decide.
    + by rewrite IH.
    + rewrite IH. destruct (keepends (a ++ [LF])) eqn:E; [|done].
      exfalso. clear -E. induction a as [|d a IHa]; simpl in E.
      * done.
      * unfold ch_eqb in E. case_bool_decide; [done|].
        destruct (keepends (a ++ [LF])); [by apply IHa|done].
Qed.

Lemma keepends_one_line (l : str) :
  LF ∉ l → keepends (l ++ [LF]) = [l ++ [LF]].
Proof.
  induction l as [|c l IH]; [done|].
  intros Hnot. apply not_elem_of_cons in Hnot as [Hc Hl].
  simpl. unfold ch_eqb. case_bool_decide; [congruence|].
  by rewrite IH.
Qed.

(** The last line of a text that ends with a complete line. *)
Lemma readlines_last_line (pre l : str) :
  last pre ≠ Some CR → CR ∉ l → LF ∉ l →
  readlines (pre ++ LF :: l ++ [LF])
  = readlines (pre ++ [LF]) ++ [l ++ [LF]].
Proof.
  intros Hpre Hcr Hlf. unfold readlines.
  rewrite (universal_newlines_app pre), (universal_newlines_app pre) by done.
  assert (CR ≠ LF) as Hne by (by compute).
  rewrite (universal_newlines_id (LF :: l ++ [LF])).
  2:{ rewrite not_elem_of_cons, not_elem_of_app, list_elem_of_singleton. done. }
  rewrite (universal_newlines_id [LF]).
  2:{ rewrite list_elem_of_singleton. done. }
  rewrite keepends_app_newline. by rewrite (keepends_one_line l).
Qed.

(** ** Prefixes, stripping and splitting *)

Lemma startswith_app (p x : str) : startswith (p ++ x) p = true.
Proof.
  induction p as [|c p IH]; [by destruct x|].
  simpl. unfold ch_eqb. rewrite bool_decide_eq_true_2 by done. exact IH.
Qed.

Lemma lstrip_nonspace (c : ascii) (s : str) :
  isspace c = false → lstrip (c :: s) = c :: s.
Proof. intros H. simpl. by rewrite H. Qed.

Lemma lstrip_app (a b : str) :
  lstrip a ≠ [] → lstrip (a ++ b) = lstrip a ++ b.
Proof.
  induction a as [|c a IH]; [done|].
  simpl. destruct (isspace c); [exact IH|done].
Qed.

Lemma lstrip_all_space (a b : str) :
  forallb isspace a = true → lstrip (a ++ b) = lstrip b.
Proof.
  induction a as [|c a IH]; [done|].
  simpl. intros [Hc Ha]%andb_prop. rewrite Hc. auto.
Qed.


Lemma lstrip_suffix (s : str) : ∃ t, s = t ++ lstrip s.
Proof.
  induction s as [|c s [t IH]]; [by exists []|].
  simpl. destruct (isspace c).
  - exists (c :: t). simpl. by f_equal.
  - by exists [].
Qed.

Lemma rstrip_app (a b : str) :
  rstrip b ≠ [] → rstrip (a ++ b) = a ++ rstrip b.
Proof.
  unfold rstrip. intros Hb.
  rewrite rev_app_distr, lstrip_app.
  - by rewrite rev_app_distr, rev_involutive.
  - intros E. apply Hb. by rewrite E.
Qed.

Lemma rstrip_space_end (b : str) (c : ascii) :
  isspace c = true → rstrip (b ++ [c]) = rstrip b.
Proof.
  intros Hc. unfold rstrip. rewrite rev_app_distr. simpl. by rewrite Hc.
Qed.


Lemma rstrip_prefix (s : str) : ∃ t, s = rstrip s ++ t.
Proof.
  unfold rstrip. destruct (lstrip_suffix (rev s)) as [t Ht].
  exists (rev t). rewrite <- rev_app_distr, <- Ht. by rewrite rev_involutive.
Qed.

Lemma rstrip_keeps_out (c : ascii) (s : str) : c ∉ s → c ∉ rstrip s.
Proof.
  intros Hs Hin. apply Hs. destruct (rstrip_prefix s) as [t Ht].
  rewrite Ht. apply elem_of_app. by left.
Qed.

Lemma split_no_sep (sep : ascii) (a : str) :
  sep ∉ a → split sep a = [a].
Proof.
  induction a as [|c a IH]; [done|].
  intros Hnot. apply not_elem_of_cons in Hnot as [Hc Ha].
  simpl. unfold ch_eqb. case_bool_decide; [congruence|]. by rewrite IH.
Qed.

Lemma split_app_sep (sep : ascii) (a b : str) :
  sep ∉ a → split sep (a ++ sep :: b) = a :: split sep b.
Proof.
  induction a as [|c a IH]; simpl.
  - intros _. unfold ch_eqb. by rewrite bool_decide_eq_true_2.
  - intros Hnot. apply not_elem_of_cons in Hnot as [Hc Ha].
    unfold ch_eqb in *. case_bool_decide; [congruence|]. by rewrite IH.
Qed.

End PyFacts.

(* ===================================================================== *)
(** * Facts about the service façade *)
(* ===================================================================== *)

Module ServiceFacts.
Import Service PyFacts.

Ltac run :=
  unfold get_task_status, add_knowledge_async, get_config,
    aquery, aquery_llm, aquery_retrieval, aquery_agent, guarded_query,
    check_updates, reload, file_append,
    set_config_modified_time, set_rag_configuration, set_config_dict_value,
    mbind, M_bind, mret, M_ret, bind, ret, raise, try_except, call, get, logged,
    athen, abind, lift, await, try_except_await
    in *;
  simpl in *.

Definition COLON : ascii := ":"%char.

Ltac chars := compute; done.

Ltac flatten :=
  repeat (rewrite <- ?app_assoc, <- ?app_comm_cons; simpl).

Section ServiceLemmas.
Context `{C : Collaborators}.



(** How [check_updates] ends: its first call reads the modification
    time, it writes nothing to the status file. *)
Lemma check_updates_cases (s : State) :
  ∃ rest,
    calls (check_updates s).2 = calls s ++ CallGetConfigMtime :: rest
    ∧ file_appends rest = []
    ∧ task_status_file (check_updates s).2 = task_status_file s.
Proof.
  run.
  destruct (get_config_mtime (rag_configuration s)) as [t|e]; simpl.
  2:{ exists []. by rewrite <- ?app_assoc. }
  destruct (decide (config_modified_time s ≠ t)); simpl.
  2:{ exists []. done. }
  destruct from_snapshot as [snap|e]; simpl.
  2:{ exists [CallFromSnapshot]. by rewrite <- ?app_assoc. }
  destruct (decide (config_dict_value s ≠ to_dict snap)); simpl.
  2:{ exists [CallFromSnapshot]. by rewrite <- ?app_assoc. }
  destruct (rag_reload snap); simpl.
  2:{ exists [CallFromSnapshot; CallRagReload snap]. by rewrite <- ?app_assoc. }
  destruct (persist snap); simpl.
  all: exists [CallFromSnapshot; CallRagReload snap; CallPersist snap];
    by rewrite <- ?app_assoc.
Qed.

(** The freshness check calls nothing but the configuration. *)
Lemma check_updates_calls (s : State) :
  ∃ rest,
    calls (check_updates s).2 = calls s ++ CallGetConfigMtime :: rest
    ∧ Forall (λ c, is_check_call c = true) rest.
Proof.
  run.
  destruct (get_config_mtime (rag_configuration s)) as [t|e]; simpl.
  2:{ exists []. by rewrite <- ?app_assoc. }
  destruct (decide (config_modified_time s ≠ t)); simpl.
  2:{ exists []. done. }
  destruct from_snapshot as [snap|e]; simpl.
  2:{ exists [CallFromSnapshot]. rewrite <- ?app_assoc.
      split; [done|by repeat constructor]. }
  destruct (decide (config_dict_value s ≠ to_dict snap)); simpl.
  2:{ exists [CallFromSnapshot]. rewrite <- ?app_assoc.
      split; [done|by repeat constructor]. }
  destruct (rag_reload snap); simpl.
  2:{ exists [CallFromSnapshot; CallRagReload snap]. rewrite <- ?app_assoc.
      split; [done|by repeat constructor]. }
  destruct (persist snap); simpl.
  all: exists [CallFromSnapshot; CallRagReload snap; CallPersist snap];
    rewrite <- ?app_assoc; split; [done|by repeat constructor].
Qed.

(** The freshness check, step by step. *)
Lemma check_updates_steps (s : State) :
  check_updates s
  = match get_config_mtime (rag_configuration s) with
    | Raise e => (Raise e, logged CallGetConfigMtime s)
    | Ok t =>
        if decide (config_modified_time s = t)
        then (Ok tt, logged CallGetConfigMtime s)
        else match reload None (logged CallGetConfigMtime s) with
             | (Ok _, s2) => (Ok tt, seen t s2)
             | (Raise e, s2) => (Raise e, s2)
             end
    end.
Proof.
  unfold check_updates, mbind, M_bind, bind, get, call, ret,
    set_config_modified_time.
  destruct (get_config_mtime (rag_configuration s)) as [t|e]; [|done].
  destruct (decide (config_modified_time s ≠ t)) as [Hd|Hd].
  - rewrite decide_False by done.
    by destruct (reload None (logged CallGetConfigMtime s)) as [[[]|e] s2].
  - rewrite decide_True; [done|].
    by destruct (decide (config_modified_time s = t)).
Qed.

(** [reload] and [check_updates] keep the cached dictionary in step
    with the active snapshot. *)
Lemma reload_consistent (new_config : option Patch) (s : State) :
  consistent s → consistent (reload new_config s).2.
Proof.
  unfold consistent. intros Hs. run.
  destruct from_snapshot as [snap|e]; simpl; [|done].
  destruct new_config as [p|]; simpl.
  - destruct (truthy p); simpl.
    + destruct (update snap p) as [snap'|e]; simpl; [|done].
      destruct (decide _); simpl; [|done].
      destruct (rag_reload snap'); simpl; [|done]. by destruct (persist snap').
    + destruct (decide _); simpl; [|done].
      destruct (rag_reload snap); simpl; [|done]. by destruct (persist snap).
  - destruct (decide _); simpl; [|done].
    destruct (rag_reload snap); simpl; [|done]. by destruct (persist snap).
Qed.

Lemma check_updates_consistent (s : State) :
  consistent s → consistent (check_updates s).2.
Proof.
  intros Hs. unfold check_updates, mbind, M_bind, bind, get, call.
  destruct (get_config_mtime (rag_configuration s)) as [t|e]; [|done].
  destruct (decide _); [|done].
  pose proof (reload_consistent None (logged CallGetConfigMtime s) Hs) as Hr.
  destruct (reload None (logged CallGetConfigMtime s)) as [[[]|e] s']; done.
Qed.

(** [initialize] sets the service up consistently. *)
Lemma initialize_consistent (config_file : str) (file : option str) (s : State) :
  (initialize config_file file).1 = Ok s → consistent s.
Proof.
  unfold initialize.
  destruct (from_file config_file) as [cfg|]; [|done].
  destruct (get_config_mtime cfg); [|done].
  destruct (persist cfg); [|done].
  destruct (rag_initialize cfg); [|done].
  simpl. by intros [= <-].
Qed.

(** What an ingestion does once the freshness check has passed. *)
Lemma add_knowledge_async_after_check
    (s s1 : State) (task_id : str) (input_files : list str)
    (filter_pattern faiss_path : option str) (qa : bool) :
  check_updates s = (Ok tt, s1) →
  add_knowledge_async task_id input_files filter_pattern faiss_path qa s
  = match rag_aload_knowledge input_files filter_pattern faiss_path qa with
    | Returned (Ok _) =>
        (Returned (Ok tt),
         MkState (rag_configuration s1) (config_dict_value s1)
           (config_modified_time s1)
           (Some ((default [] (task_status_file s1) ++ processing_line task_id)
                    ++ completed_line task_id))
           (((calls s1 ++ [FileAppend (processing_line task_id)])
               ++ [CallAloadKnowledge])
              ++ [FileAppend (completed_line task_id)]))
    | Returned (Raise ex) =>
        (Returned
           (Raise (Exc UserInputError
                       (lit "Upload knowledge failed: " ++ exc_msg ex) None)),
         MkState (rag_configuration s1) (config_dict_value s1)
           (config_modified_time s1)
           (Some ((default [] (task_status_file s1) ++ processing_line task_id)
                    ++ failed_line task_id (failure_detail ex)))
           (((calls s1 ++ [FileAppend (processing_line task_id)])
               ++ [CallAloadKnowledge])
              ++ [FileAppend (failed_line task_id (failure_detail ex))]))
    | Interrupted b =>
        (Interrupted b,
         MkState (rag_configuration s1) (config_dict_value s1)
           (config_modified_time s1)
           (Some (default [] (task_status_file s1) ++ processing_line task_id))
           ((calls s1 ++ [FileAppend (processing_line task_id)])
              ++ [CallAloadKnowledge]))
    end.
Proof.
  intros Hcheck.
  unfold add_knowledge_async, athen, abind, lift. rewrite Hcheck.
  unfold file_append, try_except_await, await, logged, raise,
    mbind, M_bind, bind; simpl.
  by destruct (rag_aload_knowledge _ _ _ _) as [[[]|ex]|b].
Qed.

(** A guarded query, step by step. *)
Lemma guarded_query_steps {A} (c : Call) (answer : awaited A) (s : State) :
  guarded_query c answer s
  = match check_updates s with
    | (Ok _, s1) =>
        (match answer with
         | Returned (Ok r) => Returned (Ok r)
         | Returned (Raise e) => Returned (Raise (query_failed e))
         | Interrupted b => Interrupted b
         end, logged c s1)
    | (Raise e, s1) => (Returned (Raise (query_failed e)), s1)
    end.
Proof.
  unfold guarded_query, try_except_await, athen, abind, lift, await, raise.
  destruct (check_updates s) as [[[]|e] s1]; [|done].
  by destruct answer as [[r|e]|b].
Qed.

Lemma check_updates_ok (s s1 : State) :
  check_updates s = (Ok tt, s1) →
  task_status_file s1 = task_status_file s
  ∧ ∃ rest, calls s1 = calls s ++ CallGetConfigMtime :: rest
            ∧ file_appends rest = [].
Proof.
  intros H. destruct (check_updates_cases s) as (rest & H1 & H2 & H3).
  rewrite H in *. simpl in *. eauto.
Qed.

(** What a status lookup does once the freshness check has passed. *)
Lemma get_task_status_after_check (s s1 : State) (task_id : str) :
  check_updates s = (Ok tt, s1) →
  (get_task_status task_id s).1 = latest_status (task_status_file s) task_id.
Proof.
  intros Hcheck. destruct (check_updates_ok s s1 Hcheck) as [Hfile _].
  unfold get_task_status, mbind, M_bind, bind. rewrite Hcheck.
  unfold call, get, logged, ret; simpl. rewrite Hfile.
  by destruct (task_status_file s).
Qed.

(** ** The failure detail *)



Lemma token_no_space (task_id : str) (c : ascii) :
  is_token task_id = true → c ∈ task_id → isspace c = false.
Proof.
  unfold is_token. destruct task_id as [|d t]; [done|].
  intros H Hin. rewrite forallb_forall in H.
  apply list_elem_of_In, H in Hin. by destruct (isspace c).
Qed.

Lemma token_excludes (task_id : str) (c : ascii) :
  is_token task_id = true → isspace c = true → c ∉ task_id.
Proof.
  intros Ht Hc Hin. by rewrite (token_no_space task_id c Ht Hin) in Hc.
Qed.



End ServiceLemmas.
End ServiceFacts.

Import PyFacts Service ServiceFacts ServiceVocabulary.

Section ServiceClaims.
Context `{C : Collaborators}.



(** C7.  When the persisted snapshot has the same dictionary as the
    active snapshot, a reload calls no downstream [reload] and leaves the
    active snapshot and the cached dictionary as they are, also when it
    is triggered by a modification time that differs from the last one
    seen (which is then recorded). *)
Theorem C7_reload_noop_on_unchanged_content
    (s : State) (snap : Config) (t : Mtime) :
  consistent s →
  from_snapshot = Ok snap →
  to_dict snap = to_dict (rag_configuration s) →
  get_config_mtime (rag_configuration s) = Ok t →
  config_modified_time s ≠ t →
  reload None s = (Ok tt, logged CallFromSnapshot s)
  ∧ check_updates s
    = (Ok tt,
       MkState (rag_configuration s) (config_dict_value s) t
               (task_status_file s)
               (calls s ++ [CallGetConfigMtime; CallFromSnapshot])).
Proof.
  unfold consistent. intros Hcons Hsnap Hdict Hmtime Hne.
  assert (∀ s0, config_dict_value s0 = config_dict_value s →
                reload None s0 = (Ok tt, logged CallFromSnapshot s0)) as Hreload.
  { intros s0 H0. run. rewrite Hsnap. simpl.
    destruct (decide _) as [Hd|]; [|done].
    exfalso. apply Hd. congruence. }
  split; [by apply Hreload|].
  unfold check_updates, mbind, M_bind, bind, get, call. rewrite Hmtime.
  destruct (decide _); [|done].
  rewrite Hreload by done.
  unfold set_config_modified_time, logged. simpl. by rewrite <- app_assoc.
Qed.

(** C10.  Ingestion, the four query entry points, the configuration read
    and the task-status lookup all run the whole configuration freshness
    check before anything of their own.  The check reads the
    configuration's modification time and, when it differs from the last
    one seen, reloads the persisted configuration; it calls nothing but
    the configuration.  When the check raises, none of the operations
    does anything else: the status lookup and the ingestion raise the
    same error, the queries and the configuration read raise their
    wrapped error, and the state is the one the failed check left.  When
    it returns, the operation's own calls come after the calls of the
    check.  So when the modification time cannot be read, or the
    persisted snapshot cannot be read, or the application's reload fails,
    a task-status lookup raises instead of answering, without looking at
    the status file. *)
Theorem C10_freshness_check_comes_first
    (task_id : str) (input_files : list str)
    (filter_pattern faiss_path : option str) (qa : bool)
    (q : RagQuery) (ql : LlmQuery) (qr : RetrievalQuery) (s : State) :
  let chk := check_updates s in
  let ingest :=
    add_knowledge_async task_id input_files filter_pattern faiss_path qa in
  let answered (answer : awaited Response) : awaited Response :=
    match answer with
    | Returned (Ok r) => Returned (Ok r)
    | Returned (Raise e) => Returned (Raise (query_failed e))
    | Interrupted b => Interrupted b
    end in
  chk = match get_config_mtime (rag_configuration s) with
        | Raise e => (Raise e, logged CallGetConfigMtime s)
        | Ok t =>
            if decide (config_modified_time s = t)
            then (Ok tt, logged CallGetConfigMtime s)
            else match reload None (logged CallGetConfigMtime s) with
                 | (Ok _, s2) => (Ok tt, seen t s2)
                 | (Raise e, s2) => (Raise e, s2)
                 end
        end
  ∧ (∃ rest, calls chk.2 = calls s ++ CallGetConfigMtime :: rest
             ∧ Forall (λ c, is_check_call c = true) rest)
  ∧ (∀ e, chk.1 = Raise e →
       get_task_status task_id s = (Raise e, chk.2)
       ∧ ingest s = (Returned (Raise e), chk.2)
       ∧ aquery q s = (Returned (Raise (query_failed e)), chk.2)
       ∧ aquery_llm ql s = (Returned (Raise (query_failed e)), chk.2)
       ∧ aquery_retrieval qr s = (Returned (Raise (query_failed e)), chk.2)
       ∧ aquery_agent ql s = (Returned (Raise (query_failed e)), chk.2)
       ∧ get_config s = (Raise (get_config_failed e), chk.2))
  ∧ (chk.1 = Ok tt →
       (∃ own, calls (get_task_status task_id s).2
               = calls chk.2 ++ FileExists :: own
               ∧ Forall (λ c, is_check_call c = false) own)
       ∧ (∃ own, calls (ingest s).2
                 = calls chk.2 ++ FileAppend (processing_line task_id)
                               :: CallAloadKnowledge :: own
                 ∧ Forall (λ c, is_check_call c = false) own)
       ∧ aquery q s = (answered (rag_aquery q), logged CallAquery chk.2)
       ∧ aquery_llm ql s
         = (answered (rag_aquery_llm ql), logged CallAqueryLlm chk.2)
       ∧ aquery_retrieval qr s
         = (answered (rag_aquery_retrieval qr),
            logged CallAqueryRetrieval chk.2)
       ∧ aquery_agent ql s
         = (answered (rag_aquery_agent ql), logged CallAqueryAgent chk.2)
       ∧ get_config s = (Ok (config_dict_value chk.2), chk.2))
  ∧ (∀ e, get_config_mtime (rag_configuration s) = Raise e →
       get_task_status task_id s = (Raise e, logged CallGetConfigMtime s))
  ∧ (∀ t e,
       get_config_mtime (rag_configuration s) = Ok t →
       config_modified_time s ≠ t →
       from_snapshot = Raise e →
       get_task_status task_id s
       = (Raise (reload_error e),
          logged CallFromSnapshot (logged CallGetConfigMtime s)))
  ∧ (∀ t snap e,
       get_config_mtime (rag_configuration s) = Ok t →
       config_modified_time s ≠ t →
       from_snapshot = Ok snap →
       config_dict_value s ≠ to_dict snap →
       rag_reload snap = Raise e →
       get_task_status task_id s
       = (Raise (reload_error e),
          logged (CallRagReload snap)
            (logged CallFromSnapshot (logged CallGetConfigMtime s)))).
Proof.
  intros chk ingest answered.
  assert (∀ e s1, check_updates s = (Raise e, s1) →
                  get_task_status task_id s = (Raise e, s1)) as Hlookup.
  { intros e s1 H. unfold get_task_status, mbind, M_bind, bind.
    by rewrite H. }
  split; [apply check_updates_steps|].
  split; [apply check_updates_calls|].
  split; [|split; [|split; [|split]]].
  - intros e He. subst chk ingest.
    unfold aquery, aquery_llm, aquery_retrieval, aquery_agent.
    rewrite !guarded_query_steps.
    unfold get_task_status, add_knowledge_async, get_config,
      athen, abind, lift, mbind, M_bind, bind, try_except, raise.
    destruct (check_updates s) as [[[]|e0] s1]; simpl in *; [done|].
    injection He as ->. done.
  - intros Hok. subst chk ingest.
    unfold aquery, aquery_llm, aquery_retrieval, aquery_agent.
    rewrite !guarded_query_steps.
    destruct (check_updates s) as [[[]|e0] s1] eqn:Hchk; simpl in *; [|done].
    split; [|split].
    + unfold get_task_status, mbind, M_bind, bind. rewrite Hchk.
      unfold call, get, logged, ret; simpl.
      destruct (task_status_file s1); simpl;
        rewrite <- ?app_assoc; simpl; eexists; (split; [reflexivity|]);
        by repeat constructor.
    + rewrite (add_knowledge_async_after_check s s1) by done.
      destruct (rag_aload_knowledge _ _ _ _) as [[[]|ex]|b]; simpl;
        rewrite <- ?app_assoc; simpl; eexists; (split; [reflexivity|]);
        by repeat constructor.
    + repeat split.
      unfold get_config, mbind, M_bind, bind, try_except, get, ret.
      by rewrite Hchk.
  - intros e He. apply Hlookup. rewrite check_updates_steps, He. done.
  - intros t e Ht Hne Hsnap. apply Hlookup.
    rewrite check_updates_steps, Ht, decide_False by done.
    unfold reload, try_except, mbind, M_bind, bind, call, raise, reload_error.
    rewrite Hsnap. done.
  - intros t snap e Ht Hne Hsnap Hdict Hreload. apply Hlookup.
    rewrite check_updates_steps, Ht, decide_False by done.
    unfold reload, try_except, mbind, M_bind, bind, call, raise, get, ret,
      reload_error.
    rewrite Hsnap. simpl. rewrite decide_True by done.
    rewrite Hreload. done.
Qed.

End ServiceClaims.

(** ** The claims at concrete inputs *)

Section ServiceExamples.
Import Scenario.



(** C5 at the failing inputs: a query for the identifier ['7f'] is
    answered with the record of task ['7f3a']; with no status file the
    answer is the bare status, not a pair. *)
Theorem C5_lookup_matches_prefix_and_returns_bare_status :
  (get_task_status (lit "7f") served_working).1
  = Ok (StatusDetail (lit "completed") None)
  ∧ (get_task_status (lit "7f") fresh_working).1
    = Ok (StatusOnly (lit "unknown")).
Proof. split; reflexivity. Qed.



(** C7 at a configuration file rewritten with the same content. *)
Lemma C7_witness :
  check_updates fresh_rewritten
  = (Ok tt, MkState (C := rewritten_world) 0 0 2 None
                    [CallGetConfigMtime; CallFromSnapshot]).
Proof.
  refine (proj2 (C7_reload_noop_on_unchanged_content
                   fresh_rewritten 0 2 eq_refl eq_refl eq_refl eq_refl _)).
  simpl. lia.
Defined.

(** C10 at a task that has completed, asked for when the configuration
    file was rewritten and the persisted snapshot cannot be read; and when
    the configuration's modification time cannot be read. *)
Lemma C10_witness :
  get_task_status task1 served_stale
  = (Raise (reload_error stale_snapshot),
     logged CallFromSnapshot (logged CallGetConfigMtime served_stale))
  ∧ get_task_status task1 served_broken
    = (Raise unreadable, logged CallGetConfigMtime served_broken).
Proof.
  split.
  - refine (proj1 (proj2 (proj2 (proj2 (proj2 (proj2
             (C10_freshness_check_comes_first (C := stale_world)
                task1 [] None None false tt tt tt served_stale))))))
             2 stale_snapshot eq_refl _ eq_refl).
    simpl. lia.
  - exact (proj1 (proj2 (proj2 (proj2 (proj2
             (C10_freshness_check_comes_first (C := broken_world)
                task1 [] None None false tt tt tt served_broken)))))
             unreadable eq_refl).
Defined.

End ServiceExamples.

(* ===================================================================== *)
(** * Facts about batching and the bounded gather *)
(* ===================================================================== *)

Module IndexFacts.
Import Index.

Lemma count_app {A} (p : A → bool) (l1 l2 : list A) :
  count p (l1 ++ l2) = count p l1 + count p l2.
Proof. induction l1 as [|x l1 IH]; simpl; [done|]. rewrite IH. lia. Qed.

Lemma count_none {A} (p : A → bool) (l : list A) :
  Forall (λ x, p x = false) l → count p l = 0.
Proof. induction 1 as [|x l Hx _ IH]; simpl; [done|]. by rewrite Hx, IH. Qed.

Lemma count_all {A} (p : A → bool) (l : list A) :
  Forall (λ x, p x = true) l → count p l = length l.
Proof. induction 1 as [|x l Hx _ IH]; simpl; [done|]. by rewrite Hx, IH. Qed.

Lemma count_replicate {A} (p : A → bool) (x : A) (n : nat) :
  p x = false → count p (replicate n x) = 0.
Proof. intros Hx. induction n as [|n IH]; simpl; [done|]. by rewrite Hx, IH. Qed.

(** Replacing one item moves the count by the difference of the two
    tests. *)
Lemma count_insert {A} (p : A → bool) (l : list A) (k : nat) (x y : A) :
  l !! k = Some x →
  count p (<[k := y]> l) + (if p x then 1 else 0)
  = count p l + (if p y then 1 else 0).
Proof.
  revert k. induction l as [|z l IH]; intros k Hk; [done|].
  destruct k as [|k]; simpl in *.
  - injection Hk as ->. lia.
  - specialize (IH k Hk). lia.
Qed.

(** ** [iter_batch] *)

Section Batches.
Context {A : Type}.
Implicit Types (l : list A) (size fuel : nat).

Lemma iter_batch_fuel_lookup size fuel l k b :
  iter_batch_fuel fuel l size !! k = Some b →
  b = take size (drop (k * size) l) ∧ b ≠ [].
Proof.
  revert l k b. induction fuel as [|fuel IH]; intros l k b; [done|].
  simpl. destruct (take size l) as [|x t] eqn:Et; [done|].
  destruct k as [|k]; simpl.
  - intros [= <-]. simpl. rewrite drop_0, Et. by split.
  - intros Hk. apply IH in Hk as [-> Hne]. rewrite drop_drop in Hne.
    rewrite drop_drop. by split.
Qed.

Lemma iter_batch_fuel_concat size fuel l :
  length l < fuel → 0 < size →
  concat (iter_batch_fuel fuel l size) = l.
Proof.
  revert l. induction fuel as [|fuel IH]; intros l Hlen Hsize; [lia|].
  simpl. destruct (take size l) as [|x t] eqn:Et.
  - destruct l as [|y l]; [done|]. destruct size; [lia|done].
  - assert (0 < length l) by (destruct l; [by rewrite take_nil in Et|simpl; lia]).
    simpl. rewrite IH; [|rewrite length_drop; lia|done].
    change (x :: t ++ drop size l) with ((x :: t) ++ drop size l).
    rewrite <- Et. apply take_drop.
Qed.

Lemma iter_batch_fuel_length size fuel l :
  length l < fuel → 0 < size →
  length (iter_batch_fuel fuel l size) * size < length l + size
  ∧ length l ≤ length (iter_batch_fuel fuel l size) * size.
Proof.
  revert l. induction fuel as [|fuel IH]; intros l Hlen Hsize; [lia|].
  simpl. destruct (take size l) as [|x t] eqn:Et.
  - destruct l as [|y l]; [simpl; lia|]. destruct size; [lia|done].
  - simpl.
    assert (0 < length l) by (destruct l; [by rewrite take_nil in Et|simpl; lia]).
    destruct (IH (drop size l)) as [H1 H2]; [rewrite length_drop; lia|done|].
    rewrite length_drop in *.
    set (n := length (iter_batch_fuel fuel (drop size l) size)) in *.
    destruct n as [|n]; simpl in *; lia.
Qed.

Lemma iter_batch_concat l size :
  0 < size → concat (iter_batch l size) = l.
Proof. intros. apply iter_batch_fuel_concat; [lia|done]. Qed.

(** Batch [k] is the [k]-th slice of [size] items; it is not empty and
    only the last batch can be shorter than [size]. *)
Lemma iter_batch_lookup l size k b :
  0 < size →
  iter_batch l size !! k = Some b →
  b = take size (drop (k * size) l)
  ∧ 0 < length b ≤ size
  ∧ (S k < length (iter_batch l size) → length b = size).
Proof.
  intros Hsize Hk. unfold iter_batch in *.
  destruct (iter_batch_fuel_lookup _ _ _ _ _ Hk) as [-> Hne].
  split; [done|]. split.
  - split; [|rewrite length_take; lia].
    destruct (take size (drop (k * size) l)); [congruence|simpl; lia].
  - intros Hlast.
    destruct (iter_batch_fuel_length size (S (length l)) l) as [H1 H2];
      [lia|done|].
    rewrite length_take, length_drop. nia.
Qed.

Lemma iter_batch_single l size :
  0 < length l ≤ size → iter_batch l size = [l].
Proof.
  intros [H1 H2]. unfold iter_batch.
  destruct l as [|x l]; [simpl in H1; lia|].
  destruct size as [|size]; [simpl in H2; lia|].
  simpl in *. rewrite take_ge, drop_ge by lia.
  by destruct (length l).
Qed.

Lemma iter_batch_nil_iff l size :
  0 < size → iter_batch l size = [] ↔ l = [].
Proof.
  intros Hsize. split.
  - intros E. rewrite <- (iter_batch_concat l size) by done. by rewrite E.
  - intros ->. unfold iter_batch. simpl. by rewrite take_nil.
Qed.

End Batches.

(** ** The bounded gather *)

Section Gather.
Context {Node : Type} `{B : Backend Node}.
Implicit Types (batches : list (list Node)) (s : gstate Node).

Lemma ginit_inv batches : gather_inv batches (ginit batches).
Proof.
  split; simpl.
  - apply length_replicate.
  - unfold in_flight. simpl. rewrite count_replicate by done. reflexivity.
  - unfold in_flight. simpl. by rewrite count_replicate.
  - by rewrite count_replicate.
  - constructor.
  - intros k. destruct (replicate (length batches) Waiting !! k) as [t|] eqn:E;
      [|done]. by apply lookup_replicate in E as [-> _].
  - intros k. destruct (replicate (length batches) Waiting !! k) as [t|] eqn:E;
      [|done]. by apply lookup_replicate in E as [-> _].
Qed.

Lemma after_add_kind k :
  Forall (λ e : Event Node, is_insertion e = true) (after_add k).
Proof. unfold after_add. destruct (_ || _); repeat constructor. Qed.

Lemma after_add_count (p : Event Node → bool) k :
  (∀ j, p (EvRegistered j) = false) →
  count p (after_add k) = if p (EvAdded k) then 1 else 0.
Proof.
  intros Hp. unfold after_add. destruct (_ || _); simpl; rewrite ?Hp; lia.
Qed.

Lemma step_inv batches s s' :
  gather_inv batches s → gstep batches s s' → gather_inv batches s'.
Proof.
  intros [Hlen Hsem Hout Hiss Hkind Hadds Hadded] Hstep.
  destruct Hstep as [s k b Hk Hb Hpos|s k Hk|s k e Hk|s k b n e Hk Hb Hreg Hn].
  - pose proof (count_insert is_in_flight (tasks s) k Waiting InFlight Hk) as Hc.
    pose proof (count_insert is_started (tasks s) k Waiting InFlight Hk) as Hd.
    simpl in Hc, Hd.
    split; simpl; unfold in_flight in *; simpl.
    + by rewrite length_insert.
    + lia.
    + rewrite !count_app. simpl. lia.
    + rewrite !count_app. simpl. lia.
    + apply Forall_app. split; [done|]. by repeat constructor.
    + intros j. rewrite count_app, Hadds. simpl.
      destruct (decide (k = j)) as [->|Hne].
      * rewrite list_lookup_insert_eq by (by eapply lookup_lt_Some).
        rewrite Hk, bool_decide_eq_true_2 by done. done.
      * rewrite list_lookup_insert_ne by done.
        rewrite bool_decide_eq_false_2 by done. lia.
    + intros j. rewrite count_app, Hadded. simpl.
      destruct (decide (k = j)) as [->|Hne].
      * rewrite list_lookup_insert_eq by (by eapply lookup_lt_Some).
        rewrite Hk. done.
      * rewrite list_lookup_insert_ne by done. lia.
  - pose proof (count_insert is_in_flight (tasks s) k InFlight Done Hk) as Hc.
    pose proof (count_insert is_started (tasks s) k InFlight Done Hk) as Hd.
    simpl in Hc, Hd.
    split; simpl; unfold in_flight in *; simpl.
    + by rewrite length_insert.
    + lia.
    + rewrite !count_app, !after_add_count by done. simpl. lia.
    + rewrite !count_app, !after_add_count by done. simpl. lia.
    + apply Forall_app. split; [done|]. apply after_add_kind.
    + intros j. rewrite count_app, Hadds, after_add_count by done. simpl.
      destruct (decide (k = j)) as [->|Hne].
      * rewrite list_lookup_insert_eq by (by eapply lookup_lt_Some).
        rewrite Hk. done.
      * rewrite list_lookup_insert_ne by done. lia.
    + intros j. rewrite count_app, Hadded, after_add_count by done. simpl.
      destruct (decide (k = j)) as [->|Hne].
      * rewrite list_lookup_insert_eq by (by eapply lookup_lt_Some).
        rewrite Hk, bool_decide_eq_true_2 by done. done.
      * rewrite list_lookup_insert_ne by done.
        rewrite bool_decide_eq_false_2 by done. lia.
  - pose proof (count_insert is_in_flight (tasks s) k InFlight (Failed e) Hk) as Hc.
    pose proof (count_insert is_started (tasks s) k InFlight (Failed e) Hk) as Hd.
    simpl in Hc, Hd.
    split; simpl; unfold in_flight in *; simpl.
    + by rewrite length_insert.
    + lia.
    + rewrite !count_app. simpl. lia.
    + rewrite !count_app. simpl. lia.
    + apply Forall_app. split; [done|]. by repeat constructor.
    + intros j. rewrite count_app, Hadds. simpl.
      destruct (decide (k = j)) as [->|Hne].
      * rewrite list_lookup_insert_eq by (by eapply lookup_lt_Some).
        rewrite Hk. done.
      * rewrite list_lookup_insert_ne by done. lia.
    + intros j. rewrite count_app, Hadded. simpl.
      destruct (decide (k = j)) as [->|Hne].
      * rewrite list_lookup_insert_eq by (by eapply lookup_lt_Some).
        rewrite Hk. done.
      * rewrite list_lookup_insert_ne by done. lia.
  - pose proof (count_insert is_in_flight (tasks s) k InFlight (Broken e) Hk) as Hc.
    pose proof (count_insert is_started (tasks s) k InFlight (Broken e) Hk) as Hd.
    simpl in Hc, Hd.
    split; simpl; unfold in_flight in *; simpl.
    + by rewrite length_insert.
    + lia.
    + rewrite !count_app. simpl. lia.
    + rewrite !count_app. simpl. lia.
    + apply Forall_app. split; [done|]. by repeat constructor.
    + intros j. rewrite count_app, Hadds. simpl.
      destruct (decide (k = j)) as [->|Hne].
      * rewrite list_lookup_insert_eq by (by eapply lookup_lt_Some).
        rewrite Hk. done.
      * rewrite list_lookup_insert_ne by done. lia.
    + intros j. rewrite count_app, Hadded. simpl.
      destruct (decide (k = j)) as [->|Hne].
      * rewrite list_lookup_insert_eq by (by eapply lookup_lt_Some).
        rewrite Hk, bool_decide_eq_true_2 by done. done.
      * rewrite list_lookup_insert_ne by done.
        rewrite bool_decide_eq_false_2 by done. lia.
Qed.

Lemma greach_inv batches s : greach batches s → gather_inv batches s.
Proof.
  unfold greach. revert s.
  apply (rtc_ind_r (gather_inv batches)).
  - apply ginit_inv.
  - intros s1 s2 _ Hstep IH. by eapply step_inv.
Qed.

(** A step changes the number of batches in flight by one: up when a
    batch takes the semaphore, down when one releases it. *)
Lemma step_in_flight batches s s' :
  gstep batches s s' →
  (in_flight s' = S (in_flight s) ∧ 0 < sem s)
  ∨ S (in_flight s') = in_flight s.
Proof.
  intros [s0 k b Hk Hb Hpos|s0 k Hk|s0 k e Hk|s0 k b n e Hk Hb Hreg Hn];
    unfold in_flight; simpl.
  - pose proof (count_insert is_in_flight (tasks s0) k Waiting InFlight Hk).
    simpl in *. left. split; [lia|done].
  - pose proof (count_insert is_in_flight (tasks s0) k InFlight Done Hk).
    simpl in *. right. lia.
  - pose proof (count_insert is_in_flight (tasks s0) k InFlight (Failed e) Hk).
    simpl in *. right. lia.
  - pose proof (count_insert is_in_flight (tasks s0) k InFlight (Broken e) Hk).
    simpl in *. right. lia.
Qed.

(** The sequential schedule: batch after batch is inserted and
    completes, so a gather can always be carried to its end. *)
Lemma sequential_schedule batches (i : nat) :
  i ≤ length batches →
  ∃ tr, greach batches
          (MkG SEMAPHORE_WIDTH
               (replicate i Done ++ replicate (length batches - i) Waiting) tr).
Proof.
  induction i as [|i IH]; intros Hi.
  - exists []. rewrite Nat.sub_0_r. apply rtc_refl.
  - destruct IH as [tr Hreach]; [lia|].
    destruct (lookup_lt_is_Some_2 batches i) as [b Hb]; [lia|].
    set (ts := replicate i Done ++ replicate (length batches - i) Waiting) in *.
    assert (ts !! i = Some Waiting) as Hw.
    { unfold ts. rewrite lookup_app_r by (rewrite length_replicate; lia).
      rewrite length_replicate, Nat.sub_diag.
      apply lookup_replicate. split; [done|lia]. }
    assert (<[i := Done]> (<[i := InFlight]> ts)
            = replicate (S i) Done ++ replicate (length batches - S i) Waiting)
      as Hts.
    { rewrite list_insert_insert_eq. unfold ts.
      rewrite insert_app_r_alt by (rewrite length_replicate; lia).
      rewrite length_replicate, Nat.sub_diag.
      replace (length batches - i) with (S (length batches - S i)) by lia.
      rewrite (replicate_S_end i Done), <- app_assoc. done. }
    eexists. eapply rtc_r; [eapply rtc_r; [exact Hreach|]|].
    + eapply (step_acquire batches _ i b); [exact Hw|exact Hb|].
      simpl. unfold SEMAPHORE_WIDTH. lia.
    + simpl.
      pose proof (step_return batches
        (MkG (SEMAPHORE_WIDTH - 1) (<[i:=InFlight]> ts) (tr ++ [EvAsyncAdd i b])) i)
        as Hstep.
      simpl in Hstep. rewrite Hts in Hstep. apply Hstep.
      apply list_lookup_insert_eq. by eapply lookup_lt_Some.
Qed.

Lemma gather_can_complete batches :
  ∃ s, greach batches s ∧ all_done s.
Proof.
  destruct (sequential_schedule batches (length batches)) as [tr Hreach];
    [done|].
  eexists. split; [exact Hreach|].
  unfold all_done. simpl. rewrite Nat.sub_diag, app_nil_r.
  by apply Forall_replicate.
Qed.

(** C3.  In every state an asynchronous insert can reach, at most ten
    batches are inside the semaphore, and these are exactly the
    [async_add] calls issued and not yet ended; a batch enters only when
    fewer than ten are inside; with ten inside, the only thing that can
    happen is that one of them ends; and a waiting batch can enter as
    soon as fewer than ten are inside. *)
Theorem C3_at_most_ten_batches_in_flight batches s :
  greach batches s →
  in_flight s ≤ SEMAPHORE_WIDTH
  ∧ sem s + in_flight s = SEMAPHORE_WIDTH
  ∧ count is_issue (trace s) = count is_finish (trace s) + in_flight s
  ∧ (∀ s', gstep batches s s' →
           in_flight s' = S (in_flight s) → in_flight s < SEMAPHORE_WIDTH)
  ∧ (∀ s', gstep batches s s' →
           in_flight s = SEMAPHORE_WIDTH → S (in_flight s') = SEMAPHORE_WIDTH)
  ∧ (∀ k, tasks s !! k = Some Waiting → in_flight s < SEMAPHORE_WIDTH →
          ∃ s', gstep batches s s' ∧ tasks s' !! k = Some InFlight).
Proof.
  intros Hreach.
  destruct (greach_inv batches s Hreach) as [Hlen Hsem Hout _ _ _ _].
  split; [lia|]. split; [done|]. split; [done|].
  split; [|split].
  - intros s' Hstep Hup.
    destruct (step_in_flight batches s s' Hstep) as [[_ Hpos]|Hdown]; lia.
  - intros s' Hstep Hfull.
    destruct (step_in_flight batches s s' Hstep) as [[_ Hpos]|Hdown]; lia.
  - intros k Hk Hfree.
    destruct (lookup_lt_is_Some_2 batches k) as [b Hb].
    { rewrite <- Hlen. by eapply lookup_lt_Some. }
    eexists. split.
    + apply (step_acquire batches s k b); [done|done|lia].
    + simpl. apply list_lookup_insert_eq. by eapply lookup_lt_Some.
Qed.

(** ** The events of one insert *)

Lemma count_disjoint (p q : Event Node → bool) (l : list (Event Node)) :
  Forall (λ e, q e = true) l →
  (∀ e, q e = true → p e = false) →
  count p l = 0.
Proof.
  intros Hl Hpq. apply count_none.
  eapply Forall_impl; [exact Hl|]. exact Hpq.
Qed.

Lemma embed_batches_spec (k : nat) (bs : list (list Node)) ev r :
  embed_batches k bs = (ev, r) →
  Forall (λ e, ∃ j, e = EvEmbed j) ev
  ∧ ∀ batches, r = Ok batches → length batches = length bs.
Proof.
  revert k ev r. induction bs as [|b bs IH]; intros k ev r; simpl.
  - intros [= <- <-]. split; [constructor|]. by intros ? [= <-].
  - destruct (get_node_with_embedding b) as [b'|e].
    + destruct (embed_batches (S k) bs) as [ev' r'] eqn:E.
      destruct (IH _ _ _ E) as [Hev Hlen].
      intros [= <- <-]. split; [constructor; eauto|].
      intros batches. destruct r' as [l|e]; [|done].
      intros [= <-]. simpl. f_equal. by apply Hlen.
    + intros [= <- <-]. split; [repeat constructor; eauto|done].
Qed.

Lemma count_embed (p : Event Node → bool) (ev : list (Event Node)) :
  Forall (λ e, ∃ j, e = EvEmbed j) ev →
  (∀ j, p (EvEmbed j) = false) →
  count p ev = 0.
Proof.
  intros Hev Hp. apply count_none.
  eapply Forall_impl; [exact Hev|]. intros e [j ->]. apply Hp.
Qed.

Lemma all_done_lookup s k :
  all_done s → k < length (tasks s) → tasks s !! k = Some Done.
Proof.
  intros Hdone Hk. destruct (lookup_lt_is_Some_2 (tasks s) k Hk) as [t Ht].
  rewrite Ht. f_equal.
  unfold all_done in Hdone. rewrite Forall_forall in Hdone.
  apply Hdone. by eapply list_elem_of_lookup_2.
Qed.

(** ** The batches handed over *)

Lemma added_batches_app (k : nat) (a b : list (Event Node)) :
  added_batches k (a ++ b) = added_batches k a ++ added_batches k b.
Proof.
  induction a as [|x a IH]; [done|].
  destruct x; simpl; try done. case_bool_decide; simpl; by rewrite IH.
Qed.

Lemma added_batches_none (k : nat) (l : list (Event Node)) :
  count (is_async_add k) l = 0 → added_batches k l = [].
Proof.
  induction l as [|x l IH]; [done|].
  destruct x; simpl; try done. case_bool_decide; simpl; [lia|done].
Qed.

Lemma added_batches_elem (k : nat) (b : list Node) (l : list (Event Node)) :
  EvAsyncAdd k b ∈ l ↔ b ∈ added_batches k l.
Proof.
  induction l as [|x l IH].
  - simpl. split; intros H; by apply elem_of_nil in H.
  - rewrite elem_of_cons, IH.
    destruct x; simpl; try (split; [intros [?|?]; [done|done]|by right]).
    case_bool_decide as Hk.
    + subst. rewrite elem_of_cons. split.
      * intros [[= ->]|?]; [by left|by right].
      * intros [->|?]; [by left|by right].
    + split; [|by right]. intros [[= ? ?]|?]; [done|done].
Qed.

(** The batch handed to [async_add] for position [k], if any, is the
    batch at position [k] of the gather. *)
Lemma added_inv batches s :
  greach batches s →
  ∀ k, added_batches k (trace s)
       = match expected_adds (tasks s !! k), batches !! k with
         | S _, Some b => [b]
         | _, _ => []
         end.
Proof.
  intros Hreach.
  assert (∀ k b, tasks s !! k = Some b → k < length batches) as _.
  { intros k b Hk. destruct (greach_inv _ _ Hreach) as [Hl _ _ _ _ _ _].
    rewrite <- Hl. by eapply lookup_lt_Some. }
  revert s Hreach. unfold greach.
  apply (rtc_ind_r (λ s, ∀ k, added_batches k (trace s)
                = match expected_adds (tasks s !! k), batches !! k with
                  | S _, Some b => [b]
                  | _, _ => []
                  end)).
  - intros k. simpl.
    destruct (replicate (length batches) Waiting !! k) as [t|] eqn:E;
      [|done]. by apply lookup_replicate in E as [-> _].
  - intros s1 s2 _ Hstep IH j. specialize (IH j).
    destruct Hstep as [s k b Hk Hb Hpos|s k Hk|s k e Hk|s k b n e Hk Hb Hreg Hn];
      simpl; rewrite added_batches_app, IH; simpl.
    + destruct (decide (k = j)) as [->|Hne].
      * rewrite list_lookup_insert_eq by (by eapply lookup_lt_Some).
        rewrite Hk, Hb, bool_decide_eq_true_2 by done. done.
      * rewrite list_lookup_insert_ne by done.
        rewrite bool_decide_eq_false_2 by done. by rewrite app_nil_r.
    + rewrite (added_batches_none j (after_add k)), app_nil_r
        by (by rewrite after_add_count).
      destruct (decide (k = j)) as [->|Hne].
      * rewrite list_lookup_insert_eq by (by eapply lookup_lt_Some).
        by rewrite Hk.
      * by rewrite list_lookup_insert_ne.
    + rewrite app_nil_r.
      destruct (decide (k = j)) as [->|Hne].
      * rewrite list_lookup_insert_eq by (by eapply lookup_lt_Some).
        by rewrite Hk.
      * by rewrite list_lookup_insert_ne.
    + rewrite app_nil_r.
      destruct (decide (k = j)) as [->|Hne].
      * rewrite list_lookup_insert_eq by (by eapply lookup_lt_Some).
        by rewrite Hk.
      * by rewrite list_lookup_insert_ne.
Qed.

(** The batches the gather works on are the embedded batches of the
    partition, position by position. *)
Lemma embed_batches_embedded (k : nat) (bs : list (list Node)) ev l :
  embed_batches k bs = (ev, Ok l) →
  Forall2 (λ b b', get_node_with_embedding b = Ok b') bs l.
Proof.
  revert k ev l. induction bs as [|b bs IH]; intros k ev l; simpl.
  - intros [= <- <-]. constructor.
  - destruct (get_node_with_embedding b) as [b'|e] eqn:Eb; [|done].
    destruct (embed_batches (S k) bs) as [ev' r'] eqn:E.
    destruct r' as [l'|e]; [|done].
    intros [= <- <-]. constructor; [done|]. by eapply IH.
Qed.

(** What the events of one [insert_nodes_async] look like: nothing is
    persisted and the keyword index is not touched; no batch is handed
    to [async_add] twice, and no batch beyond the partition; when the
    call returns, every batch of the partition was handed over exactly
    once and its [async_add] returned. *)
Lemma insert_nodes_async_events (nodes : list Node) ev out :
  insert_nodes_async nodes ev out →
  count is_persist ev = 0
  ∧ count is_keyword_sync ev = 0
  ∧ (∀ k, count (is_async_add k) ev ≤ 1)
  ∧ (∀ k, length (iter_batch nodes BATCH_SIZE) ≤ k →
          count (is_async_add k) ev = 0)
  ∧ (out = Ok tt → ∀ k, k < length (iter_batch nodes BATCH_SIZE) →
       count (is_async_add k) ev = 1 ∧ count (is_added k) ev = 1)
  ∧ (out = Ok tt →
     count is_issue ev = length (iter_batch nodes BATCH_SIZE)).
Proof.
  intros Hrun.
  assert (∀ ev0 batches s,
            embed_batches 0 (iter_batch nodes BATCH_SIZE) = (ev0, Ok batches) →
            greach batches s →
            count is_persist (ev0 ++ trace s) = 0
            ∧ count is_keyword_sync (ev0 ++ trace s) = 0
            ∧ (∀ k, count (is_async_add k) (ev0 ++ trace s) ≤ 1)
            ∧ (∀ k, length (iter_batch nodes BATCH_SIZE) ≤ k →
                    count (is_async_add k) (ev0 ++ trace s) = 0)) as Hraise.
  { intros ev0 batches s Hemb Hreach.
    destruct (embed_batches_spec _ _ _ _ Hemb) as [Hev Hlen].
    specialize (Hlen batches eq_refl).
    destruct (greach_inv batches s Hreach) as [Hl _ _ Hiss Hkind Hadds Hadded].
    assert (∀ k, count (is_async_add k) (ev0 ++ trace s)
                 = expected_adds (tasks s !! k)) as Ha.
    { intros k. rewrite !count_app, count_embed, Hadds by done. simpl. lia. }
    split; [|split; [|split]].
    + rewrite !count_app, count_embed by done.
      rewrite (count_disjoint is_persist is_insertion) by (done || by intros []).
      done.
    + rewrite !count_app, count_embed by done.
      rewrite (count_disjoint is_keyword_sync is_insertion)
        by (done || by intros []).
      done.
    + intros k. rewrite Ha. destruct (tasks s !! k) as [[]|]; simpl; lia.
    + intros k Hk. rewrite Ha, lookup_ge_None_2; [done|]. lia. }
  destruct Hrun as [->|ev0 e Hne Hemb|ev0 batches s Hne Hemb Hreach Hdone
         |ev0 batches s k0 e Hne Hemb Hreach Hfail
         |ev0 batches s k0 e Hne Hemb Hreach Hfail].
  5:{ destruct (Hraise _ _ _ Hemb Hreach) as (H1 & H2 & H3 & H4).
      repeat split; done. }
  - split; [done|]. split; [done|].
    split; [intros k; simpl; lia|]. split; [done|].
    split; [|done]. intros _ k Hk.
    change (iter_batch [] BATCH_SIZE) with (@nil (list Node)) in Hk.
    simpl in Hk. lia.
  - destruct (embed_batches_spec _ _ _ _ Hemb) as [Hev _].
    split; [by rewrite count_embed|]. split; [by rewrite count_embed|].
    split; [intros k; rewrite count_embed; [lia|done|done]|].
    split; [intros k _; by rewrite count_embed|].
    split; done.
  - destruct (embed_batches_spec _ _ _ _ Hemb) as [Hev Hlen].
    specialize (Hlen batches eq_refl).
    destruct (greach_inv batches s Hreach) as [Hl _ _ Hiss Hkind Hadds Hadded].
    assert (∀ k, count (is_async_add k) (ev0 ++ trace s ++ [EvAddIndexStruct])
                 = expected_adds (tasks s !! k)) as Ha.
    { intros k. rewrite !count_app, count_embed, Hadds by done. simpl. lia. }
    assert (∀ k, count (is_added k) (ev0 ++ trace s ++ [EvAddIndexStruct])
                 = expected_added (tasks s !! k)) as Hb.
    { intros k. rewrite !count_app, count_embed, Hadded by done. simpl. lia. }
    split; [|split; [|split; [|split; [|split]]]].
    + rewrite !count_app, count_embed by done.
      rewrite (count_disjoint is_persist is_insertion) by (done || by intros []).
      done.
    + rewrite !count_app, count_embed by done.
      rewrite (count_disjoint is_keyword_sync is_insertion)
        by (done || by intros []).
      done.
    + intros k. rewrite Ha. destruct (tasks s !! k) as [[]|]; simpl; lia.
    + intros k Hk. rewrite Ha, lookup_ge_None_2; [done|]. lia.
    + intros _ k Hk. rewrite Ha, Hb, all_done_lookup by (done || lia). done.
    + intros _. rewrite !count_app, count_embed, Hiss by done. simpl.
      rewrite <- Hlen, <- Hl, !Nat.add_0_r. apply count_all.
      eapply Forall_impl; [exact Hdone|]. by intros t ->.
  - destruct (embed_batches_spec _ _ _ _ Hemb) as [Hev Hlen].
    specialize (Hlen batches eq_refl).
    destruct (greach_inv batches s Hreach) as [Hl _ _ Hiss Hkind Hadds Hadded].
    assert (∀ k, count (is_async_add k) (ev0 ++ trace s)
                 = expected_adds (tasks s !! k)) as Ha.
    { intros k. rewrite !count_app, count_embed, Hadds by done. simpl. lia. }
    split; [|split; [|split; [|split; [|split]]]].
    + rewrite !count_app, count_embed by done.
      rewrite (count_disjoint is_persist is_insertion) by (done || by intros []).
      done.
    + rewrite !count_app, count_embed by done.
      rewrite (count_disjoint is_keyword_sync is_insertion)
        by (done || by intros []).
      done.
    + intros k. rewrite Ha. destruct (tasks s !! k) as [[]|]; simpl; lia.
    + intros k Hk. rewrite Ha, lookup_ge_None_2; [done|]. lia.
    + done.
    + done.
Qed.

(** An insert always ends: with the exception of the embedding step, or
    else (on the sequential schedule) normally. *)
Lemma insert_nodes_async_ends (nodes : list Node) :
  ∃ ev out, insert_nodes_async nodes ev out.
Proof.
  destruct nodes as [|x l].
  { eexists _, _. by apply insert_nothing. }
  destruct (embed_batches 0 (iter_batch (x :: l) BATCH_SIZE))
    as [ev [batches|e]] eqn:Hemb.
  - destruct (gather_can_complete batches) as (s & Hreach & Hdone).
    eexists _, _. eapply insert_joined; eauto.
  - eexists _, _. eapply insert_embedding_raises; eauto.
Qed.

End Gather.

End IndexFacts.

(* ===================================================================== *)
(** * Facts about the loader *)
(* ===================================================================== *)

Module LoaderFacts.
Import Index IndexFacts DataLoader.

Lemma count_zero_not_in {A} (p : A → bool) (l : list A) (x : A) :
  count p l = 0 → p x = true → x ∉ l.
Proof.
  induction l as [|y l IH]; simpl; intros Hc Hx Hin.
  - by apply elem_of_nil in Hin.
  - apply elem_of_cons in Hin as [<-|Hin].
    + rewrite Hx in Hc. lia.
    + apply IH; [|done|done]. destruct (p y); lia.
Qed.

(** An item that occurs once splits a list in one way only. *)
Lemma split_at_unique {A} (x : A) (l1 l2 l1' l2' : list A) :
  x ∉ l1 → x ∉ l2 →
  l1 ++ x :: l2 = l1' ++ x :: l2' →
  l1 = l1' ∧ l2 = l2'.
Proof.
  revert l1'. induction l1 as [|a l1 IH]; intros l1' H1 H2 E.
  - destruct l1' as [|b l1']; simpl in E.
    + by injection E as ->.
    + injection E as <- ->. exfalso. apply H2.
      apply elem_of_app. right. apply elem_of_cons. by left.
  - apply not_elem_of_cons in H1 as [Hne H1].
    destruct l1' as [|b l1']; simpl in E.
    + injection E as -> _. done.
    + injection E as <- E. destruct (IH l1' H1 H2 E) as [-> ->]. done.
Qed.

Section LoaderLemmas.
Context `{C : Collaborators} `{B : Backend TextNode}.

Lemma persist_and_sync_events (nodes : list TextNode) ev out :
  persist_and_sync nodes = (ev, out) →
  ∃ tail, ev = EvPersist :: tail
          ∧ Forall (λ e, is_keyword_sync e = true) tail.
Proof.
  unfold persist_and_sync.
  destruct storage_persist; [|intros [= <- <-]; eexists; split; [done|constructor]].
  destruct bm25_index; [|intros [= <- <-]; eexists; split; [done|constructor]].
  destruct (bm25_add_docs nodes); intros [= <- <-]; eexists;
    (split; [done|repeat constructor]).
Qed.

Lemma no_nodes_false (r : option (list TextNode * store)) :
  no_nodes r = false → nodes_of r ≠ [].
Proof. by destruct r as [[[|n l] st]|]. Qed.

(** ** The chunking loop *)

Lemma count_doc_lookup (m : gmap str nat) (k k' : str) :
  count_doc m k !! k'
  = if decide (k = k') then Some (default 0 (m !! k) + 1) else m !! k'.
Proof.
  unfold count_doc. destruct (m !! k) as [n|] eqn:E;
    destruct (decide (k = k')) as [<-|Hne].
  - by rewrite lookup_insert_eq, E.
  - by rewrite lookup_insert_ne.
  - by rewrite !lookup_insert_eq.
  - by rewrite !lookup_insert_ne.
Qed.

Lemma counts_after_lookup (docs : list Document) (m : gmap str nat) (k : str) :
  default 0 (counts_after m docs !! k)
  = default 0 (m !! k)
    + count (λ d, needs_no_chunking d && bool_decide (doc_key d = k)) docs.
Proof.
  revert m. induction docs as [|d docs IH]; intros m; simpl; [lia|].
  unfold counts_after in *. simpl. rewrite IH.
  destruct (needs_no_chunking d); simpl; [|lia].
  rewrite count_doc_lookup. destruct (decide (doc_key d = k)) as [->|Hne].
  - rewrite bool_decide_eq_true_2 by done. simpl. lia.
  - rewrite bool_decide_eq_false_2 by done. lia.
Qed.

Lemma new_TextNode_fields (st : store) (i t : str) (l : loc) :
  id_ (new_TextNode st i t l).2 = i ∧ text (new_TextNode st i t l).2 = t.
Proof. unfold new_TextNode. by destruct metadata_copied_on_construction. Qed.

(** The nodes built so far are only ever extended. *)
Lemma chunk_docs_acc (docs : list (Document * loc)) (cnt : gmap str nat)
    (st : store) (nodes : list TextNode) :
  chunk_docs docs cnt st nodes
  = match chunk_docs docs cnt st [] with
    | Ok (st', new) => Ok (st', nodes ++ new)
    | Raise e => Raise e
    end.
Proof.
  revert cnt st nodes. induction docs as [|[doc l] docs IH];
    intros cnt st nodes; simpl.
  - by rewrite app_nil_r.
  - case_bool_decide.
    + destruct (new_TextNode _ _ _ _) as [st' node].
      rewrite (IH _ _ (nodes ++ [node])), (IH _ _ [node]).
      destruct (chunk_docs docs _ st' []) as [[st'' new]|e]; [|done].
      by rewrite <- app_assoc.
    + destruct (if bool_decide _ then _ else _) as [ps|e]; [|done].
      destruct (adopt st ps) as [st' ns].
      rewrite (IH _ _ (nodes ++ ns)), (IH _ _ ns).
      destruct (chunk_docs docs _ st' []) as [[st'' new]|e]; [|done].
      by rewrite <- app_assoc.
Qed.

Lemma chunk_docs_app (d1 d2 : list (Document * loc)) (cnt : gmap str nat)
    (st : store) (nodes : list TextNode) :
  chunk_docs (d1 ++ d2) cnt st nodes
  = match chunk_docs d1 cnt st nodes with
    | Ok (st', nodes') =>
        chunk_docs d2 (counts_after cnt (map fst d1)) st' nodes'
    | Raise e => Raise e
    end.
Proof.
  revert cnt st nodes. induction d1 as [|[doc l] d1 IH];
    intros cnt st nodes; simpl; [done|].
  unfold counts_after. simpl. fold (counts_after).
  unfold needs_no_chunking, doc_key. case_bool_decide.
  - destruct (new_TextNode _ _ _ _) as [st' node]. by rewrite IH.
  - destruct (if bool_decide _ then _ else _) as [ps|e]; [|done].
    destruct (adopt st ps) as [st' ns]. by rewrite IH.
Qed.

Lemma with_locations_app (pre post : list Document) (doc : Document) :
  ∃ rest,
    with_locations (pre ++ doc :: post)
    = with_locations pre ++ (doc, length pre) :: rest.
Proof.
  unfold with_locations. rewrite imap_app. simpl.
  eexists. by rewrite Nat.add_0_r.
Qed.

Lemma with_locations_fst (docs : list Document) :
  map fst (with_locations docs) = docs.
Proof.
  unfold with_locations.
  assert (∀ (f : nat → nat), map fst (imap (λ i doc, (doc, f i)) docs) = docs)
    as H.
  { induction docs as [|d docs IH]; intros f; simpl; [done|].
    f_equal. apply (IH (f ∘ S)). }
  apply (H id).
Qed.

Lemma with_locations_length (docs : list Document) :
  length (with_locations docs) = length docs.
Proof. unfold with_locations. apply length_imap. Qed.

(** The node built for an unchunked document: where it stands among the
    nodes, its identifier and its text. *)
Lemma build_unchunked (pre post : list Document) (doc : Document)
    (st : store) (nodes : list TextNode) :
  needs_no_chunking doc = true →
  build (pre ++ doc :: post) = Ok (st, nodes) →
  ∃ s before node,
    build_first (length pre) (pre ++ doc :: post) = Ok (s, before)
    ∧ nodes !! length before = Some node
    ∧ id_ node = node_id_hash (ordinal pre doc) doc
    ∧ text node = doc_text doc.
Proof.
  intros Hdoc. unfold build, build_first.
  destruct (with_locations_app pre post doc) as [rest ->].
  rewrite take_app_length' by (by rewrite with_locations_length).
  set (st0 := map doc_metadata (pre ++ doc :: post)).
  rewrite chunk_docs_app.
  destruct (chunk_docs (with_locations pre) ∅ st0 []) as [[s before]|e];
    [|done].
  rewrite with_locations_fst. cbn [chunk_docs].
  unfold needs_no_chunking in Hdoc. rewrite Hdoc.
  fold (doc_key doc).
  set (cnt := count_doc (counts_after ∅ pre) (doc_key doc)).
  pose proof (new_TextNode_fields s
                (node_id_hash (default 0 (cnt !! doc_key doc)) doc)
                (doc_text doc) (length pre)) as [Hid Htext].
  destruct (new_TextNode s _ (doc_text doc) (length pre)) as [s' node].
  simpl in Hid, Htext.
  rewrite chunk_docs_acc.
  destruct (chunk_docs rest cnt s' []) as [[s'' new]|e]; [|done].
  intros [= <- <-]. exists s, before, node.
  split; [done|]. split.
  - rewrite <- app_assoc. simpl. by apply list_lookup_middle.
  - split; [|done]. rewrite Hid. f_equal.
    unfold cnt. rewrite count_doc_lookup, decide_True by done. simpl.
    rewrite counts_after_lookup, lookup_empty. simpl. unfold ordinal. lia.
Qed.

(** C8.  When the resolved file list is empty [_get_nodes] returns at
    once without reading anything; when [_get_nodes] yields no files or
    no nodes, [load] and [aload] return normally having done nothing:
    no insertion call, no persisted storage context, no rewritten
    index metadata; and an asynchronous insert of no nodes returns
    normally having done none of these either. *)
Theorem C8_nothing_to_load_is_a_noop
    (file_path : PathArg) (filter_pattern : option str) (qa : bool) :
  (input_files file_path filter_pattern = [] →
   _get_nodes file_path filter_pattern qa = Ok None)
  ∧ (∀ r, _get_nodes file_path filter_pattern qa = Ok r →
          no_nodes r = true →
          load file_path filter_pattern qa = ([], Ok tt)
          ∧ aload file_path filter_pattern qa [] (Ok tt)
          ∧ ∀ ev out, aload file_path filter_pattern qa ev out →
                      ev = [] ∧ out = Ok tt)
  ∧ (∀ ev out, insert_nodes_async (@nil TextNode) ev out →
               out = Ok tt
               ∧ count is_issue ev = 0
               ∧ count is_persist ev = 0
               ∧ count is_keyword_sync ev = 0).
Proof.
  split; [|split].
  - intros Hfiles. unfold _get_nodes. by rewrite Hfiles.
  - intros r Hr Hnone. split; [|split].
    + unfold load. by rewrite Hr, Hnone.
    + by eapply aload_nothing.
    + intros ev out Hrun.
      destruct Hrun as [e He|r' Hr' _|r' ev e Hr' Hsome _
                       |r' ev ev' out Hr' Hsome _ _].
      * congruence.
      * done.
      * rewrite Hr in Hr'. injection Hr' as <-. congruence.
      * rewrite Hr in Hr'. injection Hr' as <-. congruence.
  - intros ev out Hrun.
    destruct Hrun as [_|? ? Hne _|? ? ? Hne _ _ _|? ? ? ? ? Hne _ _ _
                     |? ? ? ? ? Hne _ _ _];
      done.
Qed.

(** An insert that returned has handed every batch of the partition,
    embedded, to the vector store exactly once. *)
Lemma insert_ok_batches (nodes : list TextNode) ev :
  insert_nodes_async nodes ev (Ok tt) →
  ∀ k b, iter_batch nodes BATCH_SIZE !! k = Some b →
         ∃ b', get_node_with_embedding b = Ok b'
               ∧ added_batches k ev = [b'].
Proof.
  intros Hrun k b Hk.
  inversion Hrun as [Hn|?|ev0 batches s Hne Hemb Hreach Hdone Hev|?|?]; subst.
  - change (iter_batch [] BATCH_SIZE) with (@nil (list TextNode)) in Hk. done.
  - destruct (embed_batches_spec _ _ _ _ Hemb) as [Hev Hlen].
    specialize (Hlen batches eq_refl).
    pose proof (embed_batches_embedded _ _ _ _ Hemb) as Hall.
    destruct (greach_inv batches s Hreach) as [Hl _ _ _ _ _ _].
    destruct (Forall2_lookup_l _ _ _ _ _ Hall Hk) as (b' & Hb' & Hemb').
    exists b'. split; [done|].
    rewrite !added_batches_app, (added_inv batches s Hreach).
    rewrite (added_batches_none k ev0) by (by rewrite count_embed).
    rewrite all_done_lookup
      by (done || (rewrite Hl; by eapply lookup_lt_Some)).
    simpl. by rewrite Hb'.
Qed.

(** The batches handed over in any insert are embedded batches of the
    partition, at their positions. *)
Lemma insert_batches_embedded (nodes : list TextNode) ev out :
  insert_nodes_async nodes ev out →
  ∀ k b', EvAsyncAdd k b' ∈ ev →
          ∃ b, iter_batch nodes BATCH_SIZE !! k = Some b
               ∧ get_node_with_embedding b = Ok b'.
Proof.
  intros Hrun k b' Hin.
  assert (∀ ev0 batches s tail,
            embed_batches 0 (iter_batch nodes BATCH_SIZE) = (ev0, Ok batches) →
            greach batches s →
            count (is_async_add k) tail = 0 →
            EvAsyncAdd k b' ∈ ev0 ++ trace s ++ tail →
            ∃ b, iter_batch nodes BATCH_SIZE !! k = Some b
                 ∧ get_node_with_embedding b = Ok b') as Hgather.
  { intros ev0 batches s tail Hemb Hreach Htail Hin'.
    destruct (embed_batches_spec _ _ _ _ Hemb) as [Hev _].
    pose proof (embed_batches_embedded _ _ _ _ Hemb) as Hall.
    apply added_batches_elem in Hin'.
    rewrite !added_batches_app, (added_inv batches s Hreach) in Hin'.
    rewrite (added_batches_none k ev0) in Hin' by (by rewrite count_embed).
    rewrite (added_batches_none k tail) in Hin' by done.
    simpl in Hin'. rewrite app_nil_r in Hin'.
    destruct (expected_adds (tasks s !! k)); [by apply elem_of_nil in Hin'|].
    destruct (batches !! k) as [b0|] eqn:Hb0; [|by apply elem_of_nil in Hin'].
    apply list_elem_of_singleton in Hin' as ->.
    destruct (Forall2_lookup_r _ _ _ _ _ Hall Hb0) as (b & Hb & Hemb').
    by exists b. }
  destruct Hrun as [->|ev0 e Hne Hemb|ev0 batches s Hne Hemb Hreach Hdone
         |ev0 batches s k0 e Hne Hemb Hreach Hfail
         |ev0 batches s k0 e Hne Hemb Hreach Hfail].
  - apply list_elem_of_singleton in Hin. done.
  - destruct (embed_batches_spec _ _ _ _ Hemb) as [Hev _].
    apply added_batches_elem in Hin.
    rewrite (added_batches_none k ev0) in Hin by (by rewrite count_embed).
    by apply elem_of_nil in Hin.
  - by apply (Hgather ev0 batches s [EvAddIndexStruct]).
  - apply (Hgather ev0 batches s []); [done|done|done|].
    by rewrite app_nil_r.
  - apply (Hgather ev0 batches s []); [done|done|done|].
    by rewrite app_nil_r.
Qed.

(** C2.  In every asynchronous load, the nodes are cut, in order, into
    batches of 100 (only the last one can be shorter, none is empty; 25
    nodes make one batch); no batch is handed to the vector store
    twice, and what is handed over for a position is the embedded batch
    of that position.  A load of some nodes that returns normally has
    persisted the storage context, and before that has handed every
    batch, embedded, to the vector store in exactly one call that has
    returned; the keyword-index update comes after the persisting.
    Wherever the storage context is persisted, every batch has before
    that been handed to the vector store exactly once, one call per
    batch in all, and each call has returned, the keyword index has not
    been touched before, and no insertion event comes after.  And when
    every batch can be embedded, there is a run of the load that
    persists. *)
Theorem C2_batches_of_100_inserted_once_before_persist
    (file_path : PathArg) (filter_pattern : option str) (qa : bool)
    (r : option (list TextNode * store))
    (ev : list (Event TextNode)) (out : result unit) :
  _get_nodes file_path filter_pattern qa = Ok r →
  aload file_path filter_pattern qa ev out →
  let nodes := nodes_of r in
  let batches := iter_batch nodes 100 in
  concat batches = nodes
  ∧ (∀ k b, batches !! k = Some b →
            b = take 100 (drop (k * 100) nodes)
            ∧ 0 < length b ≤ 100
            ∧ (S k < length batches → length b = 100))
  ∧ (length nodes = 25 → batches = [nodes])
  ∧ (∀ k, count (is_async_add k) ev ≤ 1)
  ∧ (∀ k b', EvAsyncAdd k b' ∈ ev →
             ∃ b, batches !! k = Some b
                  ∧ get_node_with_embedding b = Ok b')
  ∧ (out = Ok tt → no_nodes r = false →
     ∃ pre post,
       ev = pre ++ EvPersist :: post
       ∧ (∀ k b, batches !! k = Some b →
            ∃ b', get_node_with_embedding b = Ok b'
                  ∧ added_batches k pre = [b']
                  ∧ count (is_added k) pre = 1)
       ∧ count is_issue pre = length batches
       ∧ post = if bm25_index
                then [EvBm25AddDocs nodes; EvWriteIndexMetadata]
                else [])
  ∧ (∀ pre post, ev = pre ++ EvPersist :: post →
       (∀ k, k < length batches →
             count (is_async_add k) pre = 1 ∧ count (is_added k) pre = 1)
       ∧ (∀ k, length batches ≤ k → count (is_async_add k) pre = 0)
       ∧ count is_issue pre = length batches
       ∧ count is_keyword_sync pre = 0
       ∧ count is_insertion post = 0)
  ∧ (no_nodes r = false →
     Forall (λ b, is_ok (get_node_with_embedding b) = true) batches →
     ∃ ev' out', aload file_path filter_pattern qa ev' out'
                 ∧ count is_persist ev' = 1).
Proof.
  intros Hr Hrun nodes batches.
  split; [by apply iter_batch_concat; lia|].
  split; [intros k b Hk; apply iter_batch_lookup; [lia|done]|].
  split; [intros H25; apply iter_batch_single; lia|].
  assert (no_nodes r = false →
          Forall (λ b, is_ok (get_node_with_embedding b) = true) batches →
          ∃ ev' out', aload file_path filter_pattern qa ev' out'
                      ∧ count is_persist ev' = 1) as Hexists.
  { intros Hsome Hall.
    destruct (embed_batches 0 (iter_batch (nodes_of r) BATCH_SIZE))
      as [ev0 [embedded|e]] eqn:Hemb.
    - destruct (gather_can_complete embedded) as (s & Hreach & Hdone).
      destruct (persist_and_sync (nodes_of r)) as [ev' out'] eqn:Hsync.
      destruct (persist_and_sync_events _ _ _ Hsync) as (tail & -> & Htail).
      assert (insert_nodes_async (nodes_of r)
                (ev0 ++ trace s ++ [EvAddIndexStruct]) (Ok tt)) as Hins.
      { eapply insert_joined; eauto. by apply no_nodes_false. }
      destruct (insert_nodes_async_events _ _ _ Hins) as (Hp & _).
      exists ((ev0 ++ trace s ++ [EvAddIndexStruct]) ++ EvPersist :: tail), out'.
      split; [by eapply aload_inserted|].
      rewrite count_app, Hp. simpl.
      rewrite (count_disjoint is_persist is_keyword_sync tail)
        by (done || by intros []).
      done.
    - exfalso. clear -Hemb Hall. subst batches nodes.
      change 100 with BATCH_SIZE in Hall.
      revert Hemb Hall. generalize 0.
      generalize (iter_batch (nodes_of r) BATCH_SIZE). revert ev0.
      intros ev0 bs. revert ev0.
      induction bs as [|b bs IH]; intros ev0 k; simpl; [done|].
      intros Hemb Hall. apply Forall_cons in Hall as [Hb Hall].
      destruct (get_node_with_embedding b) as [b'|e0]; [|done].
      destruct (embed_batches (S k) bs) as [ev1 [l|e1]] eqn:E; [done|].
      injection Hemb as _ ->. by eapply IH. }
  destruct Hrun as [e He|r' Hr' Hnone|r' ev e Hr' Hsome Hins
                   |r' ev ev' out Hr' Hsome Hins Hsync].
  - congruence.
  - rewrite Hr in Hr'. injection Hr' as <-.
    split; [intros k; simpl; lia|].
    split; [intros k b' Hin; by apply elem_of_nil in Hin|].
    split; [congruence|]. split; [by intros [|]|done].
  - rewrite Hr in Hr'. injection Hr' as <-.
    destruct (insert_nodes_async_events _ _ _ Hins)
      as (Hp & Hk & Hle & _ & _ & _).
    split; [done|].
    split; [by apply (insert_batches_embedded _ _ _ Hins)|].
    split; [done|]. split; [|done].
    intros pre post ->. exfalso.
    apply (count_zero_not_in is_persist _ EvPersist Hp); [done|].
    apply elem_of_app. right. apply elem_of_cons. by left.
  - rewrite Hr in Hr'. injection Hr' as <-.
    destruct (insert_nodes_async_events _ _ _ Hins)
      as (Hp & Hkw & Hle & Hout & Hall & Htotal).
    destruct (persist_and_sync_events _ _ _ Hsync) as (tail & -> & Htail).
    assert (count is_insertion tail = 0) as Hti.
    { apply (count_disjoint is_insertion is_keyword_sync); [done|by intros []]. }
    assert (count is_persist tail = 0) as Htp.
    { apply (count_disjoint is_persist is_keyword_sync); [done|by intros []]. }
    assert (∀ k, count (is_async_add k) tail = 0) as Hta.
    { intros k. apply (count_disjoint (is_async_add k) is_keyword_sync);
        [done|by intros []]. }
    split; [|split; [|split; [|split; [|done]]]].
    + intros k. rewrite count_app. simpl. rewrite Hta.
      specialize (Hle k). lia.
    + intros k b' Hin. apply (insert_batches_embedded _ _ _ Hins k b').
      apply elem_of_app in Hin as [Hin|Hin]; [done|]. exfalso.
      apply elem_of_cons in Hin as [Hin|Hin]; [done|].
      apply (count_zero_not_in (is_async_add k) tail (EvAsyncAdd k b'));
        [done| |done].
      simpl. by rewrite bool_decide_eq_true_2.
    + intros -> _. exists ev, tail. split; [done|]. split; [|split].
      * intros k b Hk.
        destruct (insert_ok_batches _ _ Hins k b Hk) as (b' & Hb' & Hadd).
        exists b'. split; [done|]. split; [done|].
        apply Hall; [done|]. by eapply lookup_lt_Some.
      * by apply Htotal.
      * unfold persist_and_sync in Hsync.
        destruct storage_persist as [[]|]; [|done].
        destruct bm25_index.
        -- destruct (bm25_add_docs _) as [[]|]; [|done].
           by injection Hsync as <-.
        -- by injection Hsync as <-.
    + intros pre post Hsplit.
      destruct (split_at_unique EvPersist ev tail pre post) as [<- <-];
        [by apply (count_zero_not_in is_persist)
        |by apply (count_zero_not_in is_persist)|done|].
      split; [by apply Hall|]. split; [done|]. split; [by apply Htotal|].
      done.
Qed.

(** C9.  Two runs of the node-building loop that meet the same
    unchunked document at the same per-source ordinal position give the
    node built for it the same identifier, the digest of that ordinal
    and the document, and the document's text. *)
Theorem C9_same_document_same_position_same_id
    (pre1 post1 pre2 post2 : list Document) (doc : Document)
    (st1 st2 : store) (nodes1 nodes2 : list TextNode) :
  needs_no_chunking doc = true →
  ordinal pre1 doc = ordinal pre2 doc →
  build (pre1 ++ doc :: post1) = Ok (st1, nodes1) →
  build (pre2 ++ doc :: post2) = Ok (st2, nodes2) →
  ∃ s1 before1 n1 s2 before2 n2,
    build_first (length pre1) (pre1 ++ doc :: post1) = Ok (s1, before1)
    ∧ nodes1 !! length before1 = Some n1
    ∧ build_first (length pre2) (pre2 ++ doc :: post2) = Ok (s2, before2)
    ∧ nodes2 !! length before2 = Some n2
    ∧ id_ n1 = id_ n2
    ∧ id_ n1 = node_id_hash (ordinal pre1 doc) doc
    ∧ text n1 = doc_text doc
    ∧ text n2 = doc_text doc.
Proof.
  intros Hdoc Hord H1 H2.
  destruct (build_unchunked pre1 post1 doc st1 nodes1 Hdoc H1)
    as (s1 & b1 & n1 & Hb1 & Hn1 & Hid1 & Ht1).
  destruct (build_unchunked pre2 post2 doc st2 nodes2 Hdoc H2)
    as (s2 & b2 & n2 & Hb2 & Hn2 & Hid2 & Ht2).
  exists s1, b1, n1, s2, b2, n2.
  repeat split; try done. by rewrite Hid1, Hid2, Hord.
Qed.

(** ** Question/answer nodes *)

Lemma new_TextNode_keeps (st : store) (i t : str) (l l' : loc) :
  l' < length st →
  length st ≤ length (new_TextNode st i t l).1
  ∧ deref (new_TextNode st i t l).1 l' = deref st l'.
Proof.
  intros Hl. unfold new_TextNode, deref.
  destruct metadata_copied_on_construction; simpl; [|done].
  rewrite length_app. split; [lia|]. by rewrite lookup_app_l.
Qed.

(** The loop over the pairs of one node leaves, in the node's own
    metadata, the answer of the last pair. *)
Lemma qa_items_overwrites_parent (node : TextNode)
    (items : list (str * str)) (q_cnt : nat) (st : store)
    (qa_nodes : list TextNode) (q a : str) :
  metadata node < length st →
  last items = Some (q, a) →
  deref (qa_items node items q_cnt st qa_nodes).1 (metadata node)
    !! lit "answer" = Some a.
Proof.
  revert q_cnt st qa_nodes.
  induction items as [|[q0 a0] items IH]; intros q_cnt st qa_nodes Hl Hlast;
    [done|].
  cbn [qa_items].
  set (st1 := set_answer st (metadata node) a0).
  assert (metadata node < length st1) as Hl1.
  { unfold st1, set_answer. by rewrite length_insert. }
  destruct (new_TextNode_keeps st1 (id_ node ++ lit "_" ++ str_of_nat q_cnt)
              q0 (metadata node) (metadata node) Hl1) as [Hlen Hsame].
  destruct (new_TextNode st1 _ q0 (metadata node)) as [st2 qa] eqn:E.
  simpl in Hlen, Hsame.
  destruct items as [|item items].
  - simpl in Hlast. injection Hlast as -> ->. simpl. rewrite Hsame.
    unfold st1, set_answer, deref.
    rewrite list_lookup_insert_eq by done. simpl. apply lookup_insert_eq.
  - apply IH; [lia|]. by rewrite last_cons_cons in Hlast.
Qed.

End LoaderLemmas.
End LoaderFacts.

Import Index IndexFacts DataLoader LoaderFacts.

Section LoaderExamples.
Import Scenario.

(** C1 at the failing input: one text file whose single node gets the
    pairs (Q1, A1) and (Q2, A2).  The two nodes built from the pairs have
    the identifiers and texts the claim gives, but the metadata of the
    parent node, which had no answer, now holds the answer A2, whether or
    not a node copies the mapping it is built with; and when it does not,
    the node of the first pair shows A2 as well. *)
Theorem C1_parent_metadata_is_overwritten :
  (∀ copied,
     id_text_of (one_text_file copied) 1 = Some (lit "n0_0", lit "Q1")
     ∧ id_text_of (one_text_file copied) 2 = Some (lit "n0_1", lit "Q2")
     ∧ answer_of (one_text_file copied) 2 = Some (lit "A2")
     ∧ answer_of (one_text_file copied) 0 = Some (lit "A2"))
  ∧ answer_of (one_text_file true) 1 = Some (lit "A1")
  ∧ answer_of (one_text_file false) 1 = Some (lit "A2").
Proof.
  split; [intros []; vm_compute; done|]. vm_compute. done.
Qed.

Lemma sheets_built :
  _get_nodes (C := loader_world true) sheets None false = Ok sheet_result.
Proof.
  assert (is_ok (_get_nodes (C := loader_world true) sheets None false) = true)
    as Hok by (vm_compute; reflexivity).
  unfold sheet_result.
  by destruct (_get_nodes (C := loader_world true) sheets None false).
Qed.

Lemma sheet_nodes_length : length (nodes_of sheet_result) = 25.
Proof. vm_compute. reflexivity. Qed.

(** The run of an insert whose nodes fit in one batch. *)
Lemma one_batch_inserted (nodes : list TextNode) :
  0 < length nodes ≤ BATCH_SIZE →
  insert_nodes_async (B := backend) nodes (one_batch_insertion nodes) (Ok tt).
Proof.
  intros Hlen.
  apply (insert_joined (B := backend) nodes [EvEmbed 0] [nodes]
           (MkG 10 [Done] [EvAsyncAdd 0 nodes; EvAdded 0])).
  - intros ->. simpl in Hlen. lia.
  - by rewrite iter_batch_single.
  - eapply rtc_l; [|eapply rtc_l; [|apply rtc_refl]].
    + apply (step_acquire (B := backend) [nodes] (ginit [nodes]) 0 nodes);
        [done|done|].
      simpl. unfold SEMAPHORE_WIDTH. lia.
    + apply (step_return (B := backend) [nodes]
               (MkG (10 - 1) [InFlight] [EvAsyncAdd 0 nodes]) 0).
      done.
  - repeat constructor.
Qed.

(** A load whose nodes fit in one batch, in the world of the examples. *)
Lemma one_batch_loaded (file_path : PathArg) (filter_pattern : option str)
    (qa : bool) (r : option (list TextNode * store)) :
  _get_nodes (C := loader_world true) file_path filter_pattern qa = Ok r →
  0 < length (nodes_of r) ≤ BATCH_SIZE →
  aload (C := loader_world true) (B := backend) file_path filter_pattern qa
        (one_batch_insertion (nodes_of r)
           ++ EvPersist :: keyword_sync (nodes_of r)) (Ok tt).
Proof.
  intros Hr Hlen.
  eapply (aload_inserted (C := loader_world true) (B := backend)
            file_path filter_pattern qa r (one_batch_insertion (nodes_of r))
            (EvPersist :: keyword_sync (nodes_of r)) (Ok tt)).
  - exact Hr.
  - destruct r as [[[|n l] st]|]; simpl in *; (lia || done).
  - by apply one_batch_inserted.
  - reflexivity.
Qed.

Lemma one_batch_reached (nodes : list TextNode) :
  greach (B := backend) [nodes] (one_batch_in_flight nodes).
Proof.
  eapply rtc_l; [|apply rtc_refl].
  apply (step_acquire (B := backend) [nodes] (ginit [nodes]) 0 nodes);
    [done|done|].
  simpl. unfold SEMAPHORE_WIDTH. lia.
Qed.

(** C2 at twenty-five spreadsheet files: one batch, one insertion call,
    issued and returned before the storage context is persisted. *)
Lemma C2_witness :
  iter_batch (nodes_of sheet_result) 100 = [nodes_of sheet_result]
  ∧ count is_issue (one_batch_insertion (nodes_of sheet_result)) = 1
  ∧ count (is_added 0) (one_batch_insertion (nodes_of sheet_result)) = 1
  ∧ count is_insertion (keyword_sync (nodes_of sheet_result)) = 0.
Proof.
  assert (0 < length (nodes_of sheet_result) ≤ BATCH_SIZE) as Hlen.
  { rewrite sheet_nodes_length. unfold BATCH_SIZE. lia. }
  destruct (C2_batches_of_100_inserted_once_before_persist
              (C := loader_world true) (B := backend)
              sheets None false sheet_result _ _ sheets_built
              (one_batch_loaded sheets None false sheet_result sheets_built Hlen))
    as (_ & _ & H25 & _ & _ & _ & Hsplit & _).
  destruct (Hsplit (one_batch_insertion (nodes_of sheet_result))
              (keyword_sync (nodes_of sheet_result)) eq_refl)
    as (Hall & _ & Htotal & _ & Hpost).
  specialize (H25 sheet_nodes_length).
  split; [exact H25|]. rewrite H25 in Htotal, Hall.
  split; [exact Htotal|]. split; [|exact Hpost].
  apply (Hall 0). simpl. lia.
Defined.

(** C3 while a single batch is in flight. *)
Lemma C3_witness :
  in_flight (one_batch_in_flight (nodes_of sheet_result)) ≤ SEMAPHORE_WIDTH.
Proof.
  exact (proj1 (C3_at_most_ten_batches_in_flight (B := backend)
                  [nodes_of sheet_result]
                  (one_batch_in_flight (nodes_of sheet_result))
                  (one_batch_reached (nodes_of sheet_result)))).
Defined.

(** C8 at an empty list of files. *)
Lemma C8_witness :
  load (C := loader_world true) (PathList []) None false = ([], Ok tt)
  ∧ aload (C := loader_world true) (B := backend) (PathList []) None false
          [] (Ok tt).
Proof.
  destruct (C8_nothing_to_load_is_a_noop
              (C := loader_world true) (B := backend) (PathList []) None false)
    as (_ & H & _).
  destruct (H None eq_refl eq_refl) as (Hload & Haload & _).
  split; [exact Hload|exact Haload].
Defined.

Lemma built_ok (docs : list Document) :
  is_ok (build (C := loader_world true) docs) = true →
  build (C := loader_world true) docs = Ok (store_built docs, nodes_built docs).
Proof.
  unfold store_built, nodes_built.
  by destruct (build (C := loader_world true) docs) as [[st nodes]|e].
Qed.

(** C9 at a spreadsheet met once after a text document and once first. *)
Lemma C9_witness :
  ∃ n1 n2,
    n1 ∈ nodes_built [note; sheet]
    ∧ n2 ∈ nodes_built [sheet; sheet]
    ∧ id_ n1 = id_ n2
    ∧ id_ n1 = lit "t.csv#1".
Proof.
  destruct (C9_same_document_same_position_same_id (C := loader_world true)
              [note] [] [] [sheet] sheet
              (store_built [note; sheet]) (store_built [sheet; sheet])
              (nodes_built [note; sheet]) (nodes_built [sheet; sheet])
              ltac:(vm_compute; reflexivity) ltac:(vm_compute; reflexivity)
              (built_ok [note; sheet] ltac:(vm_compute; reflexivity))
              (built_ok [sheet; sheet] ltac:(vm_compute; reflexivity)))
    as (s1 & b1 & n1 & s2 & b2 & n2 & _ & Hn1 & _ & Hn2 & Hid & Hhash & _).
  exists n1, n2.
  split; [by eapply list_elem_of_lookup_2|].
  split; [by eapply list_elem_of_lookup_2|].
  split; [exact Hid|]. rewrite Hhash. vm_compute. reflexivity.
Defined.

End LoaderExamples.

(* ===================================================================== *)
(** * More about the status ledger and the configuration reload *)
(* ===================================================================== *)

Module LedgerFacts.
Import PyFacts Service ServiceFacts Ledger.

Lemma startswith_same_length (a p x : str) :
  length a = length p → startswith (a ++ x) p = bool_decide (a = p).
Proof.
  revert p. induction a as [|c a IH]; intros [|d p] Hlen; try done.
  - rewrite bool_decide_eq_true_2 by done. by destruct x.
  - simpl in *. injection Hlen as Hlen. rewrite IH by done.
    unfold ch_eqb. destruct (decide (d = c)) as [->|Hne].
    + rewrite (bool_decide_eq_true_2 (c = c)) by done. simpl.
      apply bool_decide_ext. split; [by intros ->|by intros [= ->]].
    + rewrite (bool_decide_eq_false_2 (d = c)) by done. simpl.
      symmetry. apply bool_decide_eq_false_2. intros [= ? ?]. congruence.
Qed.

Lemma token_head (task_id : str) :
  is_token task_id = true →
  ∃ c t, task_id = c :: t ∧ isspace c = false.
Proof.
  intros Htok. destruct task_id as [|c t]; [done|].
  exists c, t. split; [done|].
  apply (token_no_space (c :: t)); [done|]. apply elem_of_cons. by left.
Qed.

(** Stripping a status line: the identifier's side is untouched, the
    newline and the trailing whitespace of the last field go. *)
Lemma strip_status_line (task_id rest : str) :
  is_token task_id = true → rstrip rest ≠ [] →
  strip (task_id ++ TAB :: rest ++ [LF]) = task_id ++ TAB :: rstrip rest.
Proof.
  intros Htok Hrest. destruct (token_head task_id Htok) as (c & t & -> & Hc).
  unfold strip. rewrite <- app_comm_cons, lstrip_nonspace by done.
  assert (c :: t ++ TAB :: rest ++ [LF] = (c :: t ++ [TAB]) ++ rest ++ [LF]) as ->.
  { flatten. done. }
  rewrite rstrip_app by (by rewrite rstrip_space_end by chars).
  rewrite rstrip_space_end by chars. flatten. done.
Qed.

(** The loop of the lookup on a line of the task itself. *)
Lemma scan_lines_own_line (task_id : str) (o : outcome) (rest : list str) :
  is_token task_id = true →
  match o with FailedWith detail => clean_detail detail | _ => True end →
  match scan_lines task_id (line_of task_id o :: rest) with
  | Ok (status, detail) => reply_of o = StatusDetail status detail
  | Raise _ => False
  end.
Proof.
  intros Htok Ho.
  assert (TAB ∉ task_id) as Htab by (by apply token_excludes).
  cbn [scan_lines].
  assert (startswith (line_of task_id o) task_id = true) as ->.
  { destruct o; unfold line_of, processing_line, completed_line, failed_line;
      apply startswith_app. }
  destruct o as [| |detail]; unfold line_of.
  - unfold processing_line.
    change (task_id ++ [TAB] ++ lit "processing" ++ [LF])
      with (task_id ++ TAB :: lit "processing" ++ [LF]).
    rewrite strip_status_line by done.
    rewrite split_app_sep by done. done.
  - unfold completed_line.
    change (task_id ++ [TAB] ++ lit "completed" ++ [LF])
      with (task_id ++ TAB :: lit "completed" ++ [LF]).
    rewrite strip_status_line by done.
    rewrite split_app_sep by done. done.
  - destruct Ho as (Hdt & Hdl & Hdc & Hne). unfold failed_line.
    assert (task_id ++ [TAB] ++ lit "failed" ++ [TAB] ++ detail ++ [LF]
            = task_id ++ TAB :: (lit "failed" ++ TAB :: detail) ++ [LF]) as ->.
    { flatten. done. }
    assert (rstrip (lit "failed" ++ TAB :: detail)
            = lit "failed" ++ TAB :: rstrip detail) as Hr.
    { change (lit "failed" ++ TAB :: detail)
        with ((lit "failed" ++ [TAB]) ++ detail).
      rewrite rstrip_app by done. flatten. done. }
    rewrite strip_status_line; [|done|by rewrite Hr].
    rewrite Hr, split_app_sep by done.
    rewrite (split_app_sep TAB (lit "failed")); cycle 1.
    { intros H. by repeat (apply elem_of_cons in H as [H|H]; [compute in H; done|]);
        apply elem_of_nil in H. }
    rewrite split_no_sep by (by apply rstrip_keeps_out). done.
Qed.

(** The body of a status line holds no line break when the record is
    well formed. *)
Lemma line_of_body (n : nat) (e : str * outcome) :
  well_formed n e →
  ∃ body, line_of e.1 e.2 = body ++ [LF] ∧ (CR ∉ body) ∧ (LF ∉ body).
Proof.
  intros (Htok & _ & Ho). destruct e as [task_id o]. simpl in *.
  assert ((CR ∉ task_id) ∧ (LF ∉ task_id)) as [Hc Hl]
    by (split; by apply token_excludes).
  destruct o as [| |detail]; unfold line_of.
  - exists (task_id ++ TAB :: lit "processing"). split; [|split].
    + unfold processing_line. flatten. done.
    + rewrite not_elem_of_app, not_elem_of_cons. repeat split; try done; try chars.
      intros H. by repeat (apply elem_of_cons in H as [H|H]; [compute in H; done|]);
        apply elem_of_nil in H.
    + rewrite not_elem_of_app, not_elem_of_cons. repeat split; try done; try chars.
      intros H. by repeat (apply elem_of_cons in H as [H|H]; [compute in H; done|]);
        apply elem_of_nil in H.
  - exists (task_id ++ TAB :: lit "completed"). split; [|split].
    + unfold completed_line. flatten. done.
    + rewrite not_elem_of_app, not_elem_of_cons. repeat split; try done; try chars.
      intros H. by repeat (apply elem_of_cons in H as [H|H]; [compute in H; done|]);
        apply elem_of_nil in H.
    + rewrite not_elem_of_app, not_elem_of_cons. repeat split; try done; try chars.
      intros H. by repeat (apply elem_of_cons in H as [H|H]; [compute in H; done|]);
        apply elem_of_nil in H.
  - destruct Ho as (Hdt & Hdl & Hdc & Hne).
    exists (task_id ++ TAB :: lit "failed" ++ TAB :: detail). split; [|split].
    + unfold failed_line. flatten. done.
    + rewrite not_elem_of_app, not_elem_of_cons, not_elem_of_app,
        not_elem_of_cons. repeat split; try done; try chars.
      intros H. by repeat (apply elem_of_cons in H as [H|H]; [compute in H; done|]);
        apply elem_of_nil in H.
    + rewrite not_elem_of_app, not_elem_of_cons, not_elem_of_app,
        not_elem_of_cons. repeat split; try done; try chars.
      intros H. by repeat (apply elem_of_cons in H as [H|H]; [compute in H; done|]);
        apply elem_of_nil in H.
Qed.

(** A ledger of well-formed records reads back line by line. *)
Lemma readlines_content (n : nat) (es : list (str * outcome)) :
  Forall (well_formed n) es →
  readlines (content es) = map (λ e, line_of e.1 e.2) es.
Proof.
  intros Hes. unfold readlines.
  assert (CR ∉ content es) as Hcr.
  { induction Hes as [|e es He _ IH]; [by intros ?%elem_of_nil|].
    unfold content. simpl. fold (content es).
    destruct (line_of_body n e He) as (body & -> & Hc & _).
    rewrite !not_elem_of_app, list_elem_of_singleton.
    repeat split; try done; try chars. }
  rewrite universal_newlines_id by done. clear Hcr.
  induction Hes as [|e es He _ IH]; [done|].
  unfold content. simpl. fold (content es).
  destruct (line_of_body n e He) as (body & -> & _ & Hl).
  rewrite <- app_assoc. simpl.
  rewrite keepends_app_newline, keepends_one_line by done.
  simpl. by rewrite IH.
Qed.

Lemma latest_status_to_reply (file : str) (task_id : str) :
  latest_status (Some file) task_id
  = to_reply (scan_lines task_id (rev (readlines file))).
Proof. unfold latest_status, to_reply. by destruct (scan_lines _ _) as [[? ?]|]. Qed.

Lemma to_reply_own_line (task_id : str) (o : outcome) (rest : list str) :
  is_token task_id = true →
  match o with FailedWith detail => clean_detail detail | _ => True end →
  to_reply (scan_lines task_id (line_of task_id o :: rest)) = Ok (reply_of o).
Proof.
  intros Htok Ho. pose proof (scan_lines_own_line task_id o rest Htok Ho) as H.
  destruct (scan_lines _ _) as [[status detail]|e]; [|done].
  simpl. by rewrite H.
Qed.

(** X1.  Over a status file made of records whose identifiers are
    whitespace-free tokens of one length and whose failure details hold
    no tab, no newline and no carriage return and are not blank, the
    lookup for a whitespace-free token of that length answers from the
    most recent record of exactly that task ([failed] with the detail
    stripped of trailing whitespace), and [unknown] without detail when
    the task has no record. *)
Theorem lookup_answers_from_latest_record_of_task
    (n : nat) (es : list (str * outcome)) (task_id : str) :
  Forall (well_formed n) es →
  is_token task_id = true →
  length task_id = n →
  latest_status (Some (content es)) task_id
  = Ok (match last (records_of task_id es) with
        | Some e => reply_of e.2
        | None => StatusDetail (lit "unknown") None
        end).
Proof.
  intros Hes Htok Hlen.
  rewrite latest_status_to_reply, (readlines_content n) by done.
  induction es as [|e es IH] using rev_ind; [done|].
  apply Forall_app in Hes as [Hes He]. rewrite Forall_singleton in He.
  rewrite map_app, rev_app_distr. simpl.
  unfold records_of. rewrite List.filter_app. simpl.
  fold (records_of task_id es).
  destruct He as (Hetok & Helen & Heo).
  destruct (decide (e.1 = task_id)) as [Heq|Hne].
  - rewrite bool_decide_eq_true_2 by done. rewrite last_snoc. rewrite Heq.
    by apply to_reply_own_line.
  - rewrite bool_decide_eq_false_2 by done. rewrite app_nil_r.
    cbn [scan_lines].
    assert (startswith (line_of e.1 e.2) task_id = false) as ->.
    { assert (∃ x, line_of e.1 e.2 = e.1 ++ x) as [x ->].
      { destruct (e.2); unfold line_of, processing_line, completed_line,
          failed_line; by eexists. }
      rewrite startswith_same_length by congruence.
      by apply bool_decide_eq_false_2. }
    by apply IH.
Qed.

(** The lookup on a file whose last two lines are the [processing]
    record and another record of the task. *)
Lemma latest_status_own_last (pre task_id : str) (o : outcome) :
  is_token task_id = true →
  match o with FailedWith detail => clean_detail detail | _ => True end →
  latest_status (Some (pre ++ processing_line task_id ++ line_of task_id o))
                task_id
  = Ok (reply_of o).
Proof.
  intros Htok Ho.
  destruct (line_of_body (length task_id) (task_id, o)) as (body & Hb & Hc & Hl);
    [done|]. simpl in Hb.
  rewrite latest_status_to_reply, Hb.
  assert (pre ++ processing_line task_id ++ body ++ [LF]
          = (pre ++ task_id ++ TAB :: lit "processing") ++ LF :: body ++ [LF])
    as ->.
  { unfold processing_line. flatten. done. }
  rewrite readlines_last_line; [|by rewrite app_assoc, last_app|done|done].
  rewrite rev_app_distr. simpl rev at 1. simpl app at 1.
  rewrite <- Hb. by apply to_reply_own_line.
Qed.

End LedgerFacts.

Import PyFacts Service ServiceFacts Ledger LedgerFacts ServiceVocabulary.

Section MoreServiceFacts.
Context `{C : Collaborators}.

(** X2.  After an ingestion that returned, a status lookup for its task
    identifier (a whitespace-free token) whose freshness check passes
    answers [completed] with no detail, whatever the status file held
    before. *)
Theorem completed_ingestion_is_reported
    (s s1 s3 : State) (task_id : str) (input_files : list str)
    (filter_pattern faiss_path : option str) (qa : bool) :
  check_updates s = (Ok tt, s1) →
  rag_aload_knowledge input_files filter_pattern faiss_path qa
  = Returned (Ok tt) →
  is_token task_id = true →
  let out :=
    add_knowledge_async task_id input_files filter_pattern faiss_path qa s in
  check_updates out.2 = (Ok tt, s3) →
  out.1 = Returned (Ok tt)
  ∧ (get_task_status task_id out.2).1
    = Ok (StatusDetail (lit "completed") None).
Proof.
  intros Hcheck Hload Htok out Hcheck'. subst out.
  destruct (check_updates_ok s s1 Hcheck) as (Hfile & _).
  rewrite (add_knowledge_async_after_check s s1) in * by done.
  rewrite Hload in *. simpl in *. split; [done|].
  erewrite get_task_status_after_check by exact Hcheck'. simpl.
  rewrite <- app_assoc.
  apply (latest_status_own_last _ task_id Completed); done.
Qed.

(** X3.  [initialize] leaves a service whose cached dictionary is the
    active snapshot's and whose ledger is empty: a status lookup that
    passes the freshness check answers [unknown] for every identifier,
    as the pair with no detail when a status file existed (it was
    truncated), as the bare status when none existed. *)
Theorem initialize_resets_the_ledger
    (config_file : str) (file : option str) (s s1 : State) (task_id : str) :
  (initialize config_file file).1 = Ok s →
  check_updates s = (Ok tt, s1) →
  consistent s
  ∧ (get_task_status task_id s).1
    = Ok (match file with
          | Some _ => StatusDetail (lit "unknown") None
          | None => StatusOnly (lit "unknown")
          end).
Proof.
  intros Hinit Hcheck. split; [by eapply initialize_consistent|].
  erewrite get_task_status_after_check by exact Hcheck.
  unfold initialize in Hinit.
  destruct (from_file config_file) as [cfg|]; [|done].
  destruct (get_config_mtime cfg); [|done].
  destruct (persist cfg); [|done].
  destruct (rag_initialize cfg); [|done].
  simpl in Hinit. injection Hinit as <-. simpl. by destruct file.
Qed.

(** How a reload ends, case by case. *)
Lemma reload_cases (new_config : option Patch) (s : State) :
  reload new_config s
  = match incoming new_config with
    | Raise e =>
        (Raise (reload_error e), after_calls s (incoming_calls new_config))
    | Ok snap =>
        if decide (config_dict_value s ≠ to_dict snap) then
          match rag_reload snap with
          | Raise e =>
              (Raise (reload_error e),
               after_calls s (incoming_calls new_config ++ [CallRagReload snap]))
          | Ok _ =>
              match persist snap with
              | Ok _ =>
                  (Ok tt,
                   switched_to snap s
                     (incoming_calls new_config
                        ++ [CallRagReload snap; CallPersist snap]))
              | Raise e =>
                  (Raise (reload_error e),
                   switched_to snap s
                     (incoming_calls new_config
                        ++ [CallRagReload snap; CallPersist snap]))
              end
          end
        else (Ok tt, after_calls s (incoming_calls new_config))
    end.
Proof.
  unfold incoming, incoming_calls, reload_error, after_calls, switched_to.
  run.
  destruct from_snapshot as [snap|e]; simpl; [|done].
  destruct new_config as [p|]; simpl.
  - destruct (truthy p); simpl.
    + destruct (update snap p) as [snap'|e]; simpl;
        [|by rewrite <- ?app_assoc].
      destruct (decide _); simpl; [|by rewrite <- ?app_assoc].
      destruct (rag_reload snap'); simpl; [|by rewrite <- ?app_assoc].
      destruct (persist snap') as [[]|]; simpl; by rewrite <- ?app_assoc.
    + destruct (decide _); simpl; [|done].
      destruct (rag_reload snap); simpl; [|by rewrite <- ?app_assoc].
      destruct (persist snap) as [[]|]; simpl; by rewrite <- ?app_assoc.
  - destruct (decide _); simpl; [|done].
    destruct (rag_reload snap); simpl; [|by rewrite <- ?app_assoc].
    destruct (persist snap) as [[]|]; simpl; by rewrite <- ?app_assoc.
Qed.

Lemma incoming_calls_quiet (new_config : option Patch) :
  Forall (λ c, is_downstream c = false) (incoming_calls new_config).
Proof.
  unfold incoming_calls. destruct from_snapshot; [|by repeat constructor].
  destruct new_config as [p|]; [|by repeat constructor].
  destruct (truthy p); by repeat constructor.
Qed.

(** X4.  A reload is idempotent: after a reload that returned, the same
    reload (the collaborators answering as before) returns again, calls
    neither the application's [reload] nor [persist], and leaves the
    service's fields as they are. *)
Theorem reload_is_idempotent (new_config : option Patch) (s s' : State) :
  reload new_config s = (Ok tt, s') →
  reload new_config s' = (Ok tt, after_calls s' (incoming_calls new_config))
  ∧ Forall (λ c, is_downstream c = false) (incoming_calls new_config).
Proof.
  intros Hfirst. split; [|apply incoming_calls_quiet].
  rewrite reload_cases in Hfirst. rewrite reload_cases.
  destruct (incoming new_config) as [snap|e]; [|done].
  assert (config_dict_value s' = to_dict snap) as Hdict.
  { destruct (decide (config_dict_value s ≠ to_dict snap)) as [Hd|Hd].
    - destruct (rag_reload snap); [|done].
      destruct (persist snap); [|done]. by injection Hfirst as <-.
    - injection Hfirst as <-. simpl.
      by destruct (decide (config_dict_value s = to_dict snap)). }
  by destruct (decide (config_dict_value s' ≠ to_dict snap)).
Qed.

(** X5.  A reload that raises raises a [UserInputError] whose message
    begins with ['Update RAG configuration failed: ']; the last-seen
    modification time and the status file are untouched; and unless the
    failure is that of [persist] after the switch, the active snapshot
    and the cached dictionary are still the previous ones. *)
Theorem reload_failure_keeps_previous_snapshot
    (new_config : option Patch) (s s' : State) (e : exc) :
  reload new_config s = (Raise e, s') →
  exc_cls e = UserInputError
  ∧ begins_with (lit "Update RAG configuration failed: ") (exc_msg e)
  ∧ config_modified_time s' = config_modified_time s
  ∧ task_status_file s' = task_status_file s
  ∧ ((rag_configuration s' = rag_configuration s
      ∧ config_dict_value s' = config_dict_value s)
     ∨ ∃ snap, incoming new_config = Ok snap
               ∧ is_ok (rag_reload snap) = true
               ∧ is_ok (persist snap) = false
               ∧ last (calls s') = Some (CallPersist snap)
               ∧ rag_configuration s' = snap
               ∧ config_dict_value s' = to_dict snap).
Proof.
  rewrite reload_cases.
  assert (∀ e0, begins_with (lit "Update RAG configuration failed: ")
                            (exc_msg (reload_error e0))) as Hmsg
    by (intros e0; by eexists).
  destruct (incoming new_config) as [snap|e0].
  - destruct (decide _); [|done].
    destruct (rag_reload snap) as [[]|e0] eqn:Hr.
    + destruct (persist snap) as [[]|e0] eqn:Hp; [done|].
      intros [= <- <-]. repeat split; try done. right. exists snap.
      repeat split; try done.
      * by rewrite Hr.
      * by rewrite Hp.
      * unfold switched_to. cbn [calls].
        rewrite app_comm_cons, app_assoc, last_app. reflexivity.
    + intros [= <- <-]. repeat split; try done. by left.
  - intros [= <- <-]. repeat split; try done. by left.
Qed.

(** X6.  How the entry points end.  A query that returns hands back the
    application's answer.  A query that raises an [Exception] raises a
    [UserInputError] whose message begins with ['Query RAG failed: '],
    whether the freshness check or the awaited call raised.  A query left
    by an exception that is no [Exception] is left by the one that
    interrupted the awaited call, unwrapped, and this happens only after
    the freshness check has returned.  Whatever goes wrong in
    [get_config] leaves it as a [ServiceError] whose message begins with
    ['Get RAG configuration failed: ']. *)
Theorem entry_points_wrap_errors
    (q : RagQuery) (ql : LlmQuery) (qr : RetrievalQuery) (s : State) :
  let wrapped (out : awaited Response * State) (answer : awaited Response) :=
    match out.1 with
    | Returned (Ok r) => answer = Returned (Ok r)
    | Returned (Raise e) =>
        exc_cls e = UserInputError
        ∧ begins_with (lit "Query RAG failed: ") (exc_msg e)
        ∧ ((∃ e0, (check_updates s).1 = Raise e0 ∧ e = query_failed e0)
           ∨ (∃ e0, answer = Returned (Raise e0) ∧ e = query_failed e0))
    | Interrupted b =>
        answer = Interrupted b ∧ (check_updates s).1 = Ok tt
    end in
  wrapped (aquery q s) (rag_aquery q)
  ∧ wrapped (aquery_llm ql s) (rag_aquery_llm ql)
  ∧ wrapped (aquery_retrieval qr s) (rag_aquery_retrieval qr)
  ∧ wrapped (aquery_agent ql s) (rag_aquery_agent ql)
  ∧ match (get_config s).1 with
    | Ok d => d = config_dict_value (get_config s).2
    | Raise e =>
        exc_cls e = ServiceError
        ∧ begins_with (lit "Get RAG configuration failed: ") (exc_msg e)
    end.
Proof.
  intros wrapped. subst wrapped.
  unfold aquery, aquery_llm, aquery_retrieval, aquery_agent.
  rewrite !guarded_query_steps.
  unfold get_config, try_except, mbind, M_bind, bind, get, ret, raise.
  destruct (check_updates s) as [[[]|e] s1]; simpl.
  - repeat split.
    + destruct (rag_aquery q) as [[r|e]|b]; simpl; [done| |done].
      split; [done|]. split; [by eexists|]. right. by eexists.
    + destruct (rag_aquery_llm ql) as [[r|e]|b]; simpl; [done| |done].
      split; [done|]. split; [by eexists|]. right. by eexists.
    + destruct (rag_aquery_retrieval qr) as [[r|e]|b]; simpl; [done| |done].
      split; [done|]. split; [by eexists|]. right. by eexists.
    + destruct (rag_aquery_agent ql) as [[r|e]|b]; simpl; [done| |done].
      split; [done|]. split; [by eexists|]. right. by eexists.
  - repeat split; try (by eexists); left; by eexists.
Qed.

(** X7.  The last-seen modification time after a freshness check: when
    the check returns it is the time just read; when the check raises
    (the time cannot be read, or the reload fails) it is unchanged, so
    the next operation will try the reload again.  The status file is
    never touched. *)
Theorem check_updates_records_time_only_on_success (s : State) :
  match check_updates s with
  | (Ok _, s') =>
      get_config_mtime (rag_configuration s) = Ok (config_modified_time s')
  | (Raise _, s') => config_modified_time s' = config_modified_time s
  end
  ∧ task_status_file (check_updates s).2 = task_status_file s.
Proof.
  split; [|by destruct (check_updates_cases s) as (? & _ & _ & ?)].
  unfold check_updates, mbind, M_bind, bind, get, call, ret,
    set_config_modified_time.
  destruct (get_config_mtime (rag_configuration s)) as [t|e]; [|done].
  destruct (decide (config_modified_time s ≠ t)) as [Hd|Hd].
  - rewrite reload_cases.
    destruct (incoming None) as [snap|e]; [|done].
    destruct (decide _); [|done].
    destruct (rag_reload snap); [|done].
    by destruct (persist snap).
  - simpl. f_equal. by destruct (decide (config_modified_time s = t)).
Qed.

(** X8.  The configuration read reflects the active snapshot: in a
    service whose cached dictionary is the active snapshot's,
    [get_config] returns the dictionary of the snapshot that is active
    when it returns (the new one if the check reloaded), and the cache
    stays in step. *)
Theorem get_config_returns_active_dictionary (s s' : State) (d : Dict) :
  consistent s →
  get_config s = (Ok d, s') →
  d = to_dict (rag_configuration s') ∧ consistent s'.
Proof.
  intros Hs. pose proof (check_updates_consistent s Hs) as Hc.
  unfold get_config, try_except, mbind, M_bind, bind, get, ret, raise.
  destruct (check_updates s) as [[[]|e] s1]; simpl in *; [|done].
  intros [= <- <-]. by split.
Qed.

(** X9.  The status endpoint after a freshness check that passed: with
    no status file it raises, because the bare status ['unknown'] does not
    unpack into two values; with a status file it answers the task
    identifier with the status and detail the lookup found, and raises
    what the lookup raises. *)
Theorem status_endpoint_needs_the_status_file
    (s s1 : State) (task_id : str) :
  check_updates s = (Ok tt, s1) →
  (Api.task_status task_id s).1
  = match task_status_file s with
    | None =>
        Raise (Exc OtherError (lit "too many values to unpack (expected 2)") None)
    | Some file =>
        match scan_lines task_id (rev (readlines file)) with
        | Ok (status, detail) => Ok (Api.MkUploadState task_id status detail)
        | Raise e => Raise e
        end
    end.
Proof.
  intros Hcheck.
  pose proof (get_task_status_after_check s s1 task_id Hcheck) as Hget.
  unfold Api.task_status.
  destruct (get_task_status task_id s) as [[value|e] s']; simpl in *.
  - destruct (task_status_file s) as [file|]; simpl in Hget.
    + destruct (scan_lines _ _) as [[status detail]|e]; [|done].
      by injection Hget as ->.
    + by injection Hget as ->.
  - destruct (task_status_file s) as [file|]; simpl in Hget; [|done].
    destruct (scan_lines _ _) as [[status detail]|e']; [done|].
    by injection Hget as ->.
Qed.

End MoreServiceFacts.

(** X10.  The tokens of a streamed response can be recovered from what
    the client receives by splitting at the delimiter, provided no token
    contains the delimiter: the split gives the tokens in order, followed
    by one empty piece. *)
Theorem streamed_tokens_are_recoverable (tokens : list str) :
  Forall (λ token, Api.NUL ∉ token) tokens →
  split Api.NUL (Api.received (Api.event_generator tokens)) = tokens ++ [[]].
Proof.
  unfold Api.received, Api.event_generator.
  induction 1 as [|token tokens Htoken _ IH]; [done|].
  simpl. rewrite <- app_assoc. simpl. rewrite split_app_sep by done.
  by rewrite IH.
Qed.

Section MoreServiceExamples.
Import Scenario Scenario2.

Lemma three_tasks_well_formed : Forall (well_formed 4) three_tasks.
Proof.
  repeat constructor; try done.
  all: try (intros H;
            by repeat (apply elem_of_cons in H as [H|H]; [compute in H; done|]);
              apply elem_of_nil in H).
Qed.

(** X1 on a ledger of three tasks: the task that failed after it was
    started is reported as failed. *)
Lemma lookup_answers_from_latest_record_of_task_witness :
  latest_status (Some (content three_tasks)) (lit "7f3a")
  = Ok (StatusDetail (lit "failed") (Some (lit "bad file: None"))).
Proof.
  exact (lookup_answers_from_latest_record_of_task 4 three_tasks (lit "7f3a")
           three_tasks_well_formed eq_refl eq_refl).
Defined.

(** X2 at an ingestion that returns in a quiet world. *)
Lemma completed_ingestion_is_reported_witness :
  (get_task_status task1
     (add_knowledge_async task1 [] None None false fresh_working).2).1
  = Ok (StatusDetail (lit "completed") None).
Proof.
  exact (proj2 (completed_ingestion_is_reported
                  fresh_working (logged CallGetConfigMtime fresh_working)
                  (check_updates
                     (add_knowledge_async task1 [] None None false
                        fresh_working).2).2
                  task1 [] None None false eq_refl eq_refl eq_refl eq_refl)).
Defined.

(** X3 at a start with an old status file. *)
Lemma initialize_resets_the_ledger_witness :
  ∃ s, (@initialize working_world (lit "settings.toml")
          (Some (completed_line task1))).1 = Ok s
       ∧ (get_task_status task1 s).1 = Ok (StatusDetail (lit "unknown") None).
Proof.
  eexists. split; [reflexivity|].
  refine (proj2 (initialize_resets_the_ledger (C := working_world)
                   (lit "settings.toml") (Some (completed_line task1))
                   _ _ task1 eq_refl eq_refl)).
Defined.

(** X4 at a persisted snapshot that differs from the active one. *)
Lemma reload_is_idempotent_witness :
  reload None (reload None fresh_changed).2
  = (Ok tt, after_calls (reload None fresh_changed).2 [CallFromSnapshot]).
Proof.
  exact (proj1 (reload_is_idempotent None fresh_changed
                  (reload None fresh_changed).2 eq_refl)).
Defined.

(** X5 at a persisted snapshot that cannot be read. *)
Lemma reload_failure_keeps_previous_snapshot_witness :
  (reload None fresh_lost).1 = Raise (reload_error lost_snapshot)
  ∧ config_modified_time (reload None fresh_lost).2
    = config_modified_time fresh_lost.
Proof.
  split; [reflexivity|].
  exact (proj1 (proj2 (proj2
           (reload_failure_keeps_previous_snapshot None fresh_lost
              (reload None fresh_lost).2 (reload_error lost_snapshot)
              eq_refl)))).
Defined.

(** X8 at a persisted snapshot that differs from the active one. *)
Lemma get_config_returns_active_dictionary_witness :
  5 = @to_dict changed_world
        (rag_configuration (get_config fresh_changed).2).
Proof.
  exact (proj1 (get_config_returns_active_dictionary fresh_changed
                  (get_config fresh_changed).2 5 eq_refl eq_refl)).
Defined.

(** X9 before any ingestion has created the status file. *)
Lemma status_endpoint_needs_the_status_file_witness :
  (Api.task_status task1 fresh_working).1
  = Raise (Exc OtherError (lit "too many values to unpack (expected 2)") None).
Proof.
  exact (status_endpoint_needs_the_status_file
           fresh_working (logged CallGetConfigMtime fresh_working) task1
           eq_refl).
Defined.

(** X10 at two tokens. *)
Lemma streamed_tokens_are_recoverable_witness :
  split Api.NUL
    (Api.received (Api.event_generator [lit "Hello"; lit " world"]))
  = [lit "Hello"; lit " world"; []].
Proof.
  apply (streamed_tokens_are_recoverable [lit "Hello"; lit " world"]).
  repeat constructor;
    (intros H;
     by repeat (apply elem_of_cons in H as [H|H]; [compute in H; done|]);
       apply elem_of_nil in H).
Defined.

End MoreServiceExamples.



(* ===================================================================== *)
(** * Further facts about the index: number and order of the events *)
(* ===================================================================== *)

Module IndexOrderFacts.
Import Index IndexFacts IndexVocabulary.

(** The number of batches is the number of nodes divided by the batch
    size, rounded up. *)
Lemma iter_batch_length {A} (l : list A) (size : nat) :
  0 < size → length (iter_batch l size) = (length l + size - 1) / size.
Proof.
  intros Hsize. unfold iter_batch.
  destruct (iter_batch_fuel_length size (S (length l)) l) as [H1 H2];
    [lia|done|].
  set (n := length (iter_batch_fuel (S (length l)) l size)) in *.
  apply Nat.div_unique with (r := length l + size - 1 - n * size); nia.
Qed.

Lemma count_started_waiting (ts : list task) :
  count is_started ts + count is_waiting ts = length ts.
Proof. induction ts as [|[] ts IH]; simpl; lia. Qed.

Section Order.
Context {Node : Type} `{B : Backend Node}.
Implicit Types (batches : list (list Node)) (s : gstate Node).

Lemma step_counts batches s s' :
  gstep batches s s' → steps_taken s' = S (steps_taken s).
Proof.
  intros [s0 k b Hk Hb Hpos|s0 k Hk|s0 k e Hk|s0 k b n e Hk Hb Hreg Hn];
    unfold steps_taken; simpl;
    rewrite !count_app, ?after_add_count by done; simpl; lia.
Qed.

Lemma nsteps_counts batches (m : nat) s s' :
  nsteps (gstep batches) m s s' → steps_taken s' = m + steps_taken s.
Proof.
  induction 1 as [|m s1 s2 s3 Hstep _ IH]; [done|].
  rewrite IH, (step_counts _ _ _ Hstep). lia.
Qed.

(** X11.  Every schedule of the gather over [n] batches is a run of at
    most [2 * n] steps: each step issues one [async_add] call or ends
    one, a run of [m] steps has issued and ended [m] calls in all, and
    [m] plus twice the number of waiting batches plus the number of
    batches in flight is [2 * n].  So the gather cannot go on for ever,
    and no batch is tried again after its call has ended. *)
Theorem gather_runs_at_most_two_steps_per_batch batches (m : nat) s :
  nsteps (gstep batches) m (ginit batches) s →
  steps_taken s = m
  ∧ m + 2 * count is_waiting (tasks s) + in_flight s = 2 * length batches
  ∧ m ≤ 2 * length batches
  ∧ (m = 2 * length batches → ∀ s', ¬ gstep batches s s').
Proof.
  intros Hrun.
  pose proof (nsteps_counts _ _ _ _ Hrun) as Hm.
  change (steps_taken (ginit batches)) with 0 in Hm. rewrite Nat.add_0_r in Hm.
  assert (greach batches s) as Hreach by (by eapply rtc_nsteps_2).
  destruct (greach_inv batches s Hreach) as [Hlen _ Hout Hiss _ _ _].
  pose proof (count_started_waiting (tasks s)) as Hsw.
  unfold steps_taken in Hm.
  assert (m + 2 * count is_waiting (tasks s) + in_flight s
          = 2 * length batches) as Hsum by lia.
  split; [done|]. split; [done|]. split; [lia|].
  intros Hfull s' Hstep.
  assert (nsteps (gstep batches) (S m) (ginit batches) s') as Hrun'.
  { by eapply nsteps_r. }
  pose proof (nsteps_counts _ _ _ _ Hrun') as Hm'.
  change (steps_taken (ginit batches)) with 0 in Hm'.
  assert (greach batches s') as Hreach' by (by eapply rtc_nsteps_2).
  destruct (greach_inv batches s' Hreach') as [_ _ Hout' Hiss' _ _ _].
  pose proof (count_started_waiting (tasks s')) as Hsw'.
  destruct (greach_inv batches s' Hreach') as [Hlen' _ _ _ _ _ _].
  unfold steps_taken in Hm'. lia.
Qed.

Lemma registered_inv batches s :
  greach batches s →
  ∀ k, count (is_registered k) (trace s)
       = if registers then expected_registered (tasks s !! k) else 0.
Proof.
  unfold greach. revert s.
  apply (rtc_ind_r (λ s, ∀ k, count (is_registered k) (trace s)
           = if registers then expected_registered (tasks s !! k) else 0)).
  - intros k. simpl.
    destruct (replicate (length batches) Waiting !! k) as [t|] eqn:E;
      [|by destruct registers].
    apply lookup_replicate in E as [-> _]. by destruct registers.
  - intros s1 s2 _ Hstep IH j. specialize (IH j).
    destruct Hstep as [s k b Hk Hb Hpos|s k Hk|s k e Hk|s k b n e Hk Hb Hreg Hn];
      simpl; rewrite !count_app, IH; unfold after_add, registers;
      destruct (negb stores_text || store_nodes_override); simpl;
      try lia;
      (destruct (decide (k = j)) as [->|Hne];
       [rewrite list_lookup_insert_eq by (by eapply lookup_lt_Some);
        rewrite Hk, ?bool_decide_eq_true_2 by done; done
       |rewrite list_lookup_insert_ne by done;
        rewrite ?bool_decide_eq_false_2 by done; lia]).
Qed.

Lemma failed_inv batches s :
  greach batches s →
  ∀ k, count (is_add_failed k) (trace s) = expected_failed (tasks s !! k).
Proof.
  unfold greach. revert s.
  apply (rtc_ind_r (λ s, ∀ k, count (is_add_failed k) (trace s)
                              = expected_failed (tasks s !! k))).
  - intros k. simpl.
    destruct (replicate (length batches) Waiting !! k) as [t|] eqn:E;
      [|done]. by apply lookup_replicate in E as [-> _].
  - intros s1 s2 _ Hstep IH j. specialize (IH j).
    destruct Hstep as [s k b Hk Hb Hpos|s k Hk|s k e Hk|s k b n e Hk Hb Hreg Hn];
      simpl;
      rewrite count_app, ?after_add_count, IH by done; simpl;
      (destruct (decide (k = j)) as [->|Hne];
       [rewrite list_lookup_insert_eq by (by eapply lookup_lt_Some);
        rewrite Hk, ?bool_decide_eq_true_2 by done; done
       |rewrite list_lookup_insert_ne by done;
        rewrite ?bool_decide_eq_false_2 by done; lia]).
Qed.

Lemma broken_inv batches s :
  greach batches s →
  ∀ k, count (is_registration_raised k) (trace s)
       = expected_broken (tasks s !! k)
       ∧ (expected_broken (tasks s !! k) = 1 → registers = true).
Proof.
  unfold greach. revert s.
  apply (rtc_ind_r (λ s, ∀ k, count (is_registration_raised k) (trace s)
                              = expected_broken (tasks s !! k)
                              ∧ (expected_broken (tasks s !! k) = 1 →
                                 registers = true))).
  - intros k. simpl.
    destruct (replicate (length batches) Waiting !! k) as [t|] eqn:E;
      [|done]. by apply lookup_replicate in E as [-> _].
  - intros s1 s2 _ Hstep IH j. destruct (IH j) as [IH1 IH2].
    destruct Hstep as [s k b Hk Hb Hpos|s k Hk|s k e Hk|s k b n e Hk Hb Hreg Hn];
      simpl;
      rewrite count_app, ?after_add_count, IH1 by done; simpl;
      (destruct (decide (k = j)) as [->|Hne];
       [rewrite list_lookup_insert_eq by (by eapply lookup_lt_Some);
        rewrite Hk, ?bool_decide_eq_true_2 by done; done
       |rewrite list_lookup_insert_ne by done;
        rewrite ?bool_decide_eq_false_2 by done;
        split; [lia|done]]).
Qed.

(** X12.  In every state of the gather: the registration loop of a
    batch has run to its end exactly when the coroutine of the batch is
    done and the vector store keeps no text or the override is set; it
    was left by an exception exactly when the coroutine has ended by an
    exception after its [async_add] returned, which happens only when
    the vector store keeps no text or the override is set; the
    [async_add] of the batch has failed exactly when the coroutine has
    ended by the exception of [async_add]; and with registration
    switched on, every return of [async_add] is followed by a
    registration loop that ends or raises. *)
Theorem registration_follows_store_flags batches s (k : nat) :
  greach batches s →
  count (is_registered k) (trace s)
  = (if registers then expected_registered (tasks s !! k) else 0)
  ∧ count (is_registered k) (trace s) ≤ 1
  ∧ count (is_registration_raised k) (trace s)
    = expected_broken (tasks s !! k)
  ∧ (0 < count (is_registration_raised k) (trace s) → registers = true)
  ∧ count (is_add_failed k) (trace s) = expected_failed (tasks s !! k)
  ∧ (registers = true →
     count (is_added k) (trace s)
     = count (is_registered k) (trace s)
       + count (is_registration_raised k) (trace s))
  ∧ count (is_added k) (trace s) + count (is_add_failed k) (trace s)
    ≤ count (is_async_add k) (trace s).
Proof.
  intros Hreach.
  pose proof (registered_inv batches s Hreach k) as Hreg.
  pose proof (failed_inv batches s Hreach k) as Hfail.
  destruct (broken_inv batches s Hreach k) as [Hbroken Hflag].
  destruct (greach_inv batches s Hreach) as [_ _ _ _ _ Hadds Hadded].
  rewrite Hreg, Hfail, Hbroken, Hadds, Hadded.
  split; [done|].
  split; [destruct registers, (tasks s !! k) as [[]|]; simpl; lia|].
  split; [done|].
  split; [intros Hpos; apply Hflag; destruct (tasks s !! k) as [[]|];
          simpl in *; lia|].
  split; [done|].
  split; [intros ->; destruct (tasks s !! k) as [[]|]; simpl; lia|].
  destruct (tasks s !! k) as [[]|]; simpl; lia.
Qed.

(** ** Embedding comes first *)

Lemma embeddings_S (k m : nat) :
  @embeddings Node k (S m) = EvEmbed k :: embeddings (S k) m.
Proof. reflexivity. Qed.

Lemma count_embeddings (p : Event Node → bool) (k m : nat) :
  (∀ j, p (EvEmbed j) = false) → count p (embeddings k m) = 0.
Proof.
  intros Hp. revert k. induction m as [|m IH]; intros k; [done|].
  rewrite embeddings_S. simpl. rewrite Hp, IH. done.
Qed.

Lemma count_is_embed (k m : nat) :
  count is_embed (@embeddings Node k m) = m.
Proof.
  revert k. induction m as [|m IH]; intros k; [done|].
  rewrite embeddings_S. simpl. by rewrite IH.
Qed.

(** The embedding loop embeds the batches in order, from the first one
    up to the one whose embedding raises, or all of them. *)
Lemma embed_batches_events (k : nat) (bs : list (list Node)) ev r :
  embed_batches k bs = (ev, r) →
  ∃ m, ev = embeddings k m
       ∧ m ≤ length bs
       ∧ (is_ok r = true → m = length bs)
       ∧ (∀ e, r = Raise e →
            ∃ b, 0 < m ∧ bs !! (m - 1) = Some b
                 ∧ get_node_with_embedding b = Raise e).
Proof.
  revert k ev r. induction bs as [|b bs IH]; intros k ev r; simpl.
  - intros [= <- <-]. exists 0. split; [done|]. split; [done|]. split; [done|]. done.
  - destruct (get_node_with_embedding b) as [b'|e] eqn:Eb.
    + destruct (embed_batches (S k) bs) as [ev' r'] eqn:E.
      destruct (IH _ _ _ E) as (m & -> & Hm & Hok & Hraise).
      intros [= <- <-]. exists (S m).
      split; [by rewrite embeddings_S|]. split; [lia|]. split.
      * destruct r' as [l|e]; [|done]. intros _. f_equal. by apply Hok.
      * intros e. destruct r' as [l|e']; [done|]. intros [= <-].
        destruct (Hraise e' eq_refl) as (b0 & Hpos & Hb0 & He).
        exists b0. split; [lia|]. split; [|done].
        replace (S m - 1) with (S (m - 1)) by lia. done.
    + intros [= <- <-]. exists 1. split; [done|]. split; [lia|].
      split; [done|]. intros e' [= <-]. exists b. split; [lia|]. by split.
Qed.

Lemma count_trace (p : Event Node → bool) batches s :
  greach batches s →
  (∀ e, is_insertion e = true → p e = false) →
  count p (trace s) = 0.
Proof.
  intros Hreach Hp.
  destruct (greach_inv batches s Hreach) as [_ _ _ _ Hkind _ _].
  by apply (count_disjoint p is_insertion).
Qed.

(** X13.  The events of an asynchronous insert begin with the embedding
    of the batches, in order and each at most once; nothing is embedded
    after that.  When the embedding of a batch raises (also of the last
    or the only batch), the insert raises that exception and its events
    end there: no batch is handed to the vector store and the index
    structure is not stored.  Anything else happens only once every
    batch has been embedded. *)
Theorem embedding_completes_before_insertion
    (nodes : list Node) ev out :
  insert_nodes_async nodes ev out →
  ∃ m rest,
    ev = embeddings 0 m ++ rest
    ∧ m ≤ length (iter_batch nodes BATCH_SIZE)
    ∧ count is_embed rest = 0
    ∧ match (embed_batches 0 (iter_batch nodes BATCH_SIZE)).2 with
      | Raise e =>
          rest = [] ∧ out = Raise e
          ∧ count is_issue ev = 0 ∧ count is_index_struct ev = 0
          ∧ ∃ b, 0 < m
                 ∧ iter_batch nodes BATCH_SIZE !! (m - 1) = Some b
                 ∧ get_node_with_embedding b = Raise e
      | Ok _ => m = length (iter_batch nodes BATCH_SIZE)
      end
    ∧ (rest ≠ [] → m = length (iter_batch nodes BATCH_SIZE))
    ∧ (m < length (iter_batch nodes BATCH_SIZE) →
       is_ok out = false
       ∧ count is_issue ev = 0
       ∧ count is_index_struct ev = 0).
Proof.
  intros [->|ev0 e Hne Hemb|ev0 batches s Hne Hemb Hreach Hdone
         |ev0 batches s k0 e Hne Hemb Hreach Hfail
         |ev0 batches s k0 e Hne Hemb Hreach Hfail].
  - exists 0, [EvAddIndexStruct].
    change (iter_batch [] BATCH_SIZE) with (@nil (list Node)). simpl.
    repeat split; (done || lia).
  - destruct (embed_batches_events _ _ _ _ Hemb)
      as (m & -> & Hm & _ & Hraise).
    destruct (Hraise e eq_refl) as (b & Hpos & Hb & Hbe).
    exists m, []. rewrite app_nil_r, Hemb. simpl.
    split; [done|]. split; [done|]. split; [done|]. split.
    { rewrite !count_embeddings by done. repeat split; try done.
      by exists b. }
    split; [done|].
    intros _. split; [done|]. by rewrite !count_embeddings.
  - destruct (embed_batches_events _ _ _ _ Hemb) as (m & -> & Hm & Hok & _).
    specialize (Hok eq_refl).
    exists m, (trace s ++ [EvAddIndexStruct]). rewrite Hemb. simpl.
    split; [done|]. split; [done|]. split.
    { rewrite count_app, (count_trace is_embed batches) by (done || by intros []).
      done. }
    split; [done|]. split; [done|]. lia.
  - destruct (embed_batches_events _ _ _ _ Hemb) as (m & -> & Hm & Hok & _).
    specialize (Hok eq_refl).
    exists m, (trace s). rewrite Hemb. simpl.
    split; [done|]. split; [done|]. split.
    { by rewrite (count_trace is_embed batches) by (done || by intros []). }
    split; [done|]. split; [done|]. lia.
  - destruct (embed_batches_events _ _ _ _ Hemb) as (m & -> & Hm & Hok & _).
    specialize (Hok eq_refl).
    exists m, (trace s). rewrite Hemb. simpl.
    split; [done|]. split; [done|]. split.
    { by rewrite (count_trace is_embed batches) by (done || by intros []). }
    split; [done|]. split; [done|]. lia.
Qed.

Lemma count_failure_none (tr : list (Event Node)) :
  (∀ k, count (is_add_failed k) tr = 0) → count is_failure tr = 0.
Proof.
  induction tr as [|x tr IH]; [done|]. intros Hk. simpl.
  destruct x; simpl;
    try (apply IH; intros j; specialize (Hk j); simpl in Hk; lia).
  specialize (Hk k). simpl in Hk.
  rewrite bool_decide_eq_true_2 in Hk by done. lia.
Qed.

Lemma count_failed_le (k : nat) (tr : list (Event Node)) :
  count (is_add_failed k) tr ≤ count is_failure tr.
Proof.
  induction tr as [|x tr IH]; [done|]. simpl.
  destruct x; simpl; try lia. destruct (bool_decide _); lia.
Qed.

Lemma count_registration_failure_none (tr : list (Event Node)) :
  (∀ k, count (is_registration_raised k) tr = 0) →
  count is_registration_failure tr = 0.
Proof.
  induction tr as [|x tr IH]; [done|]. intros Hk. simpl.
  destruct x; simpl;
    try (apply IH; intros j; specialize (Hk j); simpl in Hk; lia).
  specialize (Hk k). simpl in Hk.
  rewrite bool_decide_eq_true_2 in Hk by done. lia.
Qed.

(** In a gather that is done nothing has failed. *)
Lemma all_done_no_failure batches s :
  greach batches s → all_done s →
  count is_failure (trace s) = 0
  ∧ count is_registration_failure (trace s) = 0.
Proof.
  intros Hreach Hdone.
  assert (∀ k, tasks s !! k = None ∨ tasks s !! k = Some Done) as Hk.
  { intros k. destruct (tasks s !! k) as [t|] eqn:Ek; [|by left]. right.
    unfold all_done in Hdone. rewrite Forall_forall in Hdone.
    rewrite (Hdone t); [done|]. by eapply list_elem_of_lookup_2. }
  split.
  - apply count_failure_none. intros k.
    rewrite (failed_inv batches s Hreach). by destruct (Hk k) as [->| ->].
  - apply count_registration_failure_none. intros k.
    destruct (broken_inv batches s Hreach k) as [-> _].
    by destruct (Hk k) as [->| ->].
Qed.

(** X14.  An asynchronous insert that returns normally (also one of no
    nodes at all) has stored the index structure exactly once, as its
    last event, and no [async_add] has failed and no registration loop
    has raised in it.  When the embedding of a batch raises, an
    [async_add] has failed or a registration loop has raised, the
    insert raises and the index structure is not stored. *)
Theorem index_struct_stored_once_on_success
    (nodes : list Node) ev out :
  insert_nodes_async nodes ev out →
  (is_ok out = true →
   count is_index_struct ev = 1
   ∧ last ev = Some EvAddIndexStruct
   ∧ count is_failure ev = 0
   ∧ count is_registration_failure ev = 0
   ∧ is_ok (embed_batches 0 (iter_batch nodes BATCH_SIZE)).2 = true)
  ∧ (is_ok (embed_batches 0 (iter_batch nodes BATCH_SIZE)).2 = false
     ∨ 0 < count is_failure ev
     ∨ 0 < count is_registration_failure ev →
     is_ok out = false ∧ count is_index_struct ev = 0).
Proof.
  intros [->|ev0 e Hne Hemb|ev0 batches s Hne Hemb Hreach Hdone
         |ev0 batches s k0 e Hne Hemb Hreach Hfail
         |ev0 batches s k0 e Hne Hemb Hreach Hfail].
  - change (iter_batch [] BATCH_SIZE) with (@nil (list Node)). simpl.
    split; [done|]. intros [H|[H|H]]; (done || lia).
  - destruct (embed_batches_events _ _ _ _ Hemb) as (m & -> & _).
    rewrite Hemb. simpl. split; [done|]. intros _.
    by rewrite count_embeddings.
  - destruct (embed_batches_events _ _ _ _ Hemb) as (m & -> & _).
    destruct (all_done_no_failure batches s Hreach Hdone) as [Hf Hr].
    rewrite Hemb. simpl.
    rewrite !count_app, !count_embeddings, Hf, Hr by done.
    rewrite (count_trace is_index_struct batches) by (done || by intros []).
    simpl. split.
    + intros _. split; [done|]. split; [|done].
      by rewrite app_assoc, last_snoc.
    + intros [H|[H|H]]; (done || lia).
  - destruct (embed_batches_events _ _ _ _ Hemb) as (m & -> & _).
    rewrite Hemb. simpl. split; [done|]. intros _. split; [done|].
    rewrite !count_app, !count_embeddings by done.
    by rewrite (count_trace is_index_struct batches) by (done || by intros []).
  - destruct (embed_batches_events _ _ _ _ Hemb) as (m & -> & _).
    rewrite Hemb. simpl. split; [done|]. intros _. split; [done|].
    rewrite !count_app, !count_embeddings by done.
    by rewrite (count_trace is_index_struct batches) by (done || by intros []).
Qed.

(** The counts of an insert that returned normally. *)
Lemma insert_ok_counts (nodes : list Node) ev :
  insert_nodes_async nodes ev (Ok tt) →
  count is_embed ev = length (iter_batch nodes BATCH_SIZE)
  ∧ count is_finish ev = length (iter_batch nodes BATCH_SIZE)
  ∧ count is_index_struct ev = 1.
Proof.
  intros Hrun.
  destruct (insert_nodes_async_events _ _ _ Hrun) as (_ & _ & _ & _ & _ & Hiss).
  specialize (Hiss eq_refl).
  inversion Hrun as [->|?|ev0 batches s Hne Hemb Hreach Hdone Hev|?|?]; subst.
  - change (iter_batch [] BATCH_SIZE) with (@nil (list Node)). done.
  - destruct (embed_batches_events _ _ _ _ Hemb) as (m & -> & _ & Hm & _).
    specialize (Hm eq_refl).
    destruct (greach_inv batches s Hreach) as [_ _ Hout _ _ _ _].
    assert (in_flight s = 0) as Hz.
    { unfold in_flight. apply count_none.
      eapply Forall_impl; [exact Hdone|]. by intros t ->. }
    rewrite !count_app, count_is_embed, !count_embeddings in * by done.
    rewrite (count_trace is_embed batches) by (done || by intros []).
    rewrite (count_trace is_index_struct batches) by (done || by intros []).
    simpl in *. lia.
Qed.

(** X15.  An asynchronous insert of [n] nodes that returns normally has
    embedded, handed to the vector store and seen return exactly
    [ceil(n / 100)] batches. *)
Theorem successful_insert_counts_batches (nodes : list Node) ev :
  insert_nodes_async nodes ev (Ok tt) →
  let n := (length nodes + 99) / 100 in
  length (iter_batch nodes BATCH_SIZE) = n
  ∧ count is_embed ev = n
  ∧ count is_issue ev = n
  ∧ count is_finish ev = n.
Proof.
  intros Hrun n.
  assert (length (iter_batch nodes BATCH_SIZE) = n) as Hn.
  { rewrite iter_batch_length by (unfold BATCH_SIZE; lia).
    unfold BATCH_SIZE, n. f_equal. lia. }
  destruct (insert_nodes_async_events _ _ _ Hrun) as (_ & _ & _ & _ & _ & Hiss).
  destruct (insert_ok_counts _ _ Hrun) as (Hemb & Hfin & _).
  rewrite Hemb, Hfin, (Hiss eq_refl). done.
Qed.

End Order.
End IndexOrderFacts.

(* ===================================================================== *)
(** * Further facts about the loader *)
(* ===================================================================== *)

Module LoaderMoreFacts.
Import Index IndexFacts IndexVocabulary IndexOrderFacts.
Import DataLoader LoaderFacts LoaderVocabulary.

(** ** File types *)

Lemma from_last_dot_none (s : str) :
  from_last_dot s = None ↔ "."%char ∉ s.
Proof.
  induction s as [|c s IH]; simpl.
  - split; [intros _; apply not_elem_of_nil|done].
  - destruct (from_last_dot s) as [e|].
    + split; [done|]. intros Hc. apply not_elem_of_cons in Hc as [_ Hs].
      by apply IH in Hs.
    + unfold ch_eqb. case_bool_decide as Hc.
      * split; [done|]. intros H. exfalso. apply H. subst. by left.
      * split; [|done]. intros _. apply not_elem_of_cons.
        split; [congruence|by apply IH].
Qed.

Lemma from_last_dot_some (s e : str) :
  from_last_dot s = Some e →
  ∃ stem rest, s = stem ++ e ∧ e = "."%char :: rest ∧ "."%char ∉ rest.
Proof.
  revert e. induction s as [|c s IH]; intros e; simpl; [done|].
  destruct (from_last_dot s) as [e0|] eqn:E.
  - intros [= <-]. destruct (IH e0 eq_refl) as (stem & rest & -> & -> & Hr).
    by exists (c :: stem), rest.
  - unfold ch_eqb. case_bool_decide as Hc; [|done]. intros [= <-]. subst c.
    exists [], s. split; [done|]. split; [done|]. by apply from_last_dot_none.
Qed.

Lemma basename_acc_spec (acc s : str) :
  "/"%char ∉ acc →
  ∃ pre, rev acc ++ s = pre ++ basename_acc acc s
         ∧ "/"%char ∉ basename_acc acc s.
Proof.
  revert acc. induction s as [|c s IH]; intros acc Hacc; simpl.
  - exists []. rewrite app_nil_r. split; [done|].
    intros Hin. apply Hacc. apply list_elem_of_In, in_rev.
    by apply list_elem_of_In.
  - unfold ch_eqb. case_bool_decide as Hc.
    + destruct (IH [] (not_elem_of_nil _)) as (pre & Hpre & Hno).
      simpl in Hpre. exists (rev acc ++ c :: pre). split; [|done].
      rewrite <- app_assoc. simpl. by rewrite <- Hpre.
    + destruct (IH (c :: acc)) as (pre & Hpre & Hno).
      { apply not_elem_of_cons. split; [congruence|done]. }
      exists pre. split; [|done]. simpl in Hpre.
      by rewrite <- app_assoc in Hpre.
Qed.

Lemma basename_spec (s : str) :
  ∃ pre, s = pre ++ basename s ∧ "/"%char ∉ basename s.
Proof. apply (basename_acc_spec [] s). apply not_elem_of_nil. Qed.

Lemma drop_dots_spec (s : str) : ∃ dots, s = dots ++ drop_dots s.
Proof.
  induction s as [|c s [dots IH]]; simpl; [by exists []|].
  destruct (ch_eqb c "."); [|by exists []].
  exists (c :: dots). simpl. by f_equal.
Qed.

(** The extension is empty exactly when the last path component has no
    dot after its leading dots; otherwise it is the rest of the path from
    its last dot, and holds no further dot and no slash. *)
Lemma splitext_ext_shape (p : str) :
  (splitext_ext p = [] ↔ "."%char ∉ drop_dots (basename p))
  ∧ (splitext_ext p ≠ [] →
     ∃ rest, splitext_ext p = "."%char :: rest
             ∧ ("."%char ∉ rest) ∧ ("/"%char ∉ rest)
             ∧ ends_with p (splitext_ext p)).
Proof.
  unfold splitext_ext.
  destruct (from_last_dot (drop_dots (basename p))) as [e|] eqn:E; simpl.
  - destruct (from_last_dot_some _ _ E) as (stem & rest & Hs & -> & Hr).
    split.
    + split; [done|]. intros Hno. apply from_last_dot_none in Hno. congruence.
    + intros _. exists rest. split; [done|]. split; [done|].
      destruct (basename_spec p) as (pre & Hp & Hslash).
      destruct (drop_dots_spec (basename p)) as [dots Hd].
      split.
      * intros Hin. apply Hslash. rewrite Hd, Hs.
        apply elem_of_app. right. apply elem_of_app. right.
        apply elem_of_cons. by right.
      * exists (pre ++ dots ++ stem).
        rewrite Hp at 1. rewrite Hd at 1. rewrite Hs.
        by rewrite <- !app_assoc.
  - split; [|done]. split; [|done]. intros _. by apply from_last_dot_none.
Qed.

Section More.
Context `{C : Collaborators} `{B : Backend TextNode}.

(** X16.  The file type of a document is the extension of its
    [file_name]: [.txt] when the metadata has no [file_name], empty
    when the last path component has no dot after its leading dots, and
    otherwise the end of the name from its last dot on, with no further
    dot and no slash.  So a document is kept unchunked only if it has a
    [file_name] that ends with one of the five extensions. *)
Theorem file_type_is_the_last_extension (m : dict) :
  (m !! lit "file_name" = None → _extract_file_type m = lit ".txt")
  ∧ (∀ name, m !! lit "file_name" = Some name →
       (_extract_file_type m = [] ↔ "."%char ∉ drop_dots (basename name))
       ∧ (_extract_file_type m ≠ [] →
          ∃ rest, _extract_file_type m = "."%char :: rest
                  ∧ ("."%char ∉ rest) ∧ ("/"%char ∉ rest)
                  ∧ ends_with name (_extract_file_type m)))
  ∧ (∀ doc, doc_metadata doc = m → needs_no_chunking doc = true →
       ∃ name e, m !! lit "file_name" = Some name
                 ∧ e ∈ DOC_TYPES_DO_NOT_NEED_CHUNKING
                 ∧ ends_with name e).
Proof.
  split; [|split].
  - intros Hnone. unfold _extract_file_type. rewrite Hnone.
    vm_compute. reflexivity.
  - intros name Hname. unfold _extract_file_type. rewrite Hname. simpl.
    apply splitext_ext_shape.
  - intros doc <- Hdoc. unfold needs_no_chunking in Hdoc.
    apply bool_decide_eq_true in Hdoc.
    unfold _extract_file_type in Hdoc.
    destruct (doc_metadata doc !! lit "file_name") as [name|] eqn:Hname.
    + simpl in Hdoc. exists name, (splitext_ext name).
      split; [done|]. split; [done|].
      destruct (splitext_ext_shape name) as [_ Hshape].
      destruct Hshape as (rest & _ & _ & _ & Hend); [|done].
      intros E. rewrite E in Hdoc. revert Hdoc. clear.
      intros Hin. repeat (apply elem_of_cons in Hin as [Hin|Hin]; [done|]).
      by apply elem_of_nil in Hin.
    + exfalso. simpl in Hdoc. revert Hdoc.
      change (splitext_ext (lit "dummy.txt")) with (lit ".txt").
      intros Hin. repeat (apply elem_of_cons in Hin as [Hin|Hin]; [done|]).
      by apply elem_of_nil in Hin.
Qed.

(** X17.  [_get_nodes] gives the answer that there is nothing to load
    exactly when no input file is left after resolving the path: for a
    list, when none of its entries is a regular file; for a single path
    that is not a directory never, whether or not the path exists. *)
Theorem nothing_to_load_iff_no_input_file
    (file_path : PathArg) (filter_pattern : option str) (qa : bool) :
  (_get_nodes file_path filter_pattern qa = Ok None
   ↔ input_files file_path filter_pattern = [])
  ∧ (∀ fs, file_path = PathList fs →
       (_get_nodes file_path filter_pattern qa = Ok None
        ↔ Forall (λ f, isfile f = false) fs))
  ∧ (∀ p, file_path = PathStr p → isdir p = false →
       _get_nodes file_path filter_pattern qa ≠ Ok None).
Proof.
  assert (_get_nodes file_path filter_pattern qa = Ok None
          ↔ input_files file_path filter_pattern = []) as Hiff.
  { unfold _get_nodes. case_bool_decide as Hlen.
    - split; [|done]. intros _. by apply length_zero_iff_nil.
    - split.
      + destruct (load_data _) as [docs|e]; [|done].
        destruct (build docs) as [[st nodes]|e]; [|done].
        destruct qa; [|done].
        by destruct (run_extractors _ _ _ _) as [[st' qa_nodes]|e].
      + intros E. rewrite E in Hlen. done. }
  split; [done|]. split.
  - intros fs ->. rewrite Hiff. simpl. clear.
    induction fs as [|f fs IH]; simpl; [done|].
    destruct (isfile f) eqn:Ef.
    + split; [done|]. intros H. apply Forall_cons in H as [H _]. congruence.
    + rewrite IH. split; [by constructor|]. by intros [_ H]%Forall_cons.
  - intros p -> Hdir. rewrite Hiff. simpl. by rewrite Hdir.
Qed.


(** ** Documents that are not chunked *)

Lemma deref_app_l (st ext : store) (l : loc) :
  l < length st → deref (st ++ ext) l = deref st l.
Proof. intros Hl. unfold deref. by rewrite lookup_app_l. Qed.

Lemma new_TextNode_spec (st : store) (i t : str) (l : loc) :
  l < length st →
  ∃ ext n, new_TextNode st i t l = (st ++ ext, n)
           ∧ id_ n = i ∧ text n = t ∧ excludes_nothing n
           ∧ metadata n < length (st ++ ext)
           ∧ deref (st ++ ext) (metadata n) = deref st l
           ∧ (if metadata_copied_on_construction
              then metadata n = length st ∧ ext = [deref st l]
              else metadata n = l ∧ ext = []).
Proof.
  intros Hl. unfold new_TextNode.
  destruct metadata_copied_on_construction.
  - exists [deref st l]. eexists. split; [done|]. simpl.
    repeat split; try done.
    + rewrite length_app. simpl. lia.
    + unfold deref at 1. rewrite lookup_app_r by lia.
      by rewrite Nat.sub_diag.
  - exists []. eexists. rewrite app_nil_r. split; [done|]. simpl.
    by repeat split.
Qed.

Lemma counts_after_cons (cnt : gmap str nat) (d : Document)
    (docs : list Document) :
  counts_after cnt (d :: docs)
  = counts_after (if needs_no_chunking d then count_doc cnt (doc_key d)
                  else cnt) docs.
Proof. reflexivity. Qed.

Lemma chunk_docs_unchunked (docs : list (Document * loc))
    (cnt : gmap str nat) (st : store) (nodes : list TextNode) :
  Forall (λ dl, needs_no_chunking dl.1 = true ∧ dl.2 < length st) docs →
  ∃ ext new,
    chunk_docs docs cnt st nodes = Ok (st ++ ext, nodes ++ new)
    ∧ length new = length docs
    ∧ ∀ i d l, docs !! i = Some (d, l) →
        ∃ n, new !! i = Some n
             ∧ text n = doc_text d
             ∧ id_ n = node_id_hash
                 (default 0 (counts_after cnt (take (S i) (map fst docs))
                               !! doc_key d)) d
             ∧ excludes_nothing n
             ∧ deref (st ++ ext) (metadata n) = deref st l.
Proof.
  revert cnt st nodes. induction docs as [|[d l] docs IH];
    intros cnt st nodes Hdocs.
  - exists [], []. rewrite !app_nil_r. split; [done|]. split; [done|].
    by intros i d l.
  - apply Forall_cons in Hdocs as [[Hd Hl] Hdocs]. simpl in Hd, Hl.
    cbn [chunk_docs]. unfold needs_no_chunking in Hd. rewrite Hd.
    fold (doc_key d).
    set (cnt' := count_doc cnt (doc_key d)).
    destruct (new_TextNode_spec st
                (node_id_hash (default 0 (cnt' !! doc_key d)) d)
                (doc_text d) l Hl)
      as (ext1 & n & -> & Hid & Htext & Hex & Hm & Hderef & _).
    destruct (IH cnt' (st ++ ext1) (nodes ++ [n])) as (ext & new & -> & Hlen & Hnew).
    { eapply Forall_impl; [exact Hdocs|]. intros [d' l'] [H1 H2].
      split; [done|]. simpl in *. rewrite length_app. lia. }
    exists (ext1 ++ ext), (n :: new).
    split; [by rewrite <- !app_assoc|]. split; [simpl; lia|].
    intros [|i] d0 l0 Hi; simpl in Hi.
    + injection Hi as <- <-. exists n. split; [done|]. split; [done|].
      split.
      { rewrite Hid. cbn [map take fst]. rewrite counts_after_cons.
        fold (needs_no_chunking d) in Hd. rewrite Hd. done. }
      split; [done|].
      rewrite app_assoc, deref_app_l by done. done.
    + destruct (Hnew i d0 l0 Hi) as (n0 & Hn0 & Ht0 & Hid0 & Hex0 & Hd0).
      exists n0. split; [done|]. split; [done|]. split.
      { rewrite Hid0. cbn [map take fst]. rewrite counts_after_cons.
        fold (needs_no_chunking d) in Hd. rewrite Hd. done. }
      split; [done|].
      rewrite app_assoc, Hd0. apply deref_app_l.
      rewrite Forall_forall in Hdocs.
      apply (Hdocs (d0, l0)). by eapply list_elem_of_lookup_2.
Qed.

Lemma with_locations_lookup (docs : list Document) (i : nat) (d : Document) :
  docs !! i = Some d → with_locations docs !! i = Some (d, i).
Proof.
  intros Hi. unfold with_locations. rewrite list_lookup_imap, Hi. done.
Qed.

Lemma with_locations_elem (docs : list Document) (d : Document) (l : loc) :
  (d, l) ∈ with_locations docs → docs !! l = Some d.
Proof.
  intros Hin. apply list_elem_of_lookup_1 in Hin as [i Hi].
  unfold with_locations in Hi. rewrite list_lookup_imap in Hi.
  destruct (docs !! i) as [d'|] eqn:E; [|done].
  simpl in Hi. by injection Hi as -> ->.
Qed.

(** X18.  When every document of the reader has one of the file types
    that are not chunked, the node-building loop cannot raise (no
    parser is involved), and yields one node per document, in the order
    of the documents: the node has the document's text, the identifier
    derived from the document and its ordinal position among the
    documents of the same [file_path] so far, the document's metadata,
    and nothing excluded. *)
Theorem unchunked_documents_make_one_node_each (docs : list Document) :
  Forall (λ d, needs_no_chunking d = true) docs →
  ∃ st nodes,
    build docs = Ok (st, nodes)
    ∧ length nodes = length docs
    ∧ ∀ i d, docs !! i = Some d →
        ∃ n, nodes !! i = Some n
             ∧ text n = doc_text d
             ∧ id_ n = node_id_hash (ordinal (take i docs) d) d
             ∧ deref st (metadata n) = doc_metadata d
             ∧ excludes_nothing n.
Proof.
  intros Hdocs. unfold build.
  destruct (chunk_docs_unchunked (with_locations docs) ∅
              (map doc_metadata docs) [])
    as (ext & new & Hrun & Hlen & Hnew).
  { apply Forall_forall. intros [d l] Hin.
    apply with_locations_elem in Hin. simpl. split.
    - rewrite Forall_forall in Hdocs. apply Hdocs.
      by eapply list_elem_of_lookup_2.
    - rewrite length_map. by eapply lookup_lt_Some. }
  exists (map doc_metadata docs ++ ext), new.
  split; [exact Hrun|]. split; [by rewrite Hlen, with_locations_length|].
  intros i d Hi.
  destruct (Hnew i d i (with_locations_lookup _ _ _ Hi))
    as (n & Hn & Ht & Hid & Hex & Hd).
  exists n. split; [done|]. split; [done|]. split; [|split; [|done]].
  - rewrite Hid, with_locations_fst. f_equal.
    rewrite (take_S_r docs i d Hi).
    unfold counts_after. rewrite fold_left_app. simpl.
    fold (counts_after ∅ (take i docs)).
    rewrite Forall_forall in Hdocs.
    rewrite (Hdocs d) by (by eapply list_elem_of_lookup_2).
    rewrite count_doc_lookup, decide_True by done. simpl.
    rewrite counts_after_lookup, lookup_empty. simpl. unfold ordinal. lia.
  - rewrite Hd. unfold deref. rewrite list_lookup_fmap, Hi. done.
Qed.


(** ** Question/answer nodes *)

Lemma set_answer_length (st : store) (l : loc) (a : str) :
  length (set_answer st l a) = length st.
Proof. unfold set_answer. apply length_insert. Qed.

Lemma set_answer_same (st : store) (l : loc) (a : str) :
  l < length st →
  deref (set_answer st l a) l = <[lit "answer" := a]> (deref st l).
Proof.
  intros Hl. unfold set_answer. unfold deref at 1.
  by rewrite list_lookup_insert_eq.
Qed.

Lemma set_answer_other (st : store) (l l' : loc) (a : str) :
  l' ≠ l → deref (set_answer st l a) l' = deref st l'.
Proof.
  intros Hne. unfold set_answer, deref.
  by rewrite list_lookup_insert_ne.
Qed.

(** The nodes made from the pairs of one node: as many as pairs, in
    their order, numbered from [q_cnt] on, with the question as
    text. *)
Lemma qa_items_labels (node : TextNode) (items : list (str * str))
    (q_cnt : nat) (st : store) (qa_nodes : list TextNode) :
  ∃ st' new,
    qa_items node items q_cnt st qa_nodes = (st', qa_nodes ++ new)
    ∧ length new = length items
    ∧ length st ≤ length st'
    ∧ (items = [] → st' = st)
    ∧ Forall excludes_nothing new
    ∧ ∀ k q a, items !! k = Some (q, a) →
        ∃ n, new !! k = Some n
             ∧ id_ n = qa_id node (q_cnt + k) ∧ text n = q.
Proof.
  revert q_cnt st qa_nodes.
  induction items as [|[q0 a0] items IH]; intros q_cnt st qa_nodes.
  - exists st, []. rewrite app_nil_r. repeat split; try done.
  - cbn [qa_items].
    set (st1 := set_answer st (metadata node) a0).
    pose proof (new_TextNode_fields st1
                  (id_ node ++ lit "_" ++ str_of_nat q_cnt) q0
                  (metadata node)) as [Hid Htext].
    assert (length st ≤ length (new_TextNode st1
              (id_ node ++ lit "_" ++ str_of_nat q_cnt) q0
              (metadata node)).1
            ∧ excludes_nothing (new_TextNode st1
              (id_ node ++ lit "_" ++ str_of_nat q_cnt) q0
              (metadata node)).2) as [Hlen Hex].
    { unfold new_TextNode. destruct metadata_copied_on_construction; simpl.
      - rewrite length_app. unfold st1. rewrite set_answer_length.
        split; [lia|done].
      - unfold st1. rewrite set_answer_length. split; [lia|done]. }
    destruct (new_TextNode st1 _ q0 (metadata node)) as [st2 n].
    simpl in Hid, Htext, Hlen, Hex.
    destruct (IH (S q_cnt) st2 (qa_nodes ++ [n]))
      as (st' & new & -> & Hn & Hl & _ & Hall & Hnew).
    exists st', (n :: new).
    split; [by rewrite <- app_assoc|]. split; [simpl; lia|].
    split; [lia|]. split; [done|]. split; [by constructor|].
    intros [|k] q a Hk; simpl in Hk.
    + injection Hk as <- <-. exists n. split; [done|].
      split; [|done]. by rewrite Nat.add_0_r.
    + destruct (Hnew k q a Hk) as (n' & Hn' & Hid' & Ht').
      exists n'. split; [done|]. split; [|done].
      by replace (q_cnt + S k) with (S q_cnt + k) by lia.
Qed.

(** What the loop over the pairs of one node does to the store. *)
Lemma qa_items_store (node : TextNode) (items : list (str * str))
    (q_cnt : nat) (st : store) (qa_nodes : list TextNode) :
  metadata node < length st →
  ∃ st' new,
    qa_items node items q_cnt st qa_nodes = (st', qa_nodes ++ new)
    ∧ length st ≤ length st'
    ∧ (items = [] → st' = st)
    ∧ (∀ l, l < length st → l ≠ metadata node → deref st' l = deref st l)
    ∧ (∀ q a, last items = Some (q, a) →
         deref st' (metadata node)
         = <[lit "answer" := a]> (deref st (metadata node)))
    ∧ ∀ k q a, items !! k = Some (q, a) →
        ∃ n, new !! k = Some n
             ∧ if metadata_copied_on_construction
               then metadata n ≠ metadata node
                    ∧ deref st' (metadata n)
                      = <[lit "answer" := a]> (deref st (metadata node))
               else metadata n = metadata node.
Proof.
  revert q_cnt st qa_nodes.
  induction items as [|[q0 a0] items IH]; intros q_cnt st qa_nodes Hm.
  - exists st, []. rewrite app_nil_r. repeat split; try done.
  - cbn [qa_items].
    set (st1 := set_answer st (metadata node) a0).
    assert (length st1 = length st) as Hlen1.
    { unfold st1. by rewrite set_answer_length. }
    assert (metadata node < length st1) as Hm1 by lia.
    destruct (new_TextNode_spec st1
                (id_ node ++ lit "_" ++ str_of_nat q_cnt) q0
                (metadata node) Hm1)
      as (ext1 & n & -> & _ & _ & _ & Hn & Hderef & Hflag).
    assert (metadata node < length (st1 ++ ext1)) as Hm2.
    { rewrite length_app. lia. }
    assert (deref (st1 ++ ext1) (metadata node)
            = <[lit "answer" := a0]> (deref st (metadata node))) as Hparent.
    { rewrite deref_app_l by done. by apply set_answer_same. }
    destruct (IH (S q_cnt) (st1 ++ ext1) (qa_nodes ++ [n]) Hm2)
      as (st' & new & -> & Hl & Hnil & Hother & Hlast & Hnew).
    exists st', (n :: new).
    split; [by rewrite <- app_assoc|]. split.
    { rewrite length_app in Hl. lia. }
    split; [done|]. split.
    { intros l Hl1 Hne. rewrite Hother; [|rewrite length_app; lia|done].
      rewrite deref_app_l by lia. by apply set_answer_other. }
    split.
    { intros q a Hq. destruct items as [|item items].
      - simpl in Hq. injection Hq as <- <-. by rewrite (Hnil eq_refl).
      - rewrite last_cons_cons in Hq.
        rewrite (Hlast q a Hq), Hparent. apply insert_insert_eq. }
    intros [|k] q a Hk; simpl in Hk.
    + injection Hk as <- <-. exists n. split; [done|].
      destruct metadata_copied_on_construction; [|by destruct Hflag].
      destruct Hflag as [Hloc ->]. split; [lia|].
      rewrite Hother; [|lia|lia].
      rewrite Hderef. by apply set_answer_same.
    + destruct (Hnew k q a Hk) as (n' & Hn' & Hflag').
      exists n'. split; [done|].
      destruct metadata_copied_on_construction; [|done].
      destruct Hflag' as [Hne' ->]. split; [done|].
      rewrite Hparent. apply insert_insert_eq.
Qed.

(** X19.  The loop over the question/answer pairs of one node makes
    one node per pair, in the order of the pairs: the [k]-th has the
    identifier [{node.id_}_{k}] and the question as text.  Each pair's
    answer is written into the metadata of the node itself, so the
    node ends with the answer of the last pair; a node made from a pair
    shows its own answer when the constructor copies the mapping it is
    given, and the answer of the last pair when it keeps the object.
    No other metadata entry and no other mapping is changed. *)
Theorem qa_nodes_of_one_node (node : TextNode) (items : list (str * str))
    (st : store) (ql al : str) :
  metadata node < length st →
  last items = Some (ql, al) →
  ∃ st' new,
    qa_items node items 0 st [] = (st', new)
    ∧ length new = length items
    ∧ deref st' (metadata node)
      = <[lit "answer" := al]> (deref st (metadata node))
    ∧ (∀ l, l < length st → l ≠ metadata node → deref st' l = deref st l)
    ∧ ∀ k q a, items !! k = Some (q, a) →
        ∃ n, new !! k = Some n
             ∧ id_ n = qa_id node k
             ∧ text n = q
             ∧ excludes_nothing n
             ∧ deref st' (metadata n)
               = <[lit "answer" :=
                     if metadata_copied_on_construction then a else al]>
                   (deref st (metadata node)).
Proof.
  intros Hm Hlast.
  destruct (qa_items_store node items 0 st [] Hm)
    as (st' & new & Hrun & _ & _ & Hother & Hparent & Hnew).
  destruct (qa_items_labels node items 0 st [])
    as (st'' & new'' & Hrun' & Hlen & _ & _ & Hex & Hlab).
  rewrite Hrun in Hrun'. injection Hrun' as <- <-.
  simpl in Hrun. exists st', new.
  split; [done|]. split; [done|]. split; [by apply (Hparent ql)|].
  split; [done|].
  intros k q a Hk.
  destruct (Hnew k q a Hk) as (n & Hn & Hflag).
  destruct (Hlab k q a Hk) as (n' & Hn' & Hid & Htext).
  rewrite Hn in Hn'. injection Hn' as <-.
  exists n. split; [done|]. split; [done|]. split; [done|]. split.
  { rewrite Forall_forall in Hex. apply Hex. by eapply list_elem_of_lookup_2. }
  destruct metadata_copied_on_construction.
  - by destruct Hflag.
  - rewrite Hflag. by apply (Hparent ql).
Qed.



(** ** The extractors *)

Lemma qa_nodes_of_short (metadata_list : list qa_entry) (i : nat)
    (nodes : list TextNode) (st : store) (qa_nodes : list TextNode) :
  i ≤ length metadata_list →
  length metadata_list < i + length nodes →
  qa_nodes_of metadata_list i nodes st qa_nodes = Raise index_error.
Proof.
  revert i st qa_nodes. induction nodes as [|node nodes IH];
    intros i st qa_nodes Hi Hlen; simpl in Hlen; [lia|].
  cbn [qa_nodes_of].
  destruct (metadata_list !! i) as [entry|] eqn:E; [|done].
  apply lookup_lt_Some in E.
  destruct (qa_items node (default [] entry) 0 st qa_nodes) as [st' qa'].
  apply IH; unfold qa_entry in *; lia.
Qed.

Lemma qa_nodes_of_long (metadata_list : list qa_entry) (i : nat)
    (nodes : list TextNode) (st : store) (qa_nodes : list TextNode) :
  i + length nodes ≤ length metadata_list →
  ∃ st' new,
    qa_nodes_of metadata_list i nodes st qa_nodes
    = Ok (st', qa_nodes ++ new)
    ∧ length st ≤ length st'
    ∧ Forall excludes_nothing new
    ∧ (Forall (λ entry, default [] entry = []) metadata_list →
       st' = st ∧ new = [])
    ∧ ∀ k node q a rest,
        nodes !! k = Some node →
        metadata_list !! (i + k) = Some (Some ((q, a) :: rest)) →
        ∃ j n, new !! j = Some n ∧ id_ n = qa_id node 0 ∧ text n = q.
Proof.
  revert i st qa_nodes. induction nodes as [|node nodes IH];
    intros i st qa_nodes Hlen; simpl in Hlen.
  - exists st, []. simpl. rewrite app_nil_r.
    repeat split; try done.
  - cbn [qa_nodes_of]. unfold qa_entry in *.
    destruct (lookup_lt_is_Some_2 metadata_list i) as [entry Hentry]; [lia|].
    rewrite Hentry.
    destruct (qa_items_labels node (default [] entry) 0 st qa_nodes)
      as (st1 & new1 & -> & Hlen1 & Hst1 & Hnil1 & Hex1 & Hlab1).
    destruct (IH (S i) st1 (qa_nodes ++ new1)) as
      (st' & new & -> & Hst' & Hex & Hquiet & Hlab); [lia|].
    exists st', (new1 ++ new).
    split; [by rewrite app_assoc|]. split; [lia|].
    split; [by apply Forall_app|]. split.
    + intros Hall. destruct (Hquiet Hall) as [-> ->].
      rewrite Forall_forall in Hall.
      assert (default [] entry = []) as Hnone.
      { apply Hall. by eapply list_elem_of_lookup_2. }
      rewrite Hnone in *. destruct new1; [|done].
      by rewrite (Hnil1 eq_refl).
    + intros [|k] node0 q a rest Hk Hl; simpl in Hk.
      * injection Hk as <-. rewrite Nat.add_0_r, Hentry in Hl.
        injection Hl as ->. simpl in Hlab1.
        destruct (Hlab1 0 q a eq_refl) as (n & Hn & Hid & Ht).
        exists 0, n. split; [by apply lookup_app_l_Some|]. done.
      * replace (i + S k) with (S i + k) in Hl by lia.
        destruct (Hlab k node0 q a rest Hk Hl) as (j & n & Hn & Hid & Ht).
        exists (length new1 + j), n. split; [|done].
        by rewrite lookup_app_r, Nat.add_comm, Nat.add_sub by lia.
Qed.

(** X20.  Extractors that find no question/answer pair leave the
    result of [_get_nodes] as it is without extraction: the same nodes,
    referring to the same metadata. *)
Theorem extraction_without_pairs_changes_nothing
    (file_path : PathArg) (filter_pattern : option str) :
  (∀ st nodes, finds_nothing html_extract st nodes) →
  (∀ st nodes, finds_nothing txt_extract st nodes) →
  _get_nodes file_path filter_pattern true
  = _get_nodes file_path filter_pattern false.
Proof.
  intros Hhtml Htxt. unfold _get_nodes.
  case_bool_decide; [done|].
  destruct (load_data _) as [docs|e]; [|done].
  destruct (build docs) as [[st nodes]|e]; [|done].
  unfold extractors. cbn [run_extractors].
  destruct (Hhtml st nodes) as (l1 & -> & Hlen1 & Hall1).
  destruct (qa_nodes_of_long l1 0 nodes st []) as
    (st1 & new1 & -> & _ & _ & Hq1 & _); [simpl; lia|].
  destruct (Hq1 Hall1) as [-> ->]. simpl.
  destruct (Htxt st nodes) as (l2 & -> & Hlen2 & Hall2).
  destruct (qa_nodes_of_long l2 0 nodes st []) as
    (st2 & new2 & -> & _ & _ & Hq2 & _); [simpl; lia|].
  destruct (Hq2 Hall2) as [-> ->]. simpl.
  by rewrite app_nil_r.
Qed.

(** X21.  An extractor whose answer has fewer entries than there are
    nodes makes the extraction raise [IndexError]; then [_get_nodes]
    raises it too, and a load inserts and persists nothing. *)
Theorem short_extractor_answer_raises
    (file_path : PathArg) (filter_pattern : option str)
    (docs : list Document) (st : store) (nodes : list TextNode)
    (metadata_list : list qa_entry) :
  input_files file_path filter_pattern ≠ [] →
  load_data (input_files file_path filter_pattern) = Ok docs →
  build docs = Ok (st, nodes) →
  html_extract st nodes = Ok metadata_list →
  length metadata_list < length nodes →
  _get_nodes file_path filter_pattern true = Raise index_error
  ∧ load file_path filter_pattern true = ([], Raise index_error)
  ∧ ∀ ev out, aload file_path filter_pattern true ev out →
              ev = [] ∧ out = Raise index_error.
Proof.
  intros Hfiles Hdocs Hbuild Hhtml Hshort.
  assert (_get_nodes file_path filter_pattern true = Raise index_error)
    as Hget.
  { unfold _get_nodes. rewrite bool_decide_eq_false_2.
    - rewrite Hdocs, Hbuild. unfold extractors. cbn [run_extractors].
      rewrite Hhtml, qa_nodes_of_short by (simpl; lia). done.
    - intros Hz. by apply length_zero_iff_nil in Hz. }
  split; [done|]. split.
  - unfold load. by rewrite Hget.
  - intros ev out Hrun.
    destruct Hrun as [e He|r' Hr' _|r' ev e Hr' _ _|r' ev ev' out Hr' _ _ _];
      rewrite Hget in *; try done.
    by injection He as <-.
Qed.

Lemma run_extractors_appends
    (es : list (store → list TextNode → result (list qa_entry)))
    (nodes : list TextNode) (st st' : store)
    (qa_nodes qa_nodes' : list TextNode) :
  run_extractors es nodes st qa_nodes = Ok (st', qa_nodes') →
  ∃ new, qa_nodes' = qa_nodes ++ new
         ∧ length st ≤ length st'
         ∧ Forall excludes_nothing new.
Proof.
  revert st qa_nodes. induction es as [|extract es IH];
    intros st qa_nodes; cbn [run_extractors].
  - intros [= <- <-]. exists []. by rewrite app_nil_r.
  - destruct (extract st nodes) as [l|e]; [|done].
    destruct (decide (length nodes ≤ length l)) as [Hlen|Hlen].
    + destruct (qa_nodes_of_long l 0 nodes st qa_nodes)
        as (st1 & new1 & -> & Hst1 & Hex1 & _); [simpl; lia|].
      intros Hrun. destruct (IH _ _ Hrun) as (new & -> & Hst & Hex).
      exists (new1 ++ new). split; [by rewrite app_assoc|].
      split; [lia|]. by apply Forall_app.
    + rewrite qa_nodes_of_short by (simpl; lia). done.
Qed.

(** X22.  Question/answer extraction only appends: when [_get_nodes]
    returns nodes with extraction switched on, it returns without
    extraction the nodes that come first in that result, in the same
    order, and every node after them is a question/answer node, which
    keeps [answer] out of the embedded metadata and [question] out of
    the metadata shown to the model. *)
Theorem qa_extraction_only_appends
    (file_path : PathArg) (filter_pattern : option str)
    (all : list TextNode) (st' : store) :
  _get_nodes file_path filter_pattern true = Ok (Some (all, st')) →
  ∃ nodes st qa_nodes,
    _get_nodes file_path filter_pattern false = Ok (Some (nodes, st))
    ∧ all = nodes ++ qa_nodes
    ∧ Forall excludes_qa_keys qa_nodes
    ∧ length st ≤ length st'.
Proof.
  unfold _get_nodes. case_bool_decide; [done|].
  destruct (load_data _) as [docs|e]; [|done].
  destruct (build docs) as [[st nodes]|e]; [|done].
  destruct (run_extractors extractors nodes st []) as [[st1 qa]|e] eqn:Hrun;
    [|done].
  intros [= <- <-].
  destruct (run_extractors_appends _ _ _ _ _ _ Hrun) as (new & -> & Hst & Hex).
  exists nodes, st, (map exclude_qa_keys new).
  split; [done|]. split; [done|]. split; [|done].
  apply Forall_forall. intros n Hn.
  apply list_elem_of_fmap in Hn as (n0 & -> & Hn0).
  rewrite Forall_forall in Hex. destruct (Hex n0 Hn0) as [H1 H2].
  unfold excludes_qa_keys, exclude_qa_keys. simpl. by rewrite H1, H2.
Qed.

(** X23.  The numbering of the question/answer nodes starts again at 0
    for every extractor: when both extractors find a pair for the same
    node, two of the nodes made have the same identifier
    [{node.id_}_0], the one of the first extractor before the other. *)
Theorem qa_identifiers_repeat_across_extractors
    (nodes : list TextNode) (st st' : store) (qa_nodes : list TextNode)
    (i : nat) (node : TextNode) (l1 l2 : list qa_entry)
    (q1 a1 q2 a2 : str) (rest1 rest2 : list (str * str)) :
  nodes !! i = Some node →
  html_extract st nodes = Ok l1 →
  l1 !! i = Some (Some ((q1, a1) :: rest1)) →
  (∀ s, txt_extract s nodes = Ok l2) →
  l2 !! i = Some (Some ((q2, a2) :: rest2)) →
  run_extractors extractors nodes st [] = Ok (st', qa_nodes) →
  ∃ j1 j2 n1 n2,
    j1 < j2
    ∧ qa_nodes !! j1 = Some n1 ∧ qa_nodes !! j2 = Some n2
    ∧ id_ n1 = qa_id node 0 ∧ id_ n2 = qa_id node 0
    ∧ text n1 = q1 ∧ text n2 = q2.
Proof.
  intros Hi Hl1 Hq1 Hl2 Hq2. unfold extractors. cbn [run_extractors].
  rewrite Hl1.
  destruct (decide (length nodes ≤ length l1)) as [Hlen1|Hlen1];
    [|by rewrite qa_nodes_of_short by (simpl; lia)].
  destruct (qa_nodes_of_long l1 0 nodes st [])
    as (st1 & new1 & -> & _ & _ & _ & Hlab1); [simpl; lia|].
  rewrite Hl2.
  destruct (decide (length nodes ≤ length l2)) as [Hlen2|Hlen2];
    [|by rewrite qa_nodes_of_short by (simpl; lia)].
  destruct (qa_nodes_of_long l2 0 nodes st1 ([] ++ new1))
    as (st2 & new2 & -> & _ & _ & _ & Hlab2); [simpl; lia|].
  intros [= <- <-].
  destruct (Hlab1 i node q1 a1 rest1 Hi Hq1) as (j1 & n1 & Hn1 & Hid1 & Ht1).
  destruct (Hlab2 i node q2 a2 rest2 Hi Hq2) as (j2 & n2 & Hn2 & Hid2 & Ht2).
  exists j1, (length new1 + j2), n1, n2.
  pose proof (lookup_lt_Some _ _ _ Hn1) as Hj1.
  split; [lia|]. simpl. split; [by apply lookup_app_l_Some|].
  split; [|done].
  by rewrite lookup_app_r, Nat.add_comm, Nat.add_sub by lia.
Qed.


(** ** What follows the insertion *)

Lemma persist_and_sync_steps (nodes : list TextNode) ev out :
  persist_and_sync nodes = (ev, out) →
  ev `prefix_of` after_insertion nodes
  ∧ head ev = Some EvPersist
  ∧ (bm25_index = false → ev = [EvPersist])
  ∧ (out = Ok tt →
     ev = EvPersist :: (if bm25_index
                        then [EvBm25AddDocs nodes; EvWriteIndexMetadata]
                        else []))
  ∧ (EvWriteIndexMetadata ∈ ev → out = Ok tt).
Proof.
  unfold persist_and_sync, after_insertion.
  destruct storage_persist as [[]|e].
  - destruct bm25_index.
    + destruct (bm25_add_docs nodes) as [[]|e]; intros [= <- <-].
      * repeat split; try done.
      * split; [by eexists [_]|]. repeat split; try done.
        intros Hin. repeat (apply elem_of_cons in Hin as [Hin|Hin]; [done|]).
        by apply elem_of_nil in Hin.
    + intros [= <- <-]. split; [by eexists [_; _]|]. repeat split; done.
  - intros [= <- <-]. split; [by eexists [_; _]|]. repeat split; try done.
    intros Hin. repeat (apply elem_of_cons in Hin as [Hin|Hin]; [done|]).
    by apply elem_of_nil in Hin.
Qed.

(** X24.  A blocking load does its steps in one order and stops at the
    first that fails: insert the nodes, persist the storage context,
    update the keyword index, rewrite the index metadata.  When a step
    raises, the load raises that exception and the step is the last
    thing done; nothing is done when there is nothing to load; the
    keyword index and the index metadata are left alone when no keyword
    index is configured; a load that returns normally has done every
    step that applies. *)
Theorem load_steps_in_order
    (file_path : PathArg) (filter_pattern : option str) (qa : bool)
    (r : option (list TextNode * store)) :
  _get_nodes file_path filter_pattern qa = Ok r →
  let nodes := nodes_of r in
  let ev := (load file_path filter_pattern qa).1 in
  let out := (load file_path filter_pattern qa).2 in
  ev `prefix_of` (EvInsertNodes nodes :: after_insertion nodes)
  ∧ (ev = [] ↔ no_nodes r = true)
  ∧ (no_nodes r = true → out = Ok tt)
  ∧ (no_nodes r = false →
     match insert_nodes nodes with
     | Raise e => ev = [EvInsertNodes nodes] ∧ out = Raise e
     | Ok _ =>
         match storage_persist with
         | Raise e => ev = [EvInsertNodes nodes; EvPersist] ∧ out = Raise e
         | Ok _ =>
             if bm25_index then
               match bm25_add_docs nodes with
               | Raise e =>
                   ev = [EvInsertNodes nodes; EvPersist; EvBm25AddDocs nodes]
                   ∧ out = Raise e
               | Ok _ =>
                   ev = [EvInsertNodes nodes; EvPersist;
                         EvBm25AddDocs nodes; EvWriteIndexMetadata]
                   ∧ out = Ok tt
               end
             else ev = [EvInsertNodes nodes; EvPersist] ∧ out = Ok tt
         end
     end)
  ∧ (bm25_index = false → count is_keyword_sync ev = 0)
  ∧ (out = Ok tt → no_nodes r = false →
     ev = EvInsertNodes nodes :: EvPersist
          :: (if bm25_index
              then [EvBm25AddDocs nodes; EvWriteIndexMetadata]
              else []))
  ∧ (EvWriteIndexMetadata ∈ ev → out = Ok tt).
Proof.
  intros Hr nodes ev out. subst nodes ev out. unfold load. rewrite Hr.
  destruct (no_nodes r) eqn:Hnone; simpl.
  { split; [apply prefix_nil|]. repeat split; done. }
  destruct (insert_nodes (nodes_of r)) as [[]|e]; simpl.
  - destruct (persist_and_sync (nodes_of r)) as [ev out] eqn:Hsync.
    destruct (persist_and_sync_steps _ _ _ Hsync)
      as (Hpre & Hhead & Hno & Hok & Hlast).
    simpl. split; [by apply prefix_cons|]. split; [done|].
    split; [done|]. split.
    { intros _. unfold persist_and_sync in Hsync.
      destruct storage_persist as [[]|e]; [|by injection Hsync as <- <-].
      destruct bm25_index; [|by injection Hsync as <- <-].
      destruct (bm25_add_docs (nodes_of r)) as [[]|e];
        by injection Hsync as <- <-. }
    split.
    { intros Hb. rewrite (Hno Hb). done. }
    split.
    { intros Hout _. by rewrite (Hok Hout). }
    intros Hin. apply elem_of_cons in Hin as [Hin|Hin]; [done|]. auto.
  - split; [by eexists|]. split; [done|]. split; [done|].
    split; [done|]. split; [done|]. split; [done|].
    intros Hin. apply elem_of_cons in Hin as [Hin|Hin]; [done|].
    by apply elem_of_nil in Hin.
Qed.

Lemma elem_of_count_zero (p : Event TextNode → bool)
    (l : list (Event TextNode)) (e : Event TextNode) :
  count p l = 0 → p e = true → e ∉ l.
Proof. apply count_zero_not_in. Qed.

(** X25.  An asynchronous load persists the storage context only after
    an asynchronous insert of the nodes that returned normally, at most
    once, and touches the keyword index and the index metadata only
    after that and only when a keyword index is configured; when the
    insert raises, nothing is persisted.  A load of some nodes that
    returns normally ends with the persisting or, with a keyword index,
    with the rewriting of the index metadata. *)
Theorem aload_persists_after_successful_insert
    (file_path : PathArg) (filter_pattern : option str) (qa : bool)
    (r : option (list TextNode * store))
    (ev : list (Event TextNode)) (out : result unit) :
  _get_nodes file_path filter_pattern qa = Ok r →
  aload file_path filter_pattern qa ev out →
  let nodes := nodes_of r in
  ∃ ins tail,
    ev = ins ++ tail
    ∧ tail `prefix_of` after_insertion nodes
    ∧ count is_persist ins = 0
    ∧ count is_keyword_sync ins = 0
    ∧ (tail ≠ [] → insert_nodes_async nodes ins (Ok tt))
    ∧ (bm25_index = false → count is_keyword_sync ev = 0)
    ∧ (out = Ok tt → no_nodes r = false →
       tail = EvPersist
              :: (if bm25_index
                  then [EvBm25AddDocs nodes; EvWriteIndexMetadata]
                  else []))
    ∧ (EvWriteIndexMetadata ∈ ev → out = Ok tt).
Proof.
  intros Hr Hrun nodes. subst nodes.
  destruct Hrun as [e He|r' Hr' Hnone|r' ev e Hr' Hsome Hins
                   |r' ev ev' out Hr' Hsome Hins Hsync].
  - congruence.
  - rewrite Hr in Hr'. injection Hr' as <-.
    exists [], []. split; [done|]. split; [apply prefix_nil|].
    repeat split; try done; congruence.
  - rewrite Hr in Hr'. injection Hr' as <-.
    destruct (insert_nodes_async_events _ _ _ Hins) as (Hp & Hk & _).
    exists ev, []. rewrite app_nil_r.
    split; [done|]. split; [apply prefix_nil|].
    repeat split; try done.
    intros Hin. exfalso.
    by apply (elem_of_count_zero is_keyword_sync ev EvWriteIndexMetadata).
  - rewrite Hr in Hr'. injection Hr' as <-.
    destruct (insert_nodes_async_events _ _ _ Hins) as (Hp & Hk & _).
    destruct (persist_and_sync_steps _ _ _ Hsync)
      as (Hpre & Hhead & Hno & Hok & Hlast).
    exists ev, ev'. split; [done|]. split; [done|].
    split; [done|]. split; [done|]. split; [done|]. split.
    { intros Hb. rewrite count_app, Hk, (Hno Hb). done. }
    split; [by intros Hout _; apply Hok|].
    intros Hin. apply elem_of_app in Hin as [Hin|Hin]; [|auto].
    exfalso.
    by apply (elem_of_count_zero is_keyword_sync ev EvWriteIndexMetadata).
Qed.

End More.
End LoaderMoreFacts.

(* ===================================================================== *)
(** * Facts about the loading of an evaluation dataset *)
(* ===================================================================== *)

Module EvalFacts.
Import Index IndexFacts IndexVocabulary IndexOrderFacts.
Import DataLoader LoaderFacts LoaderVocabulary LoaderMoreFacts EvalData.

Section Eval.
Context `{C : Collaborators} `{B : Backend TextNode}.

Lemma eval_nodes_length (rows : list row) :
  length (eval_nodes rows) = length rows.
Proof. unfold eval_nodes. apply length_imap. Qed.

Lemma insert_nothing_events (ev : list (Event TextNode)) (out : result unit) :
  insert_nodes_async (@nil TextNode) ev out →
  ev = [EvAddIndexStruct] ∧ out = Ok tt.
Proof.
  intros Hrun.
  destruct Hrun as [_|? ? Hne _|? ? ? Hne _ _ _|? ? ? ? ? Hne _ _ _
                   |? ? ? ? ? Hne _ _ _]; done.
Qed.

(** X26.  [aload_eval_data] refuses every dataset name but [miracl]
    with a [ValueError] before doing anything.  For [miracl] it goes on
    as [aload] does after its emptiness check, but has no such check: a
    call that returns normally has handed [ceil(n / 100)] batches to the
    vector store, stored the index structure once and persisted the
    storage context once, also when the corpus is empty (then these are
    its first two events). *)
Theorem eval_load_has_no_emptiness_check
    (name : str) (corpus : result (list row))
    (ev : list (Event TextNode)) (out : outcome) :
  aload_eval_data name corpus ev out →
  (name ≠ MIRACL →
   ev = []
   ∧ out = ValueError (lit "Not supported eval dataset name with " ++ name))
  ∧ (name = MIRACL →
     (∀ msg, out ≠ ValueError msg)
     ∧ ∀ rows, corpus = Ok rows →
         (out = Ended (Ok tt) →
          count is_issue ev = (length rows + 99) / 100
          ∧ count is_index_struct ev = 1
          ∧ count is_persist ev = 1
          ∧ count is_keyword_sync ev = if bm25_index then 2 else 0)
         ∧ (rows = [] →
            ev !! 0 = Some EvAddIndexStruct ∧ ev !! 1 = Some EvPersist)).
Proof.
  intros Hrun.
  destruct Hrun as [Hname|e Hname Hc|rows ev e Hname Hc Hins
                   |rows ev ev' out Hname Hc Hins Hsync].
  - split; [done|]. intros Hn. done.
  - split; [done|]. intros _. split; [done|].
    intros rows Hrows. congruence.
  - split; [done|]. intros _. split; [done|].
    intros rows' Hrows. rewrite Hc in Hrows. injection Hrows as <-.
    split; [done|]. intros ->.
    by destruct (insert_nothing_events _ _ Hins).
  - split; [done|]. intros _. split; [done|].
    intros rows' Hrows. rewrite Hc in Hrows. injection Hrows as <-.
    destruct (persist_and_sync_steps _ _ _ Hsync)
      as (Hpre & Hhead & Hno & Hok & Hlast).
    split.
    + intros [= ->]. specialize (Hok eq_refl).
      destruct (insert_nodes_async_events _ _ _ Hins)
        as (Hp & Hk & _ & _ & _ & Hiss).
      destruct (insert_ok_counts _ _ Hins) as (_ & _ & Hstruct).
      specialize (Hiss eq_refl).
      rewrite iter_batch_length in Hiss by (unfold BATCH_SIZE; lia).
      rewrite eval_nodes_length in Hiss. unfold BATCH_SIZE in Hiss.
      replace (length rows + 100 - 1) with (length rows + 99) in Hiss by lia.
      rewrite !count_app, Hiss, Hstruct, Hp, Hk, Hok.
      destruct bm25_index; simpl; repeat split; lia.
    + intros ->. destruct (insert_nothing_events _ _ Hins) as [-> _].
      split; [done|]. simpl. by destruct ev'.
Qed.

End Eval.
End EvalFacts.

Import Index IndexFacts IndexVocabulary IndexOrderFacts.
Import DataLoader LoaderFacts LoaderVocabulary LoaderMoreFacts.
Import EvalData EvalFacts.

(* ===================================================================== *)
(** * Further examples for the index and the loader *)
(* ===================================================================== *)

Section MoreLoaderExamples.
Import Scenario Scenario3.

Lemma sheet_nodes_one_batch :
  0 < length (nodes_of sheet_result) ≤ BATCH_SIZE.
Proof. rewrite sheet_nodes_length. unfold BATCH_SIZE. lia. Qed.

Lemma one_batch_run (nodes : list TextNode) :
  nsteps (gstep (B := backend) [nodes]) 2 (ginit [nodes]) (one_batch_done nodes).
Proof.
  eapply nsteps_l; [|eapply nsteps_l; [|apply nsteps_O]].
  - apply (step_acquire (B := backend) [nodes] (ginit [nodes]) 0 nodes);
      [done|done|].
    simpl. unfold SEMAPHORE_WIDTH. lia.
  - apply (step_return (B := backend) [nodes]
             (MkG (10 - 1) [InFlight] [EvAsyncAdd 0 nodes]) 0).
    done.
Qed.

Lemma one_batch_registered_reached (nodes : list TextNode) :
  greach (B := docstore_backend) [nodes] (one_batch_registered nodes).
Proof.
  eapply rtc_l; [|eapply rtc_l; [|apply rtc_refl]].
  - apply (step_acquire (B := docstore_backend) [nodes] (ginit [nodes]) 0 nodes);
      [done|done|].
    simpl. unfold SEMAPHORE_WIDTH. lia.
  - apply (step_return (B := docstore_backend) [nodes]
             (MkG (10 - 1) [InFlight] [EvAsyncAdd 0 nodes]) 0).
    done.
Qed.

(** X11 at the gather over one batch, once the batch is done. *)
Lemma gather_runs_at_most_two_steps_per_batch_witness :
  steps_taken (one_batch_done (nodes_of sheet_result)) = 2
  ∧ ∀ s', ¬ gstep (B := backend) [nodes_of sheet_result]
              (one_batch_done (nodes_of sheet_result)) s'.
Proof.
  destruct (gather_runs_at_most_two_steps_per_batch (B := backend)
              [nodes_of sheet_result] 2
              (one_batch_done (nodes_of sheet_result))
              (one_batch_run (nodes_of sheet_result)))
    as (Hsteps & _ & _ & Hend).
  split; [exact Hsteps|]. apply Hend. reflexivity.
Defined.

(** X12 at a vector store that keeps no text: the batch that is done has
    been registered once. *)
Lemma registration_follows_store_flags_witness :
  count (is_registered 0)
        (trace (one_batch_registered (nodes_of sheet_result))) = 1.
Proof.
  exact (proj1 (registration_follows_store_flags (B := docstore_backend)
                  [nodes_of sheet_result]
                  (one_batch_registered (nodes_of sheet_result)) 0
                  (one_batch_registered_reached (nodes_of sheet_result)))).
Defined.

(** X13 at an insert of one node whose only batch cannot be embedded. *)
Lemma embedding_completes_before_insertion_witness :
  ∃ m rest,
    [@EvEmbed TextNode 0] = embeddings 0 m ++ rest
    ∧ m ≤ length (iter_batch [parent] BATCH_SIZE)
    ∧ rest = [].
Proof.
  destruct (embedding_completes_before_insertion (B := unembeddable_backend)
              [parent] [EvEmbed 0] (Raise embedding_failure)
              (insert_embedding_raises (B := unembeddable_backend)
                 [parent] [EvEmbed 0] embedding_failure
                 ltac:(done) eq_refl))
    as (m & rest & H1 & H2 & _ & H4 & _).
  exists m, rest. split; [exact H1|]. split; [exact H2|].
  exact (proj1 H4).
Defined.

(** X14 at an insert of twenty-five nodes. *)
Lemma index_struct_stored_once_on_success_witness :
  count is_index_struct (one_batch_insertion (nodes_of sheet_result)) = 1
  ∧ last (one_batch_insertion (nodes_of sheet_result))
    = Some EvAddIndexStruct.
Proof.
  destruct (index_struct_stored_once_on_success (B := backend)
              (nodes_of sheet_result)
              (one_batch_insertion (nodes_of sheet_result)) (Ok tt)
              (one_batch_inserted _ sheet_nodes_one_batch))
    as (H & _).
  destruct (H eq_refl) as (H1 & H2 & _).
  split; [exact H1|exact H2].
Defined.

(** X15 at an insert of twenty-five nodes. *)
Lemma successful_insert_counts_batches_witness :
  length (iter_batch (nodes_of sheet_result) BATCH_SIZE)
  = (length (nodes_of sheet_result) + 99) / 100
  ∧ count is_issue (one_batch_insertion (nodes_of sheet_result))
    = (length (nodes_of sheet_result) + 99) / 100.
Proof.
  destruct (successful_insert_counts_batches (B := backend)
              (nodes_of sheet_result)
              (one_batch_insertion (nodes_of sheet_result))
              (one_batch_inserted _ sheet_nodes_one_batch))
    as (H1 & _ & H3 & _).
  split; [exact H1|exact H3].
Defined.

(** X16 at the spreadsheet document. *)
Lemma file_type_is_the_last_extension_witness :
  ∃ name e, doc_metadata sheet !! lit "file_name" = Some name
            ∧ e ∈ DOC_TYPES_DO_NOT_NEED_CHUNKING
            ∧ ends_with name e.
Proof.
  apply (proj2 (proj2 (file_type_is_the_last_extension (doc_metadata sheet)))
           sheet eq_refl).
  vm_compute. reflexivity.
Defined.

(** X17 at a single path that is not a directory. *)
Lemma nothing_to_load_iff_no_input_file_witness :
  _get_nodes (C := loader_world true) text_file None true ≠ Ok None.
Proof.
  apply (proj2 (proj2 (nothing_to_load_iff_no_input_file
                         (C := loader_world true) text_file None true))
           (lit "a.txt") eq_refl).
  reflexivity.
Defined.

(** X18 at two documents of the same spreadsheet. *)
Lemma unchunked_documents_make_one_node_each_witness :
  ∃ st nodes,
    build (C := loader_world true) [sheet; sheet] = Ok (st, nodes)
    ∧ length nodes = 2.
Proof.
  destruct (unchunked_documents_make_one_node_each (C := loader_world true)
              [sheet; sheet])
    as (st & nodes & H1 & H2 & _).
  - repeat constructor; vm_compute; reflexivity.
  - exists st, nodes. split; [exact H1|exact H2].
Defined.

(** X19 at a node with two pairs. *)
Lemma qa_nodes_of_one_node_witness :
  ∃ st' new,
    qa_items (C := loader_world false) parent two_items 0 parent_store []
    = (st', new)
    ∧ length new = 2
    ∧ deref st' (metadata parent)
      = <[lit "answer" := lit "A2"]> (deref parent_store (metadata parent)).
Proof.
  destruct (qa_nodes_of_one_node (C := loader_world false)
              parent two_items parent_store (lit "Q2") (lit "A2"))
    as (st' & new & H1 & H2 & H3 & _).
  - simpl. lia.
  - reflexivity.
  - exists st', new. split; [exact H1|]. split; [exact H2|exact H3].
Defined.

Lemma no_pairs_finds_nothing (st : store) (nodes : list TextNode) :
  finds_nothing no_pairs st nodes.
Proof.
  exists (map (λ _, None) nodes). split; [done|].
  split; [by rewrite length_map|].
  apply Forall_forall. intros entry Hin.
  by apply list_elem_of_fmap in Hin as (n & -> & _).
Qed.

(** X20 at extractors that find nothing. *)
Lemma extraction_without_pairs_changes_nothing_witness :
  _get_nodes (C := quiet_world) text_file None true
  = _get_nodes (C := quiet_world) text_file None false.
Proof.
  apply (extraction_without_pairs_changes_nothing (C := quiet_world)
           text_file None).
  - exact no_pairs_finds_nothing.
  - exact no_pairs_finds_nothing.
Defined.

Lemma built_in_ok (w : Collaborators) (docs : list Document) :
  is_ok (build (C := w) docs) = true →
  build (C := w) docs = Ok (store_built_in w docs, nodes_built_in w docs).
Proof.
  unfold store_built_in, nodes_built_in.
  by destruct (build (C := w) docs) as [[st nodes]|e].
Qed.

(** X21 at an extractor whose answer is empty. *)
Lemma short_extractor_answer_raises_witness :
  _get_nodes (C := short_world) text_file None true = Raise index_error
  ∧ load (C := short_world) text_file None true = ([], Raise index_error).
Proof.
  destruct (short_extractor_answer_raises (C := short_world) (B := backend)
              text_file None [text_doc]
              (store_built_in short_world [text_doc])
              (nodes_built_in short_world [text_doc]) [])
    as (H1 & H2 & _).
  - simpl. done.
  - reflexivity.
  - apply built_in_ok. vm_compute. reflexivity.
  - reflexivity.
  - vm_compute. lia.
  - split; [exact H1|exact H2].
Defined.

Lemma has_nodes_ok
    (r : result (option (list TextNode * store))) :
  has_nodes r = true → r = Ok (Some (all_nodes r, final_store r)).
Proof. by destruct r as [[[nodes st]|]|e]. Qed.

(** X22 at one text file with two pairs. *)
Lemma qa_extraction_only_appends_witness :
  ∃ nodes st qa_nodes,
    _get_nodes (C := loader_world true) text_file None false
    = Ok (Some (nodes, st))
    ∧ all_nodes (one_text_file true) = nodes ++ qa_nodes
    ∧ Forall excludes_qa_keys qa_nodes.
Proof.
  destruct (qa_extraction_only_appends (C := loader_world true)
              text_file None
              (all_nodes (one_text_file true))
              (final_store (one_text_file true)))
    as (nodes & st & qa & H1 & H2 & H3 & _).
  - apply (has_nodes_ok (one_text_file true)). vm_compute. reflexivity.
  - exists nodes, st, qa. split; [exact H1|]. split; [exact H2|exact H3].
Defined.

Lemma qa_run_ok (w : Collaborators) :
  is_ok (run_extractors (C := w) (extractors (C := w))
           [parent] parent_store []) = true →
  run_extractors (C := w) (extractors (C := w)) [parent] parent_store []
  = Ok (qa_store_in w, qa_nodes_in w).
Proof.
  unfold qa_store_in, qa_nodes_in.
  by destruct (run_extractors _ _ _ _) as [[st nodes]|e].
Qed.

(** X23 at two extractors that both find two pairs. *)
Lemma qa_identifiers_repeat_across_extractors_witness :
  ∃ j1 j2 n1 n2,
    j1 < j2
    ∧ qa_nodes_in doubling_world !! j1 = Some n1
    ∧ qa_nodes_in doubling_world !! j2 = Some n2
    ∧ id_ n1 = lit "n0_0" ∧ id_ n2 = lit "n0_0".
Proof.
  destruct (qa_identifiers_repeat_across_extractors (C := doubling_world)
              [parent] parent_store (qa_store_in doubling_world)
              (qa_nodes_in doubling_world) 0 parent
              two_items_each two_items_each
              (lit "Q1") (lit "A1") (lit "Q1") (lit "A1")
              [(lit "Q2", lit "A2")] [(lit "Q2", lit "A2")])
    as (j1 & j2 & n1 & n2 & H1 & H2 & H3 & H4 & H5 & _).
  - reflexivity.
  - reflexivity.
  - reflexivity.
  - reflexivity.
  - reflexivity.
  - apply qa_run_ok. vm_compute. reflexivity.
  - exists j1, j2, n1, n2. split; [exact H1|]. split; [exact H2|].
    split; [exact H3|]. split; [exact H4|exact H5].
Defined.

(** X24 at twenty-five spreadsheet files. *)
Lemma load_steps_in_order_witness :
  (load (C := loader_world true) sheets None false).1
  = EvInsertNodes (nodes_of sheet_result)
    :: EvPersist :: keyword_sync (nodes_of sheet_result).
Proof.
  destruct (load_steps_in_order (C := loader_world true)
              sheets None false sheet_result sheets_built)
    as (_ & _ & _ & _ & _ & H & _).
  apply H.
  - unfold load. rewrite sheets_built.
    by destruct (no_nodes sheet_result).
  - pose proof sheet_nodes_one_batch as Hlen.
    destruct sheet_result as [[[|n l] st]|]; simpl in *; (lia || done).
Defined.

(** X25 at twenty-five spreadsheet files. *)
Lemma aload_persists_after_successful_insert_witness :
  ∃ ins tail,
    one_batch_insertion (nodes_of sheet_result)
      ++ EvPersist :: keyword_sync (nodes_of sheet_result)
    = ins ++ tail
    ∧ tail `prefix_of` after_insertion (nodes_of sheet_result)
    ∧ count is_persist ins = 0.
Proof.
  destruct (aload_persists_after_successful_insert
              (C := loader_world true) (B := backend)
              sheets None false sheet_result _ _ sheets_built
              (one_batch_loaded sheets None false sheet_result sheets_built
                 sheet_nodes_one_batch))
    as (ins & tail & H1 & H2 & H3 & _).
  exists ins, tail. split; [exact H1|]. split; [exact H2|exact H3].
Defined.

Lemma two_rows_loaded :
  aload_eval_data (C := loader_world true) (B := backend)
    MIRACL (Ok two_rows)
    (one_batch_insertion (eval_nodes two_rows)
       ++ EvPersist :: keyword_sync (eval_nodes two_rows))
    (Ended (Ok tt)).
Proof.
  apply (eval_inserted (C := loader_world true) (B := backend)
           MIRACL (Ok two_rows) two_rows
           (one_batch_insertion (eval_nodes two_rows))
           (EvPersist :: keyword_sync (eval_nodes two_rows)) (Ok tt));
    [done|done| |done].
  apply one_batch_inserted. simpl. unfold BATCH_SIZE. lia.
Qed.

(** X26 at a corpus of two passages. *)
Lemma eval_load_has_no_emptiness_check_witness :
  count is_persist
    (one_batch_insertion (eval_nodes two_rows)
       ++ EvPersist :: keyword_sync (eval_nodes two_rows)) = 1.
Proof.
  destruct (eval_load_has_no_emptiness_check
              (C := loader_world true) (B := backend)
              MIRACL (Ok two_rows) _ _ two_rows_loaded)
    as [_ H].
  destruct (H eq_refl) as [_ H'].
  destruct (H' two_rows eq_refl) as [Hok _].
  exact (proj1 (proj2 (proj2 (Hok eq_refl)))).
Defined.

End MoreLoaderExamples.
